(** * Near-duplicate image finder: the similarity-clustering core

    A shallow embedding of [scripts/find_near_duplicates.py]:
    the average-hash packing, the Hamming distance, the disjoint-set
    structure [DSU] with path halving and union by rank, the pairwise
    comparison loop, the collection of components and the choice of the
    member to keep in each group.

    Conventions of the embedding.
    - Python integers are [Z]; list indices, which the program only ever
      takes from [range], are [nat].
    - A Python list updated in place is a [list] with stdpp's lookup
      [l !! i] and update [<[i:=v]> l]; a read out of range is the
      outcome [IndexError], as in Python.
    - The [while] loop of [DSU.find] is run with a fuel; running out of
      fuel is the outcome [OutOfFuel], kept apart from every result.
    - A path is modelled by its [str()], a [string]; paths are compared
      only through [str] in the program. A [string] holds the bytes of
      the UTF-8 encoding, whose bytewise order is the order on code
      points that Python compares strings by.
    - Printing to standard output, the wall-clock time stamps, the
      writing of the manifests and the deletion of files are left out:
      they change none of the values modelled here. *)

From Stdlib Require Import ZArith QArith Lia String Ascii List Permutation Sorted.
From stdpp Require Import base list strings gmap.

(** ** Outcomes of a run *)

Inductive outcome (A : Type) : Type :=
| Done (a : A)
| IndexError
| OutOfFuel.

Arguments Done {A} a.
Arguments IndexError {A}.
Arguments OutOfFuel {A}.

#[global] Instance outcome_ret : MRet outcome := fun A a => Done a.

#[global] Instance outcome_bind : MBind outcome := fun A B k m =>
  match m with
  | Done a => k a
  | IndexError => IndexError
  | OutOfFuel => OutOfFuel
  end.

(** [l[i]] for a non-negative index. *)
Definition getitem {A} (l : list A) (i : nat) : outcome A :=
  match l !! i with
  | Some a => Done a
  | None => IndexError
  end.

(** A [for] loop whose body may fail. *)
Fixpoint foldM {A St} (body : St -> A -> outcome St) (s : St) (l : list A) : outcome St :=
  match l with
  | [] => Done s
  | a :: l' => s' ← body s a; foldM body s' l'
  end.

(** [l[i] = v] for a non-negative index. *)
Definition setitem {A} (l : list A) (i : nat) (v : A) : outcome (list A) :=
  if i <? length l then Done (<[i:=v]> l) else IndexError.

(** An exception raised by a call and caught by its caller, with its
    [str()]. *)
Inductive result (A : Type) : Type :=
| Ok (a : A)
| Raise (msg : string).

Arguments Ok {A} a.
Arguments Raise {A} msg.

(** A path, by its [str()]. *)
Abbreviation Path := string (only parsing).

(** [sorted(l, key=...)] and [list.sort(key=...)]: Python's sort is stable
    and compares keys with [<] only; [lt] is that comparison on the
    elements. An element goes before the first later one that is not
    smaller than it, so equal elements keep their order. *)
Section Sorting.
Context {A : Type} (lt : A -> A -> bool).

Fixpoint insert_sorted (x : A) (l : list A) : list A :=
  match l with
  | [] => [x]
  | y :: l' => if lt y x then y :: insert_sorted x l' else x :: y :: l'
  end.

Definition sorted_by (l : list A) : list A := foldr insert_sorted [] l.

End Sorting.

(** ** Average hash (lines 25-66) *)

Module AHash.

Local Open Scope Z_scope.

(** [sum(pixels)] *)
Definition sum (pixels : list Z) : Z := fold_left Z.add pixels 0.

(** [avg = sum(pixels) / 64.0]. The quotient of an integer by 64 is exact
    in binary floating point for the pixel sums that occur (at most
    64 * 255), and Python compares an integer with a float exactly, so
    the rational is what the program computes with. *)
Definition avg (pixels : list Z) : Q := inject_Z (sum pixels) / inject_Z 64.

(** [v > avg] *)
Definition brighter (v : Z) (a : Q) : bool := negb (Qle_bool (inject_Z v) a).

(** [bits = 0; for v in pixels: bits = (bits << 1) | (1 if v > avg else 0)] *)
Definition pack (pixels : list Z) : Z :=
  let a := avg pixels in
  fold_left (fun bits v => Z.lor (Z.shiftl bits 1) (if brighter v a then 1 else 0))
            pixels 0.

(** What the program gets from outside: whether Pillow can be imported,
    the 8x8 grayscale pixel data Pillow yields for a file, and the output
    of a subprocess. *)
Record Backend : Type := {
  have_pillow : bool;
  pillow_getdata : Path -> result (list Z);
  check_output : list string -> result (list Byte.byte)
}.

Definition ahash_pillow (be : Backend) (path : Path) : result Z :=
  match pillow_getdata be path with
  | Ok pixels => Ok (pack pixels)
  | Raise e => Raise e
  end.

Definition cmd_variants (path : Path) : list (list string) :=
  [ ["magick"; "convert"; path; "-colorspace"; "RGB"; "-resize"; "8x8!";
     "-colorspace"; "Gray"; "-depth"; "8"; "gray:-"];
    ["convert"; path; "-colorspace"; "RGB"; "-resize"; "8x8!";
     "-colorspace"; "Gray"; "-depth"; "8"; "gray:-"] ]%string.

Definition byte_value (b : Byte.byte) : Z := Z.of_N (Byte.to_N b).

(** The loop over the command variants, with [last_err] as its [str()]. *)
Fixpoint try_variants (be : Backend) (cmds : list (list string)) (last_err : string)
  : result Z :=
  match cmds with
  | [] => Raise ("ImageMagick convert not available or failed: " ++ last_err)%string
  | cmd :: cmds' =>
    match check_output be cmd with
    | Ok out =>
      if (length out <? 64)%nat
      then try_variants be cmds' "unexpected gray output size"%string
      else Ok (pack (map byte_value (take 64 out)))
    | Raise e => try_variants be cmds' e
    end
  end.

Definition ahash_imagemagick (be : Backend) (path : Path) : result Z :=
  try_variants be (cmd_variants path) "None"%string.

Definition ahash (be : Backend) (path : Path) : result Z :=
  if have_pillow be then ahash_pillow be path else ahash_imagemagick be path.

End AHash.

(** ** Hamming distance (lines 69-70) *)

Module Hamming.

Local Open Scope Z_scope.

(** Number of ones of a positive binary numeral. *)
Fixpoint popcount (p : positive) : Z :=
  match p with
  | xH => 1
  | xO q => popcount q
  | xI q => 1 + popcount q
  end.

(** [int.bit_count()]: the number of ones in the binary representation of
    the absolute value. *)
Definition bit_count (x : Z) : Z :=
  match x with
  | Z0 => 0
  | Zpos p => popcount p
  | Zneg p => popcount p
  end.

(** [hamming(a, b) = (a ^ b).bit_count()] *)
Definition hamming (a b : Z) : Z := bit_count (Z.lxor a b).

(** A 64-bit fingerprint. *)
Definition fingerprint64 (a : Z) : Prop := 0 <= a < 2 ^ 64.

End Hamming.

(** ** Disjoint sets (lines 73-92) *)

Module DSU.

Record t : Type := { p : list nat; r : list nat }.

(** [__init__]: [self.p = list(range(n)); self.r = [0] * n] *)
Definition init (n : nat) : t := {| p := seq 0 n; r := replicate n 0 |}.

(** [find]: each turn of the loop takes one unit of fuel. *)
Fixpoint find (fuel : nat) (d : t) (x : nat) : outcome (t * nat) :=
  match fuel with
  | O => OutOfFuel
  | S fuel' =>
    px ← getitem (p d) x;
    if px =? x then Done (d, x)
    else
      px' ← getitem (p d) x;
      ppx ← getitem (p d) px';
      p' ← setitem (p d) x ppx;
      let d' := {| p := p'; r := r d |} in
      x' ← getitem (p d') x;
      find fuel' d' x'
  end.

(** [union] *)
Definition union (fuel : nat) (d : t) (a b : nat) : outcome t :=
  '(d1, ra) ← find fuel d a;
  '(d2, rb) ← find fuel d1 b;
  if ra =? rb then Done d2
  else
    rka ← getitem (r d2) ra;
    rkb ← getitem (r d2) rb;
    let '(ra, rb) := if rka <? rkb then (rb, ra) else (ra, rb) in
    p' ← setitem (p d2) rb ra;
    rka' ← getitem (r d2) ra;
    rkb' ← getitem (r d2) rb;
    if rka' =? rkb'
    then
      rk ← getitem (r d2) ra;
      r' ← setitem (r d2) ra (rk + 1);
      Done {| p := p'; r := r' |}
    else Done {| p := p'; r := r d2 |}.

End DSU.

(** ** Similarity mode (lines 95-102) *)

(** [str.lower()] on the ASCII letters; the argument parser only lets
    the three lower-case mode names through. *)
Definition lower_char (c : ascii) : ascii :=
  let n := nat_of_ascii c in
  if (65 <=? n) && (n <=? 90) then ascii_of_nat (n + 32) else c.

Fixpoint lower (s : string) : string :=
  match s with
  | EmptyString => EmptyString
  | String c s' => String (lower_char c) (lower s')
  end.

Definition mode_to_threshold (mode : string) : Z :=
  let mode := lower mode in
  if String.eqb mode "conservative" || String.eqb mode "c" then 5%Z
  else if String.eqb mode "aggressive" || String.eqb mode "a" then 16%Z
  else 10%Z.

(** ** The run (lines 105-202) *)

Module Main.

Import Hamming.

(** The parsed command line; [threshold] is [None] when not given. *)
Record Args : Type := {
  root : string;
  mode : string;
  threshold : option Z;
  delete : bool;
  yes : bool
}.

(** The argument parser's defaults. *)
Definition default_args : Args :=
  {| root := "images"; mode := "medium"; threshold := None;
     delete := false; yes := false |}.

(** The file system as the run sees it: [root.exists()] and what
    [iter_image_paths(root)] yields, with the hashing backend. *)
Record World : Type := {
  root_exists : bool;
  image_paths : list Path;
  backend : AHash.Backend
}.

(** Line 121. *)
Definition effective_threshold (args : Args) : Z :=
  match threshold args with
  | Some t => t
  | None => mode_to_threshold (mode args)
  end.

(** Lines 129-137: the hash list, the failure list, and (as a record of
    the calls made) the paths [ahash] was called on. *)
Record hash_state : Type := {
  hashes : list Z;
  failures : list (Path * string);
  hashed : list Path
}.

Definition hash_step (be : AHash.Backend) (st : hash_state) (path : Path) : hash_state :=
  match AHash.ahash be path with
  | Ok h =>
    {| hashes := hashes st ++ [h]; failures := failures st;
       hashed := hashed st ++ [path] |}
  | Raise e =>
    {| hashes := hashes st ++ [(-1)%Z]; failures := failures st ++ [(path, e)];
       hashed := hashed st ++ [path] |}
  end.

Definition hash_all (be : AHash.Backend) (files : list Path) : hash_state :=
  fold_left (hash_step be) files {| hashes := []; failures := []; hashed := [] |}.

(** Lines 143-156: the disjoint sets, the counter [pairs], and (as a
    record of the calls made) the index pairs [hamming] was called on. *)
Record cmp_state : Type := {
  dsu : DSU.t;
  pairs : Z;
  compared : list (nat * nat)
}.

(** [range(a, b)] *)
Definition range (a b : nat) : list nat := seq a (b - a).

Definition compare_inner (fuel : nat) (thr : Z) (hs : list Z) (i : nat) (hi : Z)
  (st : cmp_state) (j : nat) : outcome cmp_state :=
  hj ← getitem hs j;
  if (hj <? 0)%Z then Done st
  else
    let cmps := compared st ++ [(i, j)] in
    if (hamming hi hj <=? thr)%Z
    then
      d ← DSU.union fuel (dsu st) i j;
      Done {| dsu := d; pairs := (pairs st + 1)%Z; compared := cmps |}
    else Done {| dsu := dsu st; pairs := pairs st; compared := cmps |}.

Definition compare_outer (fuel : nat) (thr : Z) (hs : list Z) (n : nat)
  (st : cmp_state) (i : nat) : outcome cmp_state :=
  hi ← getitem hs i;
  if (hi <? 0)%Z then Done st
  else foldM (compare_inner fuel thr hs i hi) st (range (i + 1) n).

Definition compare_all (fuel : nat) (thr : Z) (hs : list Z) (n : nat) : outcome cmp_state :=
  foldM (compare_outer fuel thr hs n)
        {| dsu := DSU.init n; pairs := 0%Z; compared := [] |} (range 0 n).

(** Lines 159-164. The dictionary [comps] keeps its keys in the order of
    their first insertion, which is the order of [comps.values()]. *)
Definition Comps : Type := list (nat * list nat).

(** [comps.setdefault(k, []).append(v)] *)
Fixpoint setdefault_append (comps : Comps) (k v : nat) : Comps :=
  match comps with
  | [] => [(k, [v])]
  | (k', l) :: comps' =>
    if k' =? k then (k', l ++ [v]) :: comps'
    else (k', l) :: setdefault_append comps' k v
  end.

Definition collect_step (fuel : nat) (hs : list Z) (st : DSU.t * Comps) (idx : nat)
  : outcome (DSU.t * Comps) :=
  h ← getitem hs idx;
  if (h <? 0)%Z then Done st
  else
    '(d, root_idx) ← DSU.find fuel (fst st) idx;
    Done (d, setdefault_append (snd st) root_idx idx).

Definition collect (fuel : nat) (hs : list Z) (n : nat) (d : DSU.t)
  : outcome (DSU.t * Comps) :=
  foldM (collect_step fuel hs) (d, []) (range 0 n).

(** Line 166. *)
Definition groups_of (comps : Comps) : list (list nat) :=
  map (sorted_by Nat.ltb) (filter (fun idxs => 1 <? length idxs) (map snd comps)).

(** Line 167: the sort key [(len(g), [str(files[i]) for i in g])] and
    Python's order on such tuples. *)
Definition group_key : Type := nat * list string.

Fixpoint names_lt (l1 l2 : list string) : bool :=
  match l1, l2 with
  | _, [] => false
  | [], _ :: _ => true
  | a :: l1', b :: l2' =>
    match String.compare a b with
    | Lt => true
    | Gt => false
    | Eq => names_lt l1' l2'
    end
  end.

Definition key_lt (k1 k2 : group_key) : bool :=
  (fst k1 <? fst k2) || ((fst k1 =? fst k2) && names_lt (snd k1) (snd k2)).

Definition key_of (files : list Path) (g : list nat) : outcome group_key :=
  names ← mapM (getitem files) g;
  Done (length g, names).

Definition sort_groups (files : list Path) (gs : list (list nat))
  : outcome (list (list nat)) :=
  keyed ← mapM (fun g => k ← key_of files g; Done (k, g)) gs;
  Done (map snd (sorted_by (fun a b => key_lt (fst a) (fst b)) keyed)).

(** Lines 187-192: the member to keep and the members proposed for
    deletion. *)
Record Resolved : Type := {
  members : list nat;
  keep : Path;
  dupes : list Path
}.

Definition resolve (files : list Path) (group : list nat) : outcome Resolved :=
  paths ← mapM (getitem files) group;
  let paths_sorted := sorted_by String.ltb paths in
  keep ← getitem paths_sorted 0;
  Done {| members := group; keep := keep; dupes := drop 1 paths_sorted |}.

(** What a run that gets to the end has computed. *)
Record Report : Type := {
  thr_used : Z;
  files : list Path;
  file_hashes : list Z;
  file_failures : list (Path * string);
  pairs_found : Z;
  groups : list (list nat);
  resolved : list Resolved;
  kept_total : Z;
  delete_total : Z
}.

(** The result of [main]: the exit code, what went to standard error,
    the calls made to [ahash] and to [hamming], and the report. *)
Record Run : Type := {
  exit_code : Z;
  stderr : list string;
  hash_calls : list Path;
  hamming_calls : list (nat * nat);
  report : option Report
}.

Definition rejected (msg : string) : Run :=
  {| exit_code := 2; stderr := [msg]; hash_calls := []; hamming_calls := [];
     report := None |}.

(** Lines 141-199 for the hashed files. *)
Definition cluster (fuel : nat) (thr : Z) (fs : list Path) (hst : hash_state)
  : outcome Run :=
  let n := length fs in
  st ← compare_all fuel thr (hashes hst) n;
  '(_, comps) ← collect fuel (hashes hst) n (dsu st);
  gs ← sort_groups fs (groups_of comps);
  rs ← mapM (resolve fs) gs;
  Done {| exit_code := 0; stderr := [];
          hash_calls := hashed hst; hamming_calls := compared st;
          report := Some {| thr_used := thr; files := fs;
                            file_hashes := hashes hst;
                            file_failures := failures hst;
                            pairs_found := pairs st;
                            groups := gs; resolved := rs;
                            kept_total := Z.of_nat (length rs);
                            delete_total :=
                              fold_left (fun acc g => (acc + Z.of_nat (length (dupes g)))%Z)
                                        rs 0%Z |} |}.

(** [main], up to the review manifest; the deletion of files that follows
    it changes none of the values above. The message of the first
    rejection shows the root as given on the command line. *)
Definition main (fuel : nat) (w : World) (args : Args) : outcome Run :=
  if negb (root_exists w)
  then Done (rejected ("Root not found: " ++ root args))
  else
    let thr := effective_threshold args in
    if (thr <? 0)%Z || (64 <? thr)%Z
    then Done (rejected "Threshold must be between 0 and 64")
    else
      let fs := sorted_by String.ltb (image_paths w) in
      cluster fuel thr fs (hash_all (backend w) fs).

End Main.

(** * The deletion of files and the exact-duplicate script *)

(** ** The file system as [os.remove] sees it *)

Module FS.

(** The paths that exist, and for a path that exists but cannot be
    removed the [str()] of the exception [os.remove] raises. Two
    different paths are two different files. *)
Record t : Type := {
  present : gset string;
  denied : string -> option string
}.

(** [os.remove(path)] *)
Definition remove (fsys : t) (path : Path) : result t :=
  if decide (path ∈ present fsys) then
    match denied fsys path with
    | Some e => Raise e
    | None => Ok {| present := present fsys ∖ {[path]}; denied := denied fsys |}
    end
  else Raise ("[Errno 2] No such file or directory: '" ++ path ++ "'")%string.

End FS.

(** A line of a removal manifest, without its layout. *)
Inductive entry : Type :=
| GroupLine (gi size : nat)
| DigestLine (digest : string)
| KeepLine (path : Path)
| DelLine (path : Path)
| FailLine (path : Path) (err : string).

(** ** The deletion of near duplicates (find_near_duplicates.py, lines
    205-232) *)

Module Removal.

Import Main.

Record state : Type := {
  fsys : FS.t;
  removed : Z;
  lines : list entry
}.

(** Lines 221-227: one deletion candidate. *)
Definition remove_dupe (st : state) (d : Path) : state :=
  match FS.remove (fsys st) d with
  | Ok fsys' =>
    {| fsys := fsys'; removed := (removed st + 1)%Z; lines := lines st ++ [DelLine d] |}
  | Raise e =>
    {| fsys := fsys st; removed := removed st; lines := lines st ++ [FailLine d e] |}
  end.

(** Lines 214-228: one group, with its number. *)
Definition remove_group (fs : list Path) (st : state) (numbered : nat * list nat)
  : outcome state :=
  let '(gi, group) := numbered in
  paths ← mapM (getitem fs) group;
  let paths_sorted := sorted_by String.ltb paths in
  keep ← getitem paths_sorted 0;
  let dupes := drop 1 paths_sorted in
  let st1 := {| fsys := fsys st; removed := removed st;
                lines := lines st ++ [GroupLine gi (length paths); KeepLine keep] |} in
  Done (fold_left remove_dupe dupes st1).

(** [enumerate(l, 1)] *)
Definition enumerate1 {A} (l : list A) : list (nat * A) :=
  combine (seq 1 (length l)) l.

(** [main] to its end: the run of [Main.main], then lines 205-232 on the
    file system [fsys0]. The state returned is the starting one when
    nothing is deleted. *)
Definition main_delete (fuel : nat) (w : World) (args : Args) (fsys0 : FS.t)
  : outcome (Run * state) :=
  run ← main fuel w args;
  let st0 := {| fsys := fsys0; removed := 0%Z; lines := [] |} in
  match report run with
  | None => Done (run, st0)
  | Some rep =>
    if delete args
    then
      if negb (yes args) then Done (run, st0)
      else
        st ← foldM (remove_group (files rep)) st0 (enumerate1 (groups rep));
        Done (run, st)
    else Done (run, st0)
  end.

End Removal.

(** ** Exact duplicates (remove_exact_duplicates.py) *)

Module Exact.

(** What the script gets from outside: whether [images/] exists, the
    sorted list [sorted(iter_image_paths(images_root))], the bytes read
    from a file or the exception raised on the way, and SHA-256 as the
    hex digest of the bytes fed to it. *)
Record World : Type := {
  images_exists : bool;
  image_files : list Path;
  file_bytes : Path -> result (list Byte.byte);
  hexdigest : list Byte.byte -> string
}.

(** The default [bufsize]. *)
Definition default_bufsize : nat := 1024 * 1024.

(** Lines 21-25: the bytes fed to the hash so far are [h]; each turn of
    the loop takes one unit of fuel. [f.read(bufsize)] yields the next
    [bufsize] bytes, or what is left of them. *)
Fixpoint read_chunks (fuel bufsize : nat) (rest h : list Byte.byte)
  : outcome (list Byte.byte) :=
  match fuel with
  | O => OutOfFuel
  | S fuel' =>
    match take bufsize rest with
    | [] => Done h
    | chunk => read_chunks fuel' bufsize (drop bufsize rest) (h ++ chunk)
    end
  end.

(** [sha256_file] *)
Definition sha256_file (fuel : nat) (w : World) (path : Path) (bufsize : nat)
  : outcome (result string) :=
  match file_bytes w path with
  | Raise e => Done (Raise e)
  | Ok content =>
    h ← read_chunks fuel bufsize content [];
    Done (Ok (hexdigest w h))
  end.

(** The dictionary [digest_map], its keys in the order of their first
    insertion. *)
Definition DigestMap : Type := list (string * list Path).

(** [digest_map.setdefault(k, []).append(v)] *)
Fixpoint setdefault_append (m : DigestMap) (k : string) (v : Path) : DigestMap :=
  match m with
  | [] => [(k, [v])]
  | (k', l) :: m' =>
    if String.eqb k' k then (k', l ++ [v]) :: m'
    else (k', l) :: setdefault_append m' k v
  end.

(** Lines 41-47, with the warnings printed on standard error. *)
Definition hash_step (fuel : nat) (w : World) (st : DigestMap * list string) (p : Path)
  : outcome (DigestMap * list string) :=
  r ← sha256_file fuel w p default_bufsize;
  match r with
  | Ok digest => Done (setdefault_append (fst st) digest p, snd st)
  | Raise e =>
    Done (fst st, snd st ++ [("WARN: failed to hash " ++ p ++ ": " ++ e)%string])
  end.

Record state : Type := {
  fsys : FS.t;
  removed_count : Z;
  groups_with_dupes : Z;
  lines : list entry
}.

(** Lines 70-76: one duplicate. *)
Definition remove_dup (st : state) (dup : Path) : state :=
  match FS.remove (fsys st) dup with
  | Ok fsys' =>
    {| fsys := fsys'; removed_count := (removed_count st + 1)%Z;
       groups_with_dupes := groups_with_dupes st; lines := lines st ++ [DelLine dup] |}
  | Raise e =>
    {| fsys := fsys st; removed_count := removed_count st;
       groups_with_dupes := groups_with_dupes st;
       lines := lines st ++ [FailLine dup e] |}
  end.

(** Lines 60-77: one entry of [digest_map]. *)
Definition dedupe_step (st : state) (item : string * list Path) : outcome state :=
  let '(digest, paths) := item in
  if length paths <=? 1 then Done st
  else
    let paths_sorted := sorted_by String.ltb paths in
    keep ← getitem paths_sorted 0;
    let dupes := drop 1 paths_sorted in
    let st1 := {| fsys := fsys st; removed_count := removed_count st;
                  groups_with_dupes := (groups_with_dupes st + 1)%Z;
                  lines := lines st ++ [DigestLine digest; KeepLine keep] |} in
    Done (fold_left remove_dup dupes st1).

(** [sorted(digest_map.items())]: the keys of a dictionary are distinct,
    so the comparison of two items is decided by their digests. *)
Definition sorted_items (m : DigestMap) : DigestMap :=
  sorted_by (fun a b => String.ltb (fst a) (fst b)) m.

Record Result : Type := {
  exit_code : Z;
  stderr : list string;
  digest_map : DigestMap;
  final : state
}.

(** [main] on the file system [fsys0], without the printing. *)
Definition main (fuel : nat) (w : World) (fsys0 : FS.t) : outcome Result :=
  let st0 := {| fsys := fsys0; removed_count := 0%Z; groups_with_dupes := 0%Z;
                lines := [] |} in
  if negb (images_exists w)
  then Done {| exit_code := 1; stderr := ["images/ directory not found"%string];
               digest_map := []; final := st0 |}
  else
    '(dm, errs) ← foldM (hash_step fuel w) ([], []) (image_files w);
    st ← foldM dedupe_step st0 (sorted_items dm);
    Done {| exit_code := 0; stderr := errs; digest_map := dm; final := st |}.

End Exact.

(** * Specification vocabulary *)

(** [root_of p x rt]: following the parent links of [p] from [x] ends at
    [rt], which is its own parent. *)
Inductive root_of (p : list nat) : nat -> nat -> Prop :=
| root_here x : p !! x = Some x -> root_of p x x
| root_up x y rt : p !! x = Some y -> y <> x -> root_of p y rt -> root_of p x rt.

(** Two items are in the same set when they have the same root. *)
Definition same_set (p : list nat) (x y : nat) : Prop :=
  exists rt, root_of p x rt /\ root_of p y rt.

(** [ranked h p]: every parent is an index of [p], and [h] grows strictly
    along every link to a parent other than the node itself. *)
Definition ranked (h : nat -> nat) (p : list nat) : Prop :=
  forall x y, p !! x = Some y -> y < length p /\ (y <> x -> h x < h y).

(** A parent array is a forest when some height function ranks it: no
    chain of parent links comes back to where it started. *)
Definition forest (p : list nat) : Prop := exists h, ranked h p.

(** The rank the structure stores for an index. *)
Definition rank_of (d : DSU.t) (x : nat) : nat := default 0 (DSU.r d !! x).

(** The invariant of a [DSU] over [n] items: both arrays have [n]
    entries and the stored ranks rank the parent array. *)
Definition DSU_ok (n : nat) (d : DSU.t) : Prop :=
  length (DSU.p d) = n /\ length (DSU.r d) = n /\ ranked (rank_of d) (DSU.p d).

(** The closure of a set of edges under reflexivity, symmetry and
    transitivity. *)
Inductive linked (E : nat -> nat -> Prop) : nat -> nat -> Prop :=
| linked_refl x : linked E x x
| linked_edge a b : E a b -> linked E a b
| linked_sym x y : linked E x y -> linked E y x
| linked_trans x y z : linked E x y -> linked E y z -> linked E x z.

(** Connected by the pairs passed to [union]. *)
Definition connected (us : list (nat * nat)) : nat -> nat -> Prop :=
  linked (fun a b => (a, b) ∈ us).

(** A sequence of [union] calls. *)
Definition unions (fuel : nat) (d : DSU.t) (us : list (nat * nat)) : outcome DSU.t :=
  foldM (fun d ab => DSU.union fuel d (fst ab) (snd ab)) d us.

(** [find(x) == find(y)]: the left call runs first, the right one on the
    structure the left one leaves. *)
Definition find_eq (fuel : nat) (d : DSU.t) (x y : nat) : outcome (DSU.t * bool) :=
  '(d1, rx) ← DSU.find fuel d x;
  '(d2, ry) ← DSU.find fuel d1 y;
  Done (d2, rx =? ry).

(** The number of indices below [n] that [h] puts strictly above [x]:
    what bounds the turns [find] still has to take from [x]. *)
Definition above (h : nat -> nat) (n x : nat) : nat :=
  length (filter (fun y => h x < h y) (seq 0 n)).

(** Union by rank keeps the sets large: under every root [k] there are
    at least [2 ^ rank] distinct items. *)
Definition sized (d : DSU.t) : Prop :=
  forall k, DSU.p d !! k = Some k ->
    exists l, NoDup l /\ (forall x, x ∈ l -> root_of (DSU.p d) x k) /\
              2 ^ rank_of d k <= length l.

(** A pair of indices that [union] may be called on. *)
Definition valid_pair (n : nat) (ab : nat * nat) : Prop := fst ab < n /\ snd ab < n.

(** The relation [R] with [a] and [b] put together. *)
Definition joined (R : nat -> nat -> Prop) (a b x y : nat) : Prop :=
  R x y \/ (R x a /\ R b y) \/ (R x b /\ R a y).

(** ** The average hash and the hash list *)

(** One turn of the packing loop, for any test [f] of a pixel. *)
Definition push (f : Z -> bool) (bits v : Z) : Z :=
  Z.lor (Z.shiftl bits 1) (if f v then 1%Z else 0%Z).

(** Pillow hands the program the 64 values of the 8x8 image it was asked
    for. *)
Definition pillow_8x8 (be : AHash.Backend) : Prop :=
  forall path px, AHash.pillow_getdata be path = Ok px -> length px = 64.

(** What the loop appends to the hash list for a file, and to the
    failure list when there is a failure. *)
Definition hash_entry (be : AHash.Backend) (path : Path) : Z :=
  match AHash.ahash be path with
  | Ok h => h
  | Raise _ => (-1)%Z
  end.

Definition failure_entry (be : AHash.Backend) (path : Path) : option (Path * string) :=
  match AHash.ahash be path with
  | Ok _ => None
  | Raise e => Some (path, e)
  end.

(** The number of bit positions below 64 at which [a] and [b] differ. *)
Definition differing_bits (a b : Z) : Z :=
  Z.of_nat (length (filter (fun k => Z.testbit a (Z.of_nat k) <> Z.testbit b (Z.of_nat k))
                           (seq 0 64))).

(** The number of ones of a binary natural number. *)
Definition npop (n : N) : Z :=
  match n with
  | N0 => 0%Z
  | Npos p => Hamming.popcount p
  end.

(** ** The similarity graph *)

(** An item is valid when its entry in the hash list is not negative:
    what the loops test before they use it. *)
Definition valid (hs : list Z) (i : nat) : Prop :=
  exists h, hs !! i = Some h /\ (0 <= h)%Z.

(** Two valid items are similar when their fingerprints are within the
    threshold of each other: an edge of the similarity graph. *)
Definition similar (thr : Z) (hs : list Z) (i j : nat) : Prop :=
  exists hi hj, hs !! i = Some hi /\ hs !! j = Some hj /\
    (0 <= hi)%Z /\ (0 <= hj)%Z /\ (Hamming.hamming hi hj <= thr)%Z.

(** The loop meets each edge once, from its smaller end. *)
Definition sim_edge (thr : Z) (hs : list Z) (i j : nat) : Prop :=
  i < j /\ similar thr hs i j.

(** The edges met before the turn [(i, j)] of the comparison loop. *)
Definition met (thr : Z) (hs : list Z) (i j a b : nat) : Prop :=
  sim_edge thr hs a b /\ (a < i \/ (a = i /\ b < j)).

(** The state of the comparison loop over [n] items when the sets are
    the classes of the closure of the edges [E]: the structure is well
    formed, and only valid items have been compared. *)
Definition cmp_inv (n : nat) (hs : list Z) (E : nat -> nat -> Prop)
  (st : Main.cmp_state) : Prop :=
  DSU_ok n (Main.dsu st) /\
  (forall x y, x < n -> y < n ->
     (same_set (DSU.p (Main.dsu st)) x y <-> linked E x y)) /\
  Forall (fun ab => valid hs (fst ab) /\ valid hs (snd ab)) (Main.compared st).

(** The test of line 154 on a pair of indices. *)
Definition close (thr : Z) (hs : list Z) (ab : nat * nat) : bool :=
  match hs !! fst ab, hs !! snd ab with
  | Some x, Some y => (Hamming.hamming x y <=? thr)%Z
  | _, _ => false
  end.

(** The record of the comparison loop before the turn [(i, j)]: every
    pair of valid items met so far is recorded once, and [pairs] counts
    the recorded pairs that passed the test. *)
Definition trace_inv (n : nat) (thr : Z) (hs : list Z) (i j : nat)
  (st : Main.cmp_state) : Prop :=
  NoDup (Main.compared st) /\
  (forall a b, (a, b) ∈ Main.compared st <->
     a < b /\ b < n /\ valid hs a /\ valid hs b /\ (a < i \/ (a = i /\ b < j))) /\
  Main.pairs st = Z.of_nat (length (filter (fun ab => close thr hs ab) (Main.compared st))).

(** ** The components and the groups *)

(** [comps.get(k)] *)
Fixpoint comps_get (comps : Main.Comps) (k : nat) : option (list nat) :=
  match comps with
  | [] => None
  | (k', l) :: comps' => if k' =? k then Some l else comps_get comps' k
  end.

(** What [comps] holds under the key [k] once the items below [K] are
    collected from the structure [d0]: the valid items below [K] whose
    root is [k], each once, and no entry when there is none. *)
Definition entry_inv (hs : list Z) (d0 : DSU.t) (K k : nat) (o : option (list nat))
  : Prop :=
  match o with
  | Some l =>
    l <> [] /\ NoDup l /\
    forall idx, idx ∈ l <-> idx < K /\ valid hs idx /\ root_of (DSU.p d0) idx k
  | None => forall idx, idx < K -> valid hs idx -> ~ root_of (DSU.p d0) idx k
  end.

(** The state of the collection loop before the item [K]: [find] has
    moved no item to another root, the keys are distinct, and every key
    holds what it should. *)
Definition collect_inv (n : nat) (hs : list Z) (d0 : DSU.t) (K : nat)
  (st : DSU.t * Main.Comps) : Prop :=
  DSU_ok n (fst st) /\
  (forall y rt, root_of (DSU.p (fst st)) y rt <-> root_of (DSU.p d0) y rt) /\
  NoDup (map fst (snd st)) /\
  forall k, entry_inv hs d0 K k (comps_get (snd st) k).

(** [comps] holds the classes of the similarity graph over the valid
    items of [hs]: under distinct keys, the roots of some well-formed
    structure whose sets are those classes. *)
Definition components (thr : Z) (hs : list Z) (comps : Main.Comps) : Prop :=
  NoDup (map fst comps) /\
  exists d0,
    DSU_ok (length hs) d0 /\
    (forall x y, x < length hs -> y < length hs ->
       (same_set (DSU.p d0) x y <-> linked (similar thr hs) x y)) /\
    forall k, entry_inv hs d0 (length hs) k (comps_get comps k).

(** A list of index lists is a grouping when each list has two members
    or more, all valid and none twice, and is closed under the links of
    the similarity graph, and when two distinct linked valid items are
    in a list together. *)
Definition grouping (thr : Z) (hs : list Z) (gs : list (list nat)) : Prop :=
  (forall g, g ∈ gs ->
     2 <= length g /\ NoDup g /\
     (forall i, i ∈ g -> valid hs i) /\
     (forall i j, i ∈ g -> valid hs j -> (j ∈ g <-> linked (similar thr hs) i j))) /\
  (forall i j, valid hs i -> valid hs j -> i <> j -> linked (similar thr hs) i j ->
     exists g, g ∈ gs /\ i ∈ g /\ j ∈ g).

(** What [resolve] makes of a group: the paths of its members, sorted,
    the first kept and the rest proposed for deletion. *)
Definition resolved_for (fs : list Path) (g : list nat) (R : Main.Resolved) : Prop :=
  Main.members R = g /\
  exists paths,
    Forall2 (fun i q => fs !! i = Some q) g paths /\
    Main.keep R :: Main.dupes R = sorted_by String.ltb paths.

(** ** Vocabulary for the removal of files *)

(** [os.remove] succeeds on a path that exists and is not denied. *)
Definition removable (f : FS.t) (x : Path) : Prop :=
  x ∈ FS.present f /\ FS.denied f x = None.

(** The removal of the paths of a list, one after the other: the file
    system left, the number of files removed and the lines written. *)
Fixpoint remove_all (f : FS.t) (ds : list Path) : FS.t * Z * list entry :=
  match ds with
  | [] => (f, 0%Z, [])
  | d :: ds' =>
    match FS.remove f d with
    | Ok f' =>
      let '(f'', k, ls) := remove_all f' ds' in (f'', (1 + k)%Z, DelLine d :: ls)
    | Raise e =>
      let '(f'', k, ls) := remove_all f ds' in (f'', k, FailLine d e :: ls)
    end
  end.

(** The digest of the whole content of a file, or the exception raised
    when the file is read. *)
Definition digest_of (w : Exact.World) (p : Path) : result string :=
  match Exact.file_bytes w p with
  | Ok content => Ok (Exact.hexdigest w content)
  | Raise e => Raise e
  end.

Definition has_digest (w : Exact.World) (k : string) (p : Path) : bool :=
  match digest_of w p with
  | Ok d => String.eqb d k
  | Raise _ => false
  end.

(** The warning a file that cannot be hashed leaves on standard error. *)
Definition warning (w : Exact.World) (p : Path) : option string :=
  match digest_of w p with
  | Ok _ => None
  | Raise e => Some ("WARN: failed to hash " ++ p ++ ": " ++ e)%string
  end.

(** [digest_map.get(k)] *)
Fixpoint digest_get (m : Exact.DigestMap) (k : string) : option (list Path) :=
  match m with
  | [] => None
  | (k', l) :: m' => if String.eqb k' k then Some l else digest_get m' k
  end.

(** An entry of [digest_map] with more than one path. *)
Definition has_dupes (item : string * list Path) : bool := 1 <? length (snd item).

(** The paths of a list other than the one kept: all but the first in
    the order of [str]. *)
Definition extras (paths : list Path) : list Path := drop 1 (sorted_by String.ltb paths).

(** The state of [digest_map] when the files of [seen] have been gone
    through: its keys are distinct, and under a digest are the files
    seen that have it, in their order. *)
Definition hashed_inv (w : Exact.World) (seen : list Path) (m : Exact.DigestMap) : Prop :=
  NoDup (map fst m) /\
  forall k, digest_get m k =
            match filter (has_digest w k) seen with
            | [] => None
            | l => Some l
            end.

(** The output of a command when ImageMagick gives one of 64 bytes or
    more. *)
Definition usable (be : AHash.Backend) (cmd : list string) : option (list Byte.byte) :=
  match AHash.check_output be cmd with
  | Ok out => if length out <? 64 then None else Some out
  | Raise _ => None
  end.

(** [g1] may stand before [g2] in the sorted list of groups: the key of
    [g2] is not less than that of [g1]. *)
Definition key_le (fs : list Path) (g1 g2 : list nat) : Prop :=
  exists k1 k2, Main.key_of fs g1 = Done k1 /\ Main.key_of fs g2 = Done k2 /\
                Main.key_lt k2 k1 = false.

(** ** Sample inputs *)

(** One white pixel first, then 63 black ones. *)
Definition one_white : list Z := 255%Z :: replicate 63 0%Z.

(** A backend with Pillow, where every file decodes to [one_white]
    except [bad.jpg], which does not decode. *)
Definition demo_backend : AHash.Backend :=
  {| AHash.have_pillow := true;
     AHash.pillow_getdata := fun path =>
       if String.eqb path "bad.jpg" then Raise "cannot identify image file"%string
       else Ok one_white;
     AHash.check_output := fun _ => Raise "not found"%string |}.

(** A world with three files, one of which does not decode. *)
Definition demo_world : Main.World :=
  {| Main.root_exists := true;
     Main.image_paths := ["b.jpg"; "bad.jpg"; "a.jpg"]%string;
     Main.backend := demo_backend |}.

(** Three files, the first two with the same fingerprint. *)
Definition demo_files : list Path := ["a.jpg"; "b.jpg"; "c.jpg"]%string.

Definition demo_hashes : Main.hash_state :=
  {| Main.hashes := [0; 0; 2 ^ 64 - 1]%Z; Main.failures := [];
     Main.hashed := demo_files |}.

(** The resolved groups of a run of lines 141-199 on given files and
    hash entries, with fuel for every index. *)
Definition groups_at (thr : Z) (fs : list Path) (hs : list Z)
  : option (list Main.Resolved) :=
  match Main.cluster (length fs) thr fs
          {| Main.hashes := hs; Main.failures := []; Main.hashed := fs |} with
  | Done run => option_map Main.resolved (Main.report run)
  | _ => None
  end.

(** The three sample files, all removable. *)
Definition demo_fs : FS.t :=
  {| FS.present := {[ "a.jpg"; "b.jpg"; "bad.jpg" ]}%string;
     FS.denied := fun _ => None |}.

(** The default arguments with [--delete --yes]. *)
Definition delete_args : Main.Args :=
  {| Main.root := "images"; Main.mode := "medium"; Main.threshold := None;
     Main.delete := true; Main.yes := true |}.

(** Three files, two with the same content and one that cannot be read. *)
Definition demo_exact : Exact.World :=
  {| Exact.images_exists := true;
     Exact.image_files := ["a.jpg"; "b.jpg"; "bad.jpg"]%string;
     Exact.file_bytes := fun path =>
       if String.eqb path "bad.jpg" then Raise "[Errno 13] Permission denied"%string
       else Ok [Byte.x00];
     Exact.hexdigest := fun content =>
       match content with [] => "e3b0"%string | _ => "6e34"%string end |}.

(** A backend without Pillow, where [magick] is not installed and
    [convert] writes 64 black pixels and a newline. *)
Definition convert_backend : AHash.Backend :=
  {| AHash.have_pillow := false;
     AHash.pillow_getdata := fun _ => Raise "No module named 'PIL'"%string;
     AHash.check_output := fun cmd =>
       match cmd with
       | "convert"%string :: _ => Ok (replicate 64 Byte.x00 ++ [Byte.x0a])
       | _ => Raise "[Errno 2] No such file or directory: 'magick'"%string
       end |}.

(** * Facts about the outcome monad *)

Lemma foldM_app {A St} (body : St -> A -> outcome St) (s : St) (l1 l2 : list A) :
  foldM body s (l1 ++ l2) = s' ← foldM body s l1; foldM body s' l2.
Proof.
  revert s. induction l1 as [ | a l1 IH]; intros s; simpl; [reflexivity | ].
  destruct (body s a) as [s1 | | ]; simpl; auto.
Qed.

(** A loop over [range(a, a + k)] keeps an invariant indexed by the loop
    variable, and runs to its end when each turn does. *)
Lemma foldM_seq_inv {St} (body : St -> nat -> outcome St) (I : nat -> St -> Prop) :
  forall k a s,
    I a s ->
    (forall i s0, a <= i < a + k -> I i s0 -> exists s1, body s0 i = Done s1 /\ I (S i) s1) ->
    exists s', foldM body s (seq a k) = Done s' /\ I (a + k) s'.
Proof.
  induction k as [ | k IH]; intros a s Ha Hstep; simpl.
  - exists s. rewrite Nat.add_0_r. auto.
  - destruct (Hstep a s) as (s1 & -> & H1); [lia | assumption | ]. simpl.
    destruct (IH (S a) s1 H1) as (s' & Hs' & HI).
    + intros i s0 Hi. apply Hstep. lia.
    + exists s'. split; [assumption | ]. now replace (a + S k) with (S a + k) by lia.
Qed.

Lemma getitem_Done {A} (l : list A) i a : l !! i = Some a -> getitem l i = Done a.
Proof. unfold getitem. now intros ->. Qed.

Lemma setitem_Done {A} (l : list A) i v : i < length l -> setitem l i v = Done (<[i:=v]> l).
Proof.
  intros H. unfold setitem. destruct (Nat.ltb_spec i (length l)); [reflexivity | lia].
Qed.

(** * The disjoint-set structure *)

Section Forest.
Implicit Types (p : list nat) (h : nat -> nat).

Lemma root_of_unique p x r1 r2 : root_of p x r1 -> root_of p x r2 -> r1 = r2.
Proof.
  induction 1 as [x Hx | x y rt Hx Hne _ IH]; inversion 1; subst; try congruence.
  apply IH. congruence.
Qed.

Lemma root_of_is_root p x rt : root_of p x rt -> p !! rt = Some rt.
Proof. induction 1; auto. Qed.

Lemma root_of_lt p x rt : root_of p x rt -> x < length p /\ rt < length p.
Proof.
  intros H. split.
  - destruct H; eapply lookup_lt_Some; eauto.
  - eapply lookup_lt_Some, root_of_is_root; eauto.
Qed.

Lemma root_of_root p rt : p !! rt = Some rt -> forall rt', root_of p rt rt' -> rt' = rt.
Proof. intros H rt' H'. eapply root_of_unique; [eassumption | now constructor]. Qed.

Lemma same_set_refl p x rt : root_of p x rt -> same_set p x x.
Proof. intros H. exists rt. auto. Qed.

Lemma same_set_sym p x y : same_set p x y -> same_set p y x.
Proof. intros (rt & ? & ?). exists rt. auto. Qed.

Lemma same_set_trans p x y z : same_set p x y -> same_set p y z -> same_set p x z.
Proof.
  intros (r1 & Hx & Hy) (r2 & Hy' & Hz).
  assert (r1 = r2) by (eapply root_of_unique; eauto). subst. exists r2. auto.
Qed.

(** Path halving: pointing [x] at its grandparent keeps the ranking. *)
Lemma halve_ranked h p x px ppx :
  ranked h p -> p !! x = Some px -> px <> x -> p !! px = Some ppx ->
  ranked h (<[x:=ppx]> p) /\ ppx <> x /\ h x < h ppx.
Proof.
  intros Hr Hx Hne Hpx.
  destruct (Hr x px Hx) as [Hlt Hh]. specialize (Hh Hne).
  destruct (Hr px ppx Hpx) as [Hlt' Hh'].
  assert (Hxp : h x < h ppx).
  { destruct (decide (ppx = px)) as [-> | Hd]; [assumption | specialize (Hh' Hd); lia]. }
  split; [ | split; [intros ->; lia | assumption]].
  intros a b Hab. rewrite length_insert.
  destruct (decide (a = x)) as [-> | Hax].
  - rewrite list_lookup_insert_eq in Hab by (eapply lookup_lt_Some; eauto).
    injection Hab as <-. auto.
  - rewrite list_lookup_insert_ne in Hab by congruence. auto.
Qed.

(** Path halving moves no item to another root. *)
Lemma halve_root_of h p x px ppx :
  ranked h p -> p !! x = Some px -> px <> x -> p !! px = Some ppx ->
  forall y rt, root_of (<[x:=ppx]> p) y rt <-> root_of p y rt.
Proof.
  intros Hr Hx Hne Hpx.
  destruct (halve_ranked h p x px ppx Hr Hx Hne Hpx) as (_ & Hppx & _).
  assert (Hxlt : x < length p) by (eapply lookup_lt_Some; eauto).
  assert (Hx' : <[x:=ppx]> p !! x = Some ppx) by now apply list_lookup_insert_eq.
  assert (Hpx' : <[x:=ppx]> p !! px = Some ppx)
    by (rewrite list_lookup_insert_ne by congruence; assumption).
  intros y rt. split.
  - induction 1 as [y Hy | y z rt Hy Hzy _ IH].
    + destruct (decide (y = x)) as [-> | Hyx]; [congruence | ].
      rewrite list_lookup_insert_ne in Hy by congruence. now constructor.
    + destruct (decide (y = x)) as [-> | Hyx].
      * assert (z = ppx) by congruence. subst z.
        apply root_up with px; auto.
        destruct (decide (ppx = px)) as [-> | Hd]; [assumption | ].
        apply root_up with ppx; auto.
      * rewrite list_lookup_insert_ne in Hy by congruence.
        apply root_up with z; auto.
  - induction 1 as [y Hy | y z rt Hy Hzy Hz IH].
    + assert (y <> x) by congruence.
      constructor. rewrite list_lookup_insert_ne by congruence. assumption.
    + destruct (decide (y = x)) as [-> | Hyx].
      * assert (z = px) by congruence. subst z.
        apply root_up with ppx; auto.
        inversion IH as [? Hself | ? w ? Hw Hwne Hroot]; subst.
        -- assert (ppx = rt) by congruence. subst ppx. exact IH.
        -- assert (ppx = w) by congruence. subst ppx. exact Hroot.
      * apply root_up with z; auto.
        rewrite list_lookup_insert_ne by congruence. assumption.
Qed.

End Forest.

Section Above.
Context {A : Type} (P Q : A -> Prop) `{!forall x, Decision (P x)} `{!forall x, Decision (Q x)}.

Lemma filter_length_mono (l : list A) :
  (forall z, P z -> Q z) -> length (filter P l) <= length (filter Q l).
Proof.
  intros HPQ. induction l as [ | a l IH]; [reflexivity | ].
  rewrite !filter_cons.
  destruct (decide (P a)) as [HP | HP], (decide (Q a)) as [HQ | HQ]; simpl; try lia.
  elim HQ. auto.
Qed.

Lemma filter_length_strict (l : list A) (y : A) :
  (forall z, P z -> Q z) -> y ∈ l -> Q y -> ~ P y ->
  length (filter P l) < length (filter Q l).
Proof.
  intros HPQ Hin HQy HPy. induction l as [ | a l IH]; [inversion Hin | ].
  rewrite !filter_cons.
  pose proof (filter_length_mono l HPQ).
  apply elem_of_cons in Hin as [<- | Hin].
  - destruct (decide (P y)), (decide (Q y)); simpl; try tauto; lia.
  - specialize (IH Hin).
    destruct (decide (P a)) as [HP | HP], (decide (Q a)) as [HQ | HQ]; simpl; try lia.
    elim HQ. auto.
Qed.

End Above.

Lemma above_lt h n x : x < n -> above h n x < n.
Proof.
  intros Hx. unfold above.
  assert (Hall : length (filter (fun _ : nat => True) (seq 0 n)) = n).
  { transitivity (length (seq 0 n)); [ | apply length_seq]. f_equal.
    induction (seq 0 n) as [ | a l IH]; [reflexivity | ].
    rewrite filter_cons. simpl. now rewrite IH. }
  pose proof (filter_length_strict (fun y => h x < h y) (fun _ => True) (seq 0 n) x) as Hs.
  rewrite Hall in Hs. apply Hs; auto; [ | lia].
  apply elem_of_seq. lia.
Qed.

Lemma above_decr h n x y : y < n -> h x < h y -> above h n y < above h n x.
Proof.
  intros Hy Hxy. unfold above.
  apply filter_length_strict with (y := y); try lia.
  apply elem_of_seq. lia.
Qed.

(** ** [find] *)

Section Find.
Variable h : nat -> nat.

(** From a ranked parent array, with more fuel than there are indices
    above [x], [find] returns the root of [x]; it changes no rank and no
    length, keeps the ranking, and moves no item to another root. *)
Lemma find_spec fuel : forall d x,
  ranked h (DSU.p d) -> x < length (DSU.p d) ->
  above h (length (DSU.p d)) x < fuel ->
  exists d' rt,
    DSU.find fuel d x = Done (d', rt) /\
    root_of (DSU.p d) x rt /\
    DSU.r d' = DSU.r d /\
    length (DSU.p d') = length (DSU.p d) /\
    ranked h (DSU.p d') /\
    (forall y rt', root_of (DSU.p d') y rt' <-> root_of (DSU.p d) y rt').
Proof.
  induction fuel as [ | fuel IH]; intros d x Hr Hx Hfuel; [lia | ].
  destruct (lookup_lt_is_Some_2 _ _ Hx) as [px Hpx].
  simpl. rewrite (getitem_Done _ _ _ Hpx). simpl.
  destruct (Nat.eqb_spec px x) as [-> | Hne].
  - exists d, x. split_and!; auto. now constructor.
  - destruct (Hr x px Hpx) as [Hpxlt _].
    destruct (lookup_lt_is_Some_2 _ _ Hpxlt) as [ppx Hppx].
    rewrite (getitem_Done _ _ _ Hppx). simpl.
    rewrite (setitem_Done _ _ _ Hx). simpl.
    rewrite (getitem_Done _ _ ppx) by now apply list_lookup_insert_eq.
    simpl.
    destruct (halve_ranked h _ x px ppx Hr Hpx Hne Hppx) as (Hr' & Hppxne & Hh).
    pose proof (halve_root_of h _ x px ppx Hr Hpx Hne Hppx) as Hroots.
    destruct (Hr px ppx Hppx) as [Hppxlt _].
    set (d1 := {| DSU.p := <[x:=ppx]> (DSU.p d); DSU.r := DSU.r d |}) in *.
    destruct (IH d1 ppx) as (d' & rt & Hfind & Hroot & Hrk & Hlen & Hr'' & Heq).
    + exact Hr'.
    + simpl. now rewrite length_insert.
    + simpl. rewrite length_insert.
      pose proof (above_decr h (length (DSU.p d)) x ppx Hppxlt Hh). lia.
    + exists d', rt. simpl in *. rewrite length_insert in Hlen.
      split_and!; auto.
      * apply Hroots in Hroot. apply root_up with px; auto.
        destruct (decide (ppx = px)) as [<- | Hd]; [assumption | ].
        apply root_up with ppx; auto.
      * intros y rt'. rewrite Heq. apply Hroots.
Qed.

End Find.

Lemma rank_of_ext d d' : DSU.r d' = DSU.r d -> rank_of d' = rank_of d.
Proof. unfold rank_of. now intros ->. Qed.

(** [find] on a well-formed structure with fuel for every index. *)
Lemma find_ok n fuel d x :
  DSU_ok n d -> x < n -> n <= fuel ->
  exists d' rt,
    DSU.find fuel d x = Done (d', rt) /\
    root_of (DSU.p d) x rt /\
    DSU_ok n d' /\
    (forall y rt', root_of (DSU.p d') y rt' <-> root_of (DSU.p d) y rt').
Proof.
  intros (Hp & Hr & Hrk) Hx Hfuel.
  destruct (find_spec (rank_of d) fuel d x) as (d' & rt & Hf & Hroot & Hr' & Hlen & Hrk' & Heq).
  - assumption.
  - lia.
  - rewrite Hp. pose proof (above_lt (rank_of d) n x Hx). lia.
  - exists d', rt. split_and!; auto.
    unfold DSU_ok. rewrite (rank_of_ext d d' Hr'), Hr', Hlen. auto.
Qed.

(** ** [union] *)

Section Link.
Variables (p : list nat) (ra rb : nat).
Hypothesis Hra : p !! ra = Some ra.
Hypothesis Hrb : p !! rb = Some rb.
Hypothesis Hne : ra <> rb.

Local Abbreviation p' := (<[rb:=ra]> p).

Lemma link_lookup_rb : p' !! rb = Some ra.
Proof. apply list_lookup_insert_eq. eapply lookup_lt_Some; eauto. Qed.

Lemma link_lookup_ne y : y <> rb -> p' !! y = p !! y.
Proof. intros. apply list_lookup_insert_ne. congruence. Qed.

Lemma link_kept y rt : root_of p y rt -> rt <> rb -> root_of p' y rt.
Proof.
  induction 1 as [y Hy | y z rt Hy Hzy _ IH]; intros Hrt.
  - constructor. now rewrite link_lookup_ne.
  - apply root_up with z; auto. rewrite link_lookup_ne; [assumption | congruence].
Qed.

Lemma link_moved y rt : root_of p y rt -> rt = rb -> root_of p' y ra.
Proof.
  induction 1 as [y Hy | y z rt Hy Hzy _ IH]; intros ->.
  - apply root_up with ra; [apply link_lookup_rb | assumption | ].
    constructor. now rewrite link_lookup_ne.
  - apply root_up with z; auto. rewrite link_lookup_ne; [assumption | congruence].
Qed.

Lemma link_inv y rt :
  root_of p' y rt -> (root_of p y rt /\ rt <> rb) \/ (root_of p y rb /\ rt = ra).
Proof.
  induction 1 as [y Hy | y z rt Hy Hzy _ IH].
  - destruct (decide (y = rb)) as [-> | Hy'].
    + rewrite link_lookup_rb in Hy. congruence.
    + rewrite link_lookup_ne in Hy by assumption. left. split; [now constructor | assumption].
  - destruct (decide (y = rb)) as [-> | Hy'].
    + rewrite link_lookup_rb in Hy. assert (z = ra) by congruence. subst z.
      destruct IH as [[Hroot _] | [Hroot _]].
      * apply (root_of_root p ra Hra) in Hroot. subst rt.
        right. split; [now constructor | reflexivity].
      * apply (root_of_root p ra Hra) in Hroot. congruence.
    + rewrite link_lookup_ne in Hy by assumption.
      destruct IH as [[Hroot Hrt] | [Hroot Hrt]]; [left | right]; split; auto;
        apply root_up with z; auto.
Qed.

(** Linking the root [rb] under the root [ra] merges their two sets and
    nothing else. *)
Lemma link_same_set x y :
  same_set p' x y <->
  same_set p x y \/ (root_of p x ra /\ root_of p y rb) \/ (root_of p x rb /\ root_of p y ra).
Proof.
  split.
  - intros (rt & Hx & Hy).
    apply link_inv in Hx as [[Hx Hxr] | [Hx Hxr]], Hy as [[Hy Hyr] | [Hy Hyr]]; subst.
    + left. exists rt. auto.
    + right. left. auto.
    + right. right. auto.
    + left. exists rb. auto.
  - intros [(rt & Hx & Hy) | [[Hx Hy] | [Hx Hy]]].
    + destruct (decide (rt = rb)) as [-> | Hrt].
      * exists ra. split; eapply link_moved; eauto.
      * exists rt. split; eapply link_kept; eauto.
    + exists ra. split; [eapply link_kept; eauto | eapply link_moved; eauto].
    + exists ra. split; [eapply link_moved; eauto | eapply link_kept; eauto].
Qed.

End Link.

(** Union by rank keeps the stored ranks a ranking: [rb] goes under [ra]
    when [ra]'s rank is not the smaller one, and [ra]'s rank goes up by
    one when the two were equal. *)
Lemma link_ranked n d ra rb rka rkb :
  DSU_ok n d ->
  DSU.p d !! ra = Some ra -> DSU.p d !! rb = Some rb -> ra <> rb ->
  DSU.r d !! ra = Some rka -> DSU.r d !! rb = Some rkb -> rkb <= rka ->
  DSU_ok n {| DSU.p := <[rb:=ra]> (DSU.p d);
              DSU.r := if rka =? rkb then <[ra:=rka + 1]> (DSU.r d) else DSU.r d |}.
Proof.
  intros (Hp & Hr & Hrk) Hra Hrb Hne Hka Hkb Hle.
  assert (Hralt : ra < n) by (rewrite <- Hp; eapply lookup_lt_Some; eauto).
  assert (Hrblt : rb < n) by (rewrite <- Hp; eapply lookup_lt_Some; eauto).
  unfold DSU_ok. simpl. rewrite length_insert.
  split; [assumption | ]. split.
  { destruct (rka =? rkb); [rewrite length_insert | ]; assumption. }
  set (d' := {| DSU.p := _; DSU.r := _ |}).
  assert (Hsame : forall x, x <> ra -> rank_of d' x = rank_of d x).
  { intros x Hx. unfold rank_of, d'. simpl.
    destruct (rka =? rkb); [ | reflexivity].
    now rewrite list_lookup_insert_ne by congruence. }
  assert (Hup : rank_of d ra <= rank_of d' ra /\
                (rka = rkb -> rank_of d' ra = rka + 1)).
  { unfold rank_of, d'. simpl. rewrite Hka. simpl.
    destruct (Nat.eqb_spec rka rkb) as [Heq | Hneq].
    - rewrite list_lookup_insert_eq by lia. simpl. lia.
    - rewrite Hka. simpl. lia. }
  assert (Hge : forall x, rank_of d x <= rank_of d' x).
  { intros x. destruct (decide (x = ra)) as [-> | Hx]; [tauto | rewrite Hsame by assumption; lia]. }
  intros x y Hxy. rewrite length_insert.
  destruct (decide (x = rb)) as [-> | Hxrb].
  - rewrite list_lookup_insert_eq in Hxy by lia. injection Hxy as <-.
    split; [lia | intros _].
    rewrite (Hsame rb) by congruence.
    assert (Hrkb : rank_of d rb = rkb) by (unfold rank_of; now rewrite Hkb).
    assert (Hrka : rank_of d ra = rka) by (unfold rank_of; now rewrite Hka).
    destruct (decide (rka = rkb)) as [Heq | Hneq]; [destruct Hup as [_ Hup]; rewrite Hup; lia | ].
    destruct Hup as [Hup _]. lia.
  - rewrite list_lookup_insert_ne in Hxy by congruence.
    destruct (Hrk x y Hxy) as [Hlt Hh]. split; [assumption | intros Hyx].
    specialize (Hh Hyx).
    assert (x <> ra) by congruence.
    rewrite (Hsame x) by assumption. specialize (Hge y). lia.
Qed.

Lemma same_set_ext p p' :
  (forall y rt, root_of p' y rt <-> root_of p y rt) ->
  forall x y, same_set p' x y <-> same_set p x y.
Proof.
  intros Heq x y. unfold same_set.
  split; intros (rt & Hx & Hy); exists rt; split; apply Heq; assumption.
Qed.

Lemma same_set_root p x a ra : root_of p a ra -> (root_of p x ra <-> same_set p x a).
Proof.
  intros Ha. split.
  - intros Hx. exists ra. auto.
  - intros (rt & Hx & Ha'). now rewrite (root_of_unique p a ra rt Ha Ha').
Qed.

Lemma link_joined p a b ra rb :
  root_of p a ra -> root_of p b rb -> ra <> rb ->
  forall x y,
    (same_set (<[rb:=ra]> p) x y <-> joined (same_set p) a b x y) /\
    (same_set (<[ra:=rb]> p) x y <-> joined (same_set p) a b x y).
Proof.
  intros Ha Hb Hne x y.
  pose proof (root_of_is_root p a ra Ha) as Hra.
  pose proof (root_of_is_root p b rb Hb) as Hrb.
  assert (Hxa := same_set_root p x a ra Ha).
  assert (Hya := same_set_root p y a ra Ha).
  assert (Hxb := same_set_root p x b rb Hb).
  assert (Hyb := same_set_root p y b rb Hb).
  assert (Hs : forall u v, same_set p u v <-> same_set p v u)
    by (split; apply same_set_sym).
  unfold joined. split.
  - rewrite (link_same_set p ra rb Hra Hrb Hne).
    rewrite Hxa, Hxb, Hya, Hyb, (Hs b y), (Hs a y). tauto.
  - rewrite (link_same_set p rb ra Hrb Hra (not_eq_sym Hne)).
    rewrite Hxa, Hxb, Hya, Hyb, (Hs b y), (Hs a y). tauto.
Qed.

(** [union(a, b)] on a well-formed structure: it returns, keeps the
    structure well formed, and puts the sets of [a] and [b] together. *)
Lemma union_spec n fuel d a b :
  DSU_ok n d -> a < n -> b < n -> n <= fuel ->
  exists d',
    DSU.union fuel d a b = Done d' /\
    DSU_ok n d' /\
    (forall x y, same_set (DSU.p d') x y <-> joined (same_set (DSU.p d)) a b x y).
Proof.
  intros Hok Ha Hb Hfuel.
  destruct (find_ok n fuel d a Hok Ha Hfuel) as (d1 & ra & Hf1 & Hra & Hok1 & Heq1).
  destruct (find_ok n fuel d1 b Hok1 Hb Hfuel) as (d2 & rb & Hf2 & Hrb & Hok2 & Heq2).
  assert (Heq : forall y rt, root_of (DSU.p d2) y rt <-> root_of (DSU.p d) y rt)
    by (intros; rewrite Heq2; apply Heq1).
  pose proof (same_set_ext _ _ Heq) as Hss.
  apply Heq1 in Hrb.
  assert (Hra2 : root_of (DSU.p d2) a ra) by now apply Heq.
  assert (Hrb2 : root_of (DSU.p d2) b rb) by now apply Heq.
  unfold DSU.union. rewrite Hf1. simpl. rewrite Hf2. simpl.
  destruct (Nat.eqb_spec ra rb) as [<- | Hne].
  - exists d2. split_and!; auto.
    intros x y. rewrite Hss. unfold joined. split; [tauto | ].
    assert (Hab : same_set (DSU.p d) a b) by (exists ra; auto).
    intros [H | [[H1 H2] | [H1 H2]]]; [assumption | | ].
    + eapply same_set_trans; [eassumption | ]. eapply same_set_trans; eassumption.
    + eapply same_set_trans; [eassumption | ].
      eapply same_set_trans; [apply same_set_sym; exact Hab | exact H2].
  - destruct Hok2 as (Hp2 & Hr2 & Hrk2).
    destruct (root_of_lt _ _ _ Hra2) as [_ Hralt].
    destruct (root_of_lt _ _ _ Hrb2) as [_ Hrblt].
    destruct (lookup_lt_is_Some_2 (DSU.r d2) ra) as [rka Hka]; [lia | ].
    destruct (lookup_lt_is_Some_2 (DSU.r d2) rb) as [rkb Hkb]; [lia | ].
    rewrite (getitem_Done _ _ _ Hka). simpl.
    rewrite (getitem_Done _ _ _ Hkb). simpl.
    pose proof (root_of_is_root _ _ _ Hra2) as Hpra.
    pose proof (root_of_is_root _ _ _ Hrb2) as Hprb.
    assert (Hj : forall x y,
      joined (same_set (DSU.p d2)) a b x y <-> joined (same_set (DSU.p d)) a b x y)
      by (intros; unfold joined; rewrite !Hss; tauto).
    destruct (Nat.ltb_spec rka rkb) as [Hlt | Hge].
    + rewrite (setitem_Done _ _ _ Hralt). simpl.
      rewrite (getitem_Done _ _ _ Hkb). simpl.
      rewrite (getitem_Done _ _ _ Hka). simpl.
      pose proof (link_ranked n d2 rb ra rkb rka (conj Hp2 (conj Hr2 Hrk2))
                    Hprb Hpra (not_eq_sym Hne) Hkb Hka) as Hlink.
      specialize (Hlink ltac:(lia)). revert Hlink.
      destruct (Nat.eqb_spec rkb rka) as [? | _]; [lia | intros Hlink].
      eexists. split_and!; [reflexivity | exact Hlink | ].
      intros x y. simpl. rewrite <- Hj.
      apply (link_joined (DSU.p d2) a b ra rb Hra2 Hrb2 Hne x y).
    + rewrite (setitem_Done _ _ _ Hrblt). simpl.
      rewrite (getitem_Done _ _ _ Hka). simpl.
      rewrite (getitem_Done _ _ _ Hkb). simpl.
      pose proof (link_ranked n d2 ra rb rka rkb (conj Hp2 (conj Hr2 Hrk2))
                    Hpra Hprb Hne Hka Hkb Hge) as Hlink.
      revert Hlink.
      destruct (Nat.eqb_spec rka rkb) as [Heqk | Hnek]; intros Hlink.
      * rewrite setitem_Done by lia. simpl.
        eexists. split_and!; [reflexivity | exact Hlink | ].
        intros x y. simpl. rewrite <- Hj.
        apply (link_joined (DSU.p d2) a b ra rb Hra2 Hrb2 Hne x y).
      * eexists. split_and!; [reflexivity | exact Hlink | ].
        intros x y. simpl. rewrite <- Hj.
        apply (link_joined (DSU.p d2) a b ra rb Hra2 Hrb2 Hne x y).
Qed.

(** ** [__init__] *)

Lemma init_ok n : DSU_ok n (DSU.init n).
Proof.
  unfold DSU_ok, DSU.init. simpl. rewrite length_seq, length_replicate.
  split_and!; auto.
  intros x y Hxy. rewrite length_seq.
  apply lookup_seq in Hxy as [-> Hx]. simpl. split; [assumption | congruence].
Qed.

Lemma init_root_of n x rt : root_of (seq 0 n) x rt <-> rt = x /\ x < n.
Proof.
  split.
  - intros H. assert (Hx : seq 0 n !! x = Some x).
    { destruct (root_of_lt _ _ _ H) as [Hx _]. rewrite length_seq in Hx.
      now apply lookup_seq. }
    split; [ | eapply lookup_seq; eauto].
    eapply root_of_root; eauto.
  - intros [-> Hx]. constructor. now apply lookup_seq.
Qed.

Lemma init_same_set n x y : same_set (DSU.p (DSU.init n)) x y <-> x = y /\ x < n.
Proof.
  unfold same_set. simpl. split.
  - intros (rt & Hx & Hy). apply init_root_of in Hx, Hy. intuition congruence.
  - intros [-> Hy]. exists y. split; apply init_root_of; auto.
Qed.

(** ** The closure of a set of edges *)

Section Linked.
Implicit Types E : nat -> nat -> Prop.

Lemma linked_mono E E' :
  (forall a b, E a b -> E' a b) -> forall x y, linked E x y -> linked E' x y.
Proof.
  intros HE x y. induction 1;
    eauto using linked_refl, linked_edge, linked_sym, linked_trans.
Qed.

Lemma linked_ext E E' :
  (forall a b, E a b <-> E' a b) -> forall x y, linked E x y <-> linked E' x y.
Proof. intros HE x y. split; apply linked_mono; intros a b; apply HE. Qed.

Lemma linked_empty x y : linked (fun _ _ => False) x y <-> x = y.
Proof.
  split; [ | intros ->; constructor].
  induction 1; try congruence; tauto.
Qed.

(** One more edge puts its two ends together, and nothing else. *)
Lemma linked_joined E a b x y :
  linked (fun a' b' => E a' b' \/ (a' = a /\ b' = b)) x y <-> joined (linked E) a b x y.
Proof.
  unfold joined. split.
  - induction 1 as [x | u v [He | [-> ->]] | x y _ IH | x y z _ IH1 _ IH2].
    + left. constructor.
    + left. now apply linked_edge.
    + right. left. split; constructor.
    + destruct IH as [H | [[H1 H2] | [H1 H2]]];
        eauto 6 using linked_sym.
    + destruct IH1 as [H | [[H1 H2] | [H1 H2]]], IH2 as [K | [[K1 K2] | [K1 K2]]];
        eauto 8 using linked_sym, linked_trans.
  - assert (Hm : forall u v, linked E u v ->
                   linked (fun a' b' => E a' b' \/ (a' = a /\ b' = b)) u v)
      by (apply linked_mono; auto).
    assert (Hab : linked (fun a' b' => E a' b' \/ (a' = a /\ b' = b)) a b)
      by (apply linked_edge; auto).
    intros [H | [[H1 H2] | [H1 H2]]].
    + auto.
    + eapply linked_trans; [apply Hm, H1 | ].
      eapply linked_trans; [apply Hab | apply Hm, H2].
    + eapply linked_trans; [apply Hm, H1 | ].
      eapply linked_trans; [apply linked_sym, Hab | apply Hm, H2].
Qed.

End Linked.

(** ** A sequence of [union] calls *)

(** If the sets are the classes of the closure of [E], then after the
    calls [us] they are the classes of the closure of [E] and [us]. *)
Lemma unions_spec n fuel : n <= fuel -> forall us d E,
  DSU_ok n d -> Forall (valid_pair n) us ->
  (forall x y, x < n -> y < n -> (same_set (DSU.p d) x y <-> linked E x y)) ->
  exists d',
    unions fuel d us = Done d' /\
    DSU_ok n d' /\
    (forall x y, x < n -> y < n ->
       (same_set (DSU.p d') x y <-> linked (fun a b => E a b \/ (a, b) ∈ us) x y)).
Proof.
  intros Hfuel. induction us as [ | [a b] us IH]; intros d E Hok Hus Hinv.
  - exists d. split_and!; auto. intros x y Hx Hy. rewrite (Hinv x y Hx Hy).
    apply linked_ext. intros u v. rewrite elem_of_nil. tauto.
  - apply Forall_cons in Hus as [[Ha Hb] Hus]. simpl in Ha, Hb.
    destruct (union_spec n fuel d a b Hok Ha Hb Hfuel) as (d1 & Hu & Hok1 & Hj).
    destruct (IH d1 (fun a' b' => E a' b' \/ (a' = a /\ b' = b)) Hok1 Hus)
      as (d' & Hus' & Hok' & Hinv').
    + intros x y Hx Hy. rewrite Hj, linked_joined. unfold joined.
      rewrite !Hinv by assumption. tauto.
    + exists d'. unfold unions in *. simpl. rewrite Hu. simpl.
      split_and!; auto.
      intros x y Hx Hy. rewrite (Hinv' x y Hx Hy).
      apply linked_ext. intros u v. rewrite elem_of_cons.
      split; [intros [[? | [-> ->]] | ?] | intros [? | [Heq | ?]]]; auto.
      injection Heq as -> ->. auto.
Qed.

(** On a well-formed structure [find(x) == find(y)] returns, and is true
    exactly when [x] and [y] are in the same set. *)
Lemma find_eq_spec n fuel d x y :
  DSU_ok n d -> x < n -> y < n -> n <= fuel ->
  exists d' b,
    find_eq fuel d x y = Done (d', b) /\
    DSU_ok n d' /\
    (b = true <-> same_set (DSU.p d) x y).
Proof.
  intros Hok Hx Hy Hfuel.
  destruct (find_ok n fuel d x Hok Hx Hfuel) as (d1 & rx & Hf1 & Hrx & Hok1 & Heq1).
  destruct (find_ok n fuel d1 y Hok1 Hy Hfuel) as (d2 & ry & Hf2 & Hry & Hok2 & Heq2).
  apply Heq1 in Hry.
  exists d2, (rx =? ry). unfold find_eq. rewrite Hf1. simpl. rewrite Hf2. simpl.
  split_and!; auto.
  rewrite Nat.eqb_eq. split.
  - intros ->. exists ry. auto.
  - intros (rt & Hx' & Hy').
    rewrite (root_of_unique _ _ _ _ Hrx Hx'). eapply root_of_unique; eauto.
Qed.

(** C1. For the disjoint sets over [n] items, after any sequence of
    [union(a, b)] calls with indices below [n], and for [x] and [y] below
    [n]: the calls return, [find(x) == find(y)] returns, and it is true
    if and only if [x] and [y] are connected by the reflexive, symmetric
    and transitive closure of the pairs passed to [union]; and
    [find(x) == find(x)] is true. *)
Theorem find_eq_iff_connected n fuel us x y :
  n <= fuel -> Forall (valid_pair n) us -> x < n -> y < n ->
  exists d d' b,
    unions fuel (DSU.init n) us = Done d /\
    find_eq fuel d x y = Done (d', b) /\
    (b = true <-> connected us x y) /\
    exists d'', find_eq fuel d x x = Done (d'', true).
Proof.
  intros Hfuel Hus Hx Hy.
  destruct (unions_spec n fuel Hfuel us (DSU.init n) (fun _ _ => False))
    as (d & Hd & Hok & Hinv).
  - apply init_ok.
  - assumption.
  - intros u v Hu Hv. rewrite init_same_set, linked_empty. intuition.
  - destruct (find_eq_spec n fuel d x y Hok Hx Hy Hfuel) as (d' & b & Hf & _ & Hb).
    destruct (find_eq_spec n fuel d x x Hok Hx Hx Hfuel) as (d'' & b' & Hf' & _ & Hb').
    exists d, d', b. split_and!; auto.
    + rewrite Hb, (Hinv x y Hx Hy). apply linked_ext. tauto.
    + exists d''. rewrite Hf'. do 2 f_equal.
      apply Hb', (Hinv x x Hx Hx). constructor.
Qed.

Lemma find_eq_iff_connected_witness :
  exists d d' b,
    unions 3 (DSU.init 3) [(0, 1); (1, 2)] = Done d /\
    find_eq 3 d 0 2 = Done (d', b) /\
    (b = true <-> connected [(0, 1); (1, 2)] 0 2) /\
    exists d'', find_eq 3 d 0 0 = Done (d'', true).
Proof.
  apply (find_eq_iff_connected 3 3 [(0, 1); (1, 2)] 0 2); try lia.
  repeat constructor; simpl; lia.
Defined.

(** C9. For every structure of size [n] whose parent array is a forest
    and every index [x] below [n], [find(x)] returns with any fuel of at
    least [n]; what it returns is the root of [x], an index below [n]
    that is its own parent, before the call and after it; and the parent
    array is still a forest of the same size. *)
Theorem find_terminates_at_root n d x fuel :
  length (DSU.p d) = n -> forest (DSU.p d) -> x < n -> n <= fuel ->
  exists d' rt,
    DSU.find fuel d x = Done (d', rt) /\
    rt < n /\
    root_of (DSU.p d) x rt /\
    DSU.p d !! rt = Some rt /\
    DSU.p d' !! rt = Some rt /\
    length (DSU.p d') = n /\ forest (DSU.p d').
Proof.
  intros Hlen [h Hr] Hx Hfuel.
  destruct (find_spec h fuel d x) as (d' & rt & Hf & Hroot & _ & Hlen' & Hr' & Heq);
    [assumption | lia | | ].
  { rewrite Hlen. pose proof (above_lt h n x Hx). lia. }
  exists d', rt.
  pose proof (root_of_is_root _ _ _ Hroot) as Hself.
  assert (Hself' : DSU.p d' !! rt = Some rt).
  { eapply root_of_is_root. apply Heq. now constructor. }
  split_and!; auto.
  - rewrite <- Hlen. eapply lookup_lt_Some; eauto.
  - congruence.
  - now exists h.
Qed.

Lemma find_terminates_at_root_witness :
  exists d' rt,
    DSU.find 3 {| DSU.p := [0; 0; 1]; DSU.r := [1; 0; 0] |} 2 = Done (d', rt) /\
    rt < 3 /\
    root_of [0; 0; 1] 2 rt /\
    [0; 0; 1] !! rt = Some rt /\
    DSU.p d' !! rt = Some rt /\
    length (DSU.p d') = 3 /\ forest (DSU.p d').
Proof.
  apply (find_terminates_at_root 3 {| DSU.p := [0; 0; 1]; DSU.r := [1; 0; 0] |} 2 3);
    [reflexivity | | lia | lia].
  exists (fun x => 2 - x). intros x y Hxy. simpl.
  destruct x as [ | [ | [ | x]]]; simpl in Hxy; try discriminate;
    injection Hxy as <-; lia.
Defined.

(** Every structure [__init__] and [union] can produce is well formed,
    so its parent array is a forest. *)
Lemma DSU_ok_forest n d : DSU_ok n d -> length (DSU.p d) = n /\ forest (DSU.p d).
Proof. intros (Hp & _ & Hr). split; [assumption | now exists (rank_of d)]. Qed.

(** * The Hamming distance *)

Section HammingFacts.
Import Hamming.
Local Open Scope Z_scope.

Lemma popcount_pos p : 0 < popcount p.
Proof. induction p; simpl; lia. Qed.

Lemma popcount_bound p : forall n, 0 <= n -> Zpos p < 2 ^ n -> popcount p <= n.
Proof.
  induction p as [q IH | q IH | ]; intros n Hn Hlt; simpl.
  - assert (n <> 0) by (intros ->; simpl in Hlt; lia).
    replace n with (Z.succ (n - 1)) in Hlt by lia.
    rewrite Z.pow_succ_r in Hlt by lia.
    specialize (IH (n - 1)). lia.
  - assert (n <> 0) by (intros ->; simpl in Hlt; lia).
    replace n with (Z.succ (n - 1)) in Hlt by lia.
    rewrite Z.pow_succ_r in Hlt by lia.
    specialize (IH (n - 1)). lia.
  - assert (n <> 0) by (intros ->; simpl in Hlt; lia). lia.
Qed.

Lemma bit_count_nonneg x : 0 <= bit_count x.
Proof. destruct x; simpl; try lia; pose proof (popcount_pos p); lia. Qed.

Lemma bit_count_bound x n : 0 <= n -> 0 <= x < 2 ^ n -> bit_count x <= n.
Proof.
  intros Hn [Hx Hlt]. destruct x as [ | p | p]; simpl; try lia.
  now apply popcount_bound.
Qed.

Lemma bit_count_zero_iff x : bit_count x = 0 <-> x = 0.
Proof.
  split; [ | intros ->; reflexivity ].
  destruct x as [ | p | p]; simpl; auto; pose proof (popcount_pos p); lia.
Qed.

Lemma lxor_bound a b n :
  0 <= n -> 0 <= a < 2 ^ n -> 0 <= b < 2 ^ n -> 0 <= Z.lxor a b < 2 ^ n.
Proof.
  intros Hn [Ha Han] [Hb Hbn].
  assert (Hx : 0 <= Z.lxor a b) by (apply Z.lxor_nonneg; tauto).
  split; [exact Hx | ].
  destruct (Z.eq_dec (Z.lxor a b) 0) as [-> | Hne]; [apply Z.pow_pos_nonneg; lia | ].
  assert (Hn0 : 0 < n).
  { destruct (Z.eq_dec n 0) as [-> | ?]; [ | lia].
    change (2 ^ 0) with 1 in *. assert (a = 0) by lia. assert (b = 0) by lia.
    subst a b. now elim Hne. }
  apply Z.log2_lt_pow2; [lia | ].
  pose proof (Z.log2_lxor a b Ha Hb) as Hl.
  assert (Z.log2 a < n).
  { destruct (Z.eq_dec a 0) as [-> | ?]; [simpl; lia | apply Z.log2_lt_pow2; lia]. }
  assert (Z.log2 b < n).
  { destruct (Z.eq_dec b 0) as [-> | ?]; [simpl; lia | apply Z.log2_lt_pow2; lia]. }
  lia.
Qed.

Lemma hamming_sym a b : hamming a b = hamming b a.
Proof. unfold hamming. now rewrite Z.lxor_comm. Qed.

Lemma hamming_self a : hamming a a = 0.
Proof. unfold hamming. now rewrite Z.lxor_nilpotent. Qed.

Lemma hamming_nonneg a b : 0 <= hamming a b.
Proof. apply bit_count_nonneg. Qed.

Lemma hamming_le_64 a b : fingerprint64 a -> fingerprint64 b -> hamming a b <= 64.
Proof.
  intros Ha Hb. unfold hamming.
  apply bit_count_bound; [lia | ]. apply lxor_bound; [lia | assumption ..].
Qed.

Lemma hamming_zero_iff a b : hamming a b = 0 <-> a = b.
Proof.
  unfold hamming. rewrite bit_count_zero_iff. apply Z.lxor_eq_0_iff.
Qed.

(** C5. For all 64-bit fingerprints [a] and [b]: [hamming(a, b)] is
    [hamming(b, a)], [hamming(a, a)] is 0, and [hamming(a, b)] lies
    between 0 and 64. [hamming] is a total function of its two
    arguments. *)
Theorem hamming_symmetric_bounded a b :
  fingerprint64 a -> fingerprint64 b ->
  hamming a b = hamming b a /\ hamming a a = 0 /\ 0 <= hamming a b <= 64.
Proof.
  intros Ha Hb. split_and!.
  - apply hamming_sym.
  - apply hamming_self.
  - apply hamming_nonneg.
  - now apply hamming_le_64.
Qed.

Lemma hamming_symmetric_bounded_witness :
  hamming 5 (2 ^ 64 - 1) = hamming (2 ^ 64 - 1) 5 /\ hamming 5 5 = 0 /\
  0 <= hamming 5 (2 ^ 64 - 1) <= 64.
Proof.
  apply (hamming_symmetric_bounded 5 (2 ^ 64 - 1)); unfold fingerprint64; lia.
Defined.

End HammingFacts.

(** * The average hash *)

Section AHashFacts.
Import AHash.
Local Open Scope Z_scope.

Lemma pack_fold pixels : pack pixels = fold_left (push (fun v => brighter v (avg pixels))) pixels 0.
Proof. reflexivity. Qed.

Lemma testbit_flag (b : bool) k : 0 < k -> Z.testbit (if b then 1 else 0) k = false.
Proof.
  intros Hk. destruct b; [ | apply Z.bits_0].
  destruct k as [ | q | q]; try lia. destruct q; reflexivity.
Qed.

Lemma push_testbit f bits v k :
  0 <= k -> Z.testbit (push f bits v) k = if k =? 0 then f v else Z.testbit bits (k - 1).
Proof.
  intros Hk. unfold push. rewrite Z.lor_spec, Z.shiftl_spec by assumption.
  destruct (Z.eqb_spec k 0) as [-> | Hne].
  - rewrite Z.testbit_neg_r by lia. simpl. now destruct (f v).
  - rewrite testbit_flag by lia. apply orb_false_r.
Qed.

Lemma push_bounds f bits v n : 0 <= n -> 0 <= bits < 2 ^ n -> 0 <= push f bits v < 2 ^ (n + 1).
Proof.
  intros Hn Hb. unfold push.
  assert (Hval : Z.lor (Z.shiftl bits 1) (if f v then 1 else 0)
                 = 2 * bits + (if f v then 1 else 0)).
  { rewrite Z.shiftl_mul_pow2 by lia. change (2 ^ 1) with 2.
    rewrite (Z.mul_comm bits 2).
    destruct (f v).
    - destruct bits as [ | q | q]; try lia; reflexivity.
    - rewrite Z.lor_0_r. lia. }
  rewrite Hval, Z.pow_add_r by lia. change (2 ^ 1) with 2.
  destruct (f v); lia.
Qed.

(** Bit [i] of the packed value is the test of the pixel [i] places from
    the end of the list; above the pixels are the bits of the start value. *)
Lemma fold_push_testbit f l : forall acc (i : nat),
  Z.testbit (fold_left (push f) l acc) (Z.of_nat i) =
  match reverse l !! i with
  | Some v => f v
  | None => Z.testbit acc (Z.of_nat (i - length l))
  end.
Proof.
  induction l as [ | v l IH]; intros acc i; simpl.
  - rewrite Nat.sub_0_r. reflexivity.
  - rewrite IH, reverse_cons.
    destruct (Nat.lt_ge_cases i (length l)) as [Hlt | Hge].
    + rewrite lookup_app_l by now rewrite length_reverse.
      destruct (lookup_lt_is_Some_2 (reverse l) i) as [w Hw];
        [now rewrite length_reverse | ].
      now rewrite Hw.
    + rewrite lookup_app_r by now rewrite length_reverse.
      rewrite (lookup_ge_None_2 (reverse l) i) by now rewrite length_reverse.
      rewrite length_reverse, push_testbit by lia.
      destruct (i - length l)%nat as [ | k] eqn:Hk; simpl.
      * reflexivity.
      * f_equal. lia.
Qed.

Lemma fold_push_bounds f l : forall acc n,
  0 <= n -> 0 <= acc < 2 ^ n ->
  0 <= fold_left (push f) l acc < 2 ^ (n + Z.of_nat (length l)).
Proof.
  induction l as [ | v l IH]; intros acc n Hn Hacc; simpl fold_left.
  - simpl. now rewrite Z.add_0_r.
  - replace (n + Z.of_nat (length (v :: l))) with ((n + 1) + Z.of_nat (length l))
      by (simpl length; lia).
    apply IH; [lia | ]. now apply push_bounds.
Qed.

Lemma pack_bounds pixels : 0 <= pack pixels < 2 ^ Z.of_nat (length pixels).
Proof.
  rewrite pack_fold.
  apply (fold_push_bounds _ pixels 0 0); [lia | simpl; lia].
Qed.

Lemma brighter_iff v a : brighter v a = true <-> (a < inject_Z v)%Q.
Proof.
  unfold brighter. rewrite negb_true_iff, <- not_true_iff_false, Qle_bool_iff.
  split; [apply Qnot_le_lt | apply Qlt_not_le].
Qed.

(** Bit [i] of the fingerprint, counted from the least significant bit,
    tells whether the pixel [i] places from the end is brighter than the
    average. *)
Lemma pack_testbit pixels (i : nat) v :
  reverse pixels !! i = Some v ->
  (Z.testbit (pack pixels) (Z.of_nat i) = true <-> (avg pixels < inject_Z v)%Q).
Proof.
  intros Hv. rewrite pack_fold, fold_push_testbit, Hv. apply brighter_iff.
Qed.

End AHashFacts.

Section AHashBits.
Import AHash Hamming.
Local Open Scope Z_scope.

(** C6, as the program has it. For every list of 64 pixels and every
    position [k] of the row-major 8x8 grid: the pixel at position [k] is
    strictly brighter than the mean of the 64 pixels if and only if bit
    [63 - k] of the fingerprint is 1, bits being counted from the least
    significant one. The first pixel is the most significant bit. *)
Theorem pack_bit_of_pixel pixels (k : nat) v :
  length pixels = 64%nat -> pixels !! k = Some v ->
  (Z.testbit (pack pixels) (Z.of_nat (63 - k)) = true
   <-> (inject_Z (sum pixels) / inject_Z 64 < inject_Z v)%Q).
Proof.
  intros Hlen Hk.
  assert (Hlt : (k < 64)%nat) by (rewrite <- Hlen; eapply lookup_lt_Some; eauto).
  apply pack_testbit. rewrite reverse_lookup by lia.
  rewrite Hlen. replace (64 - S (63 - k))%nat with k by lia. assumption.
Qed.

Lemma pack_bit_of_pixel_witness :
  Z.testbit (pack one_white) (Z.of_nat (63 - 0)) = true
  <-> (inject_Z (sum one_white) / inject_Z 64 < inject_Z 255)%Q.
Proof.
  apply (pack_bit_of_pixel one_white 0 255); reflexivity.
Defined.

(** C6 as stated fails: with one white pixel first and 63 black ones the
    pixel at position 0 is brighter than the mean, and bit 0 of the
    fingerprint is 0. *)
Lemma pack_bit_k_counterexample :
  ~ (forall pixels (k : nat) v,
       length pixels = 64%nat -> pixels !! k = Some v ->
       (Z.testbit (pack pixels) (Z.of_nat k) = true
        <-> (inject_Z (sum pixels) / inject_Z 64 < inject_Z v)%Q)).
Proof.
  intros H.
  pose proof (H one_white 0%nat 255 eq_refl eq_refl) as [_ Hbit].
  assert (Hlt : (inject_Z (sum one_white) / inject_Z 64 < inject_Z 255)%Q)
    by (vm_compute; reflexivity).
  apply Hbit in Hlt. vm_compute in Hlt. discriminate.
Qed.

Lemma pack_fingerprint pixels : length pixels = 64%nat -> fingerprint64 (pack pixels).
Proof. intros H. pose proof (pack_bounds pixels) as Hb. now rewrite H in Hb. Qed.

Lemma try_variants_fingerprint be cmds : forall last h,
  try_variants be cmds last = Ok h -> fingerprint64 h.
Proof.
  induction cmds as [ | cmd cmds IH]; intros last h; simpl; [discriminate | ].
  destruct (check_output be cmd) as [out | e]; [ | apply IH].
  destruct (Nat.ltb_spec (length out) 64) as [Hlt | Hge]; [apply IH | ].
  intros [= <-]. apply pack_fingerprint.
  rewrite length_map, length_take. lia.
Qed.

(** Every fingerprint [ahash] returns is a 64-bit one. *)
Lemma ahash_fingerprint be path h :
  pillow_8x8 be -> ahash be path = Ok h -> fingerprint64 h.
Proof.
  intros Hpil. unfold ahash, ahash_pillow, ahash_imagemagick.
  destruct (have_pillow be).
  - destruct (pillow_getdata be path) as [px | e] eqn:Hpx; [ | discriminate].
    intros [= <-]. apply pack_fingerprint. eauto.
  - apply try_variants_fingerprint.
Qed.

End AHashBits.

(** * The hashing loop *)

Section Hashing.
Import AHash Hamming Main.
Local Open Scope Z_scope.

Lemma hash_fold be fs : forall st,
  fold_left (hash_step be) fs st =
  {| hashes := hashes st ++ map (hash_entry be) fs;
     failures := failures st ++ omap (failure_entry be) fs;
     hashed := hashed st ++ fs |}.
Proof.
  induction fs as [ | path fs IH]; intros st; simpl.
  - rewrite !app_nil_r. now destruct st.
  - rewrite IH. unfold hash_step, hash_entry, failure_entry.
    destruct (ahash be path) as [h | e]; simpl; now rewrite <- !app_assoc.
Qed.

Lemma hash_all_eq be fs :
  hash_all be fs =
  {| hashes := map (hash_entry be) fs;
     failures := omap (failure_entry be) fs;
     hashed := fs |}.
Proof. unfold hash_all. now rewrite hash_fold. Qed.

Lemma ahash_nonneg be path h : ahash be path = Ok h -> 0 <= h.
Proof.
  unfold ahash, ahash_pillow, ahash_imagemagick.
  destruct (have_pillow be).
  - destruct (pillow_getdata be path); [ | discriminate].
    intros [= <-]. apply pack_bounds.
  - intros H. apply try_variants_fingerprint in H. apply H.
Qed.

Lemma hash_entry_sentinel be path :
  hash_entry be path = -1 <-> exists e, ahash be path = Raise e.
Proof.
  unfold hash_entry. destruct (ahash be path) as [h | e] eqn:Hh.
  - apply ahash_nonneg in Hh. split; [lia | intros [e [=]]].
  - split; eauto.
Qed.

Lemma failure_elem be (fs : list Path) path e :
  (path, e) ∈ omap (failure_entry be) fs <-> path ∈ fs /\ ahash be path = Raise e.
Proof.
  rewrite list_elem_of_omap. unfold failure_entry. split.
  - intros (q & Hq & Hf). destruct (ahash be q) as [h | e'] eqn:Hh; [discriminate | ].
    injection Hf as -> ->. auto.
  - intros [Hin Hr]. exists path. now rewrite Hr.
Qed.

(** C10. After the hashing loop the hash list has one entry per file, at
    the file's index; the entry is the fingerprint [ahash] returned, or
    -1 when [ahash] raised; an entry is -1 exactly for the files recorded
    in the failure list, which holds the files on which [ahash] raised
    and no others; and every fingerprint [ahash] returned is at least 0
    and below 2^64, so no fingerprint is the -1 of a failure. *)
Theorem hash_list_aligned be (fs : list Path) :
  pillow_8x8 be ->
  let st := hash_all be fs in
  length (hashes st) = length fs /\
  (forall i path, fs !! i = Some path ->
     exists h, hashes st !! i = Some h /\
       (h = -1 <-> path ∈ map fst (failures st)) /\
       (h <> -1 -> ahash be path = Ok h /\ fingerprint64 h)) /\
  (forall path e, (path, e) ∈ failures st <-> path ∈ fs /\ ahash be path = Raise e) /\
  (forall path h, ahash be path = Ok h -> fingerprint64 h /\ h <> -1).
Proof.
  intros Hpil st. subst st. rewrite hash_all_eq. simpl.
  split_and!.
  - apply length_map.
  - intros i path Hi. exists (hash_entry be path). split_and!.
    + rewrite list_lookup_fmap, Hi. reflexivity.
    + rewrite hash_entry_sentinel. split.
      * intros [e He]. apply list_elem_of_fmap. exists (path, e). split; [reflexivity | ].
        apply failure_elem. split; [ | assumption]. eapply list_elem_of_lookup_2; eauto.
      * intros Hin. apply list_elem_of_fmap in Hin as ([q e] & -> & Hin).
        apply failure_elem in Hin as [_ Hr]. simpl. eauto.
    + intros Hne. unfold hash_entry in *.
      destruct (ahash be path) as [h | e] eqn:Hh; [ | congruence].
      split; [reflexivity | eapply ahash_fingerprint; eauto].
  - intros path e. apply failure_elem.
  - intros path h Hh. pose proof (ahash_fingerprint be path h Hpil Hh) as Hf.
    split; [assumption | ]. unfold fingerprint64 in Hf. lia.
Qed.

End Hashing.

Section HashingWitness.
Import AHash Hamming Main.
Local Open Scope Z_scope.

Lemma demo_backend_8x8 : pillow_8x8 demo_backend.
Proof.
  intros path px. simpl. destruct (String.eqb path "bad.jpg"); [discriminate | ].
  now intros [= <-].
Qed.

Lemma hash_list_aligned_witness :
  let fs := ["a.jpg"; "bad.jpg"]%string in
  let st := hash_all demo_backend fs in
  length (hashes st) = length fs /\
  (forall i path, fs !! i = Some path ->
     exists h, hashes st !! i = Some h /\
       (h = -1 <-> path ∈ map fst (failures st)) /\
       (h <> -1 -> ahash demo_backend path = Ok h /\ fingerprint64 h)) /\
  (forall path e, (path, e) ∈ failures st <->
     path ∈ fs /\ ahash demo_backend path = Raise e) /\
  (forall path h, ahash demo_backend path = Ok h -> fingerprint64 h /\ h <> -1).
Proof.
  exact (hash_list_aligned demo_backend ["a.jpg"; "bad.jpg"]%string demo_backend_8x8).
Defined.

End HashingWitness.

(** * The threshold *)

Section Threshold.
Import Main.
Local Open Scope Z_scope.

Lemma rejected_run msg :
  exit_code (rejected msg) = 2 /\ hash_calls (rejected msg) = [] /\
  hamming_calls (rejected msg) = [] /\ report (rejected msg) = None.
Proof. repeat split. Qed.

(** C7. The threshold of a run is the integer given on the command line
    when there is one, and otherwise 5, 10 or 16 for the modes
    conservative, medium and aggressive, medium being the default. When
    it is below 0 or above 64, [main] returns the exit code 2 whatever
    the files and the backend are, having called neither [ahash] nor
    [hamming], and with no report. *)
Theorem threshold_choice_and_rejection fuel w args :
  (forall t, threshold args = Some t -> effective_threshold args = t) /\
  (threshold args = None ->
     (mode args = "conservative"%string -> effective_threshold args = 5) /\
     (mode args = "medium"%string -> effective_threshold args = 10) /\
     (mode args = "aggressive"%string -> effective_threshold args = 16)) /\
  mode default_args = "medium"%string /\ threshold default_args = None /\
  (effective_threshold args < 0 \/ 64 < effective_threshold args ->
     exists run, main fuel w args = Done run /\
       exit_code run = 2 /\ hash_calls run = [] /\ hamming_calls run = [] /\
       report run = None).
Proof.
  unfold effective_threshold. split_and!; try reflexivity.
  - now intros t ->.
  - intros ->. split_and!; now intros ->.
  - intros Hout. unfold main, effective_threshold.
    destruct (root_exists w); simpl.
    + destruct (threshold args) as [t | ].
      * destruct (Z.ltb_spec t 0), (Z.ltb_spec 64 t); simpl;
          try lia; eexists; split; try reflexivity; apply rejected_run.
      * destruct (Z.ltb_spec (mode_to_threshold (mode args)) 0),
                 (Z.ltb_spec 64 (mode_to_threshold (mode args))); simpl;
          try lia; eexists; split; try reflexivity; apply rejected_run.
    + eexists. split; [reflexivity | apply rejected_run].
Qed.

(** Within the range the run goes on to hash the files and cluster them. *)
Lemma main_in_range fuel w args :
  root_exists w = true -> 0 <= effective_threshold args <= 64 ->
  main fuel w args =
  cluster fuel (effective_threshold args) (sorted_by String.ltb (image_paths w))
          (hash_all (backend w) (sorted_by String.ltb (image_paths w))).
Proof.
  intros Hroot Hthr. unfold main. rewrite Hroot. simpl.
  destruct (Z.ltb_spec (effective_threshold args) 0),
           (Z.ltb_spec 64 (effective_threshold args)); simpl; try lia.
  reflexivity.
Qed.

End Threshold.

(** * The comparison loop *)

Lemma valid_lt hs i : valid hs i -> i < length hs.
Proof. intros (h & Hh & _). eapply lookup_lt_Some; eauto. Qed.

Lemma similar_valid thr hs i j : similar thr hs i j -> valid hs i /\ valid hs j.
Proof. intros (hi & hj & Hi & Hj & ? & ? & _). split; eexists; eauto. Qed.

Lemma similar_sym thr hs i j : similar thr hs i j -> similar thr hs j i.
Proof.
  intros (hi & hj & Hi & Hj & ? & ? & Hd). exists hj, hi.
  rewrite hamming_sym. auto 6.
Qed.

Lemma linked_sim_edge thr hs x y :
  linked (sim_edge thr hs) x y <-> linked (similar thr hs) x y.
Proof.
  split.
  - apply linked_mono. now intros a b [_ H].
  - induction 1 as [x | a b Hab | x y _ IH | x y z _ IH1 _ IH2];
      eauto using linked_refl, linked_sym, linked_trans.
    destruct (Nat.lt_total a b) as [Hlt | [-> | Hgt]].
    + apply linked_edge. now split.
    + constructor.
    + apply linked_sym, linked_edge. split; [assumption | now apply similar_sym].
Qed.

Section CompareLoop.
Import Hamming Main.
Variables (n fuel : nat) (thr : Z) (hs : list Z).
Hypothesis Hlen : length hs = n.
Hypothesis Hfuel : n <= fuel.

Lemma cmp_inv_ext E E' st :
  (forall a b, E a b <-> E' a b) -> cmp_inv n hs E st -> cmp_inv n hs E' st.
Proof.
  intros HE (Hok & Hsets & Hcmp). split_and!; auto.
  intros x y Hx Hy. rewrite (Hsets x y Hx Hy). now apply linked_ext.
Qed.

Lemma compare_inner_step i hi st j :
  hs !! i = Some hi -> (0 <= hi)%Z -> i < j -> j < n ->
  cmp_inv n hs (met thr hs i j) st ->
  exists st', compare_inner fuel thr hs i hi st j = Done st' /\ cmp_inv n hs (met thr hs i (S j)) st'.
Proof.
  intros Hi Hhi Hij Hj Hinv.
  destruct (lookup_lt_is_Some_2 hs j) as [hj Hhj]; [lia | ].
  unfold compare_inner. rewrite (getitem_Done _ _ _ Hhj). simpl.
  assert (Hvi : valid hs i) by (exists hi; auto).
  destruct (Z.ltb_spec hj 0) as [Hneg | Hpos].
  - exists st. split; [reflexivity | ].
    eapply cmp_inv_ext; [ | exact Hinv].
    intros a b. unfold met, sim_edge, similar. split; [intuition lia | ].
    intros [Hs [Ha | [-> Hb]]]; [auto | ].
    split; [assumption | ]. right. split; [reflexivity | ].
    destruct (decide (b = j)) as [-> | Hbj]; [ | lia].
    destruct Hs as (_ & x & y & _ & Hy & _ & ? & _). rewrite Hhj in Hy.
    injection Hy as <-. lia.
  - assert (Hvj : valid hs j) by (exists hj; auto).
    destruct Hinv as (Hok & Hsets & Hcmp).
    assert (Hcmp' : Forall (fun ab => valid hs (fst ab) /\ valid hs (snd ab))
                           (compared st ++ [(i, j)])).
    { apply Forall_app. split; [assumption | ]. repeat constructor; assumption. }
    destruct (Z.leb_spec (hamming hi hj) thr) as [Hle | Hgt].
    + destruct (union_spec n fuel (dsu st) i j Hok ltac:(lia) Hj Hfuel)
        as (d' & Hu & Hok' & Hj').
      rewrite Hu. simpl. eexists. split; [reflexivity | ].
      split_and!; simpl; auto.
      intros x y Hx Hy. rewrite Hj'.
      unfold joined. rewrite !Hsets by lia.
      fold (joined (linked (met thr hs i j)) i j x y). rewrite <- linked_joined.
      apply linked_ext. intros a b. unfold met. split.
      * intros [[Hs Hm] | [-> ->]]; [split; [assumption | lia] | ].
        split; [ | lia]. split; [assumption | ]. exists hi, hj. auto 6.
      * intros [Hs [Ha | [-> Hb]]]; [left; auto | ].
        destruct (decide (b = j)) as [-> | Hbj]; [now right | ].
        left. split; [assumption | lia].
    + eexists. split; [reflexivity | ].
      split_and!; simpl; auto.
      intros x y Hx Hy. rewrite (Hsets x y Hx Hy).
      apply linked_ext. intros a b. unfold met. split; [intuition lia | ].
      intros [Hs [Ha | [-> Hb]]]; [auto | ].
      split; [assumption | ]. right. split; [reflexivity | ].
      destruct (decide (b = j)) as [-> | Hbj]; [ | lia].
      destruct Hs as (_ & x' & y' & Hx' & Hy' & _ & _ & Hd).
      rewrite Hi in Hx'. rewrite Hhj in Hy'. injection Hx' as <-. injection Hy' as <-. lia.
Qed.

Lemma compare_outer_step st i :
  i < n -> cmp_inv n hs (met thr hs i 0) st ->
  exists st', compare_outer fuel thr hs n st i = Done st' /\ cmp_inv n hs (met thr hs (S i) 0) st'.
Proof.
  intros Hi Hinv.
  destruct (lookup_lt_is_Some_2 hs i) as [hi Hhi]; [lia | ].
  unfold compare_outer. rewrite (getitem_Done _ _ _ Hhi). simpl.
  destruct (Z.ltb_spec hi 0) as [Hneg | Hpos].
  - exists st. split; [reflexivity | ].
    eapply cmp_inv_ext; [ | exact Hinv].
    intros a b. unfold met. split; [intuition lia | ].
    intros [Hs [Ha | [? ?]]]; [ | lia].
    split; [assumption | ]. left.
    destruct (decide (a = i)) as [-> | Hai]; [ | lia].
    destruct Hs as (_ & x & y & Hx & _ & ? & _). rewrite Hhi in Hx.
    injection Hx as <-. lia.
  - unfold range.
    destruct (foldM_seq_inv (compare_inner fuel thr hs i hi)
                (fun j st => cmp_inv n hs (met thr hs i j) st) (n - (i + 1)) (i + 1) st)
      as (st' & Hst' & Hinv').
    + eapply cmp_inv_ext; [ | exact Hinv].
      intros a b. unfold met, sim_edge. intuition lia.
    + intros j s0 Hj Hs0. apply compare_inner_step; auto; lia.
    + exists st'. split; [assumption | ].
      eapply cmp_inv_ext; [ | exact Hinv'].
      intros a b. unfold met. replace (i + 1 + (n - (i + 1))) with n by lia.
      split; [intuition lia | ].
      intros [Hs [Ha | [? ?]]]; [ | lia].
      split; [assumption | ].
      destruct (decide (a = i)) as [-> | Hai]; [right | left; lia].
      split; [reflexivity | ].
      destruct Hs as (_ & Hs). apply similar_valid in Hs as [_ Hb].
      apply valid_lt in Hb. lia.
Qed.

(** The comparison loop returns; the sets it leaves are the classes of
    the closure of the similarity edges, and it has called [hamming] on
    valid items only. *)
Lemma compare_all_spec :
  exists st,
    compare_all fuel thr hs n = Done st /\
    DSU_ok n (dsu st) /\
    (forall x y, x < n -> y < n ->
       (same_set (DSU.p (dsu st)) x y <-> linked (similar thr hs) x y)) /\
    Forall (fun ab => valid hs (fst ab) /\ valid hs (snd ab)) (compared st).
Proof.
  unfold compare_all, range.
  destruct (foldM_seq_inv (compare_outer fuel thr hs n)
              (fun i st => cmp_inv n hs (met thr hs i 0) st) (n - 0) 0
              {| dsu := DSU.init n; pairs := 0; compared := [] |})
    as (st & Hst & Hok & Hsets & Hcmp).
  - split_and!; cbn [dsu compared]; [apply init_ok | | constructor].
    intros x y Hx Hy. rewrite init_same_set. split.
    + intros [-> _]. constructor.
    + intros H. split; [ | assumption].
      apply (linked_empty x y). revert H. apply linked_mono.
      unfold met. intros a b [_ ?]. lia.
  - intros i s0 Hi Hs0. apply compare_outer_step; [lia | assumption].
  - exists st. split_and!; auto.
    intros x y Hx Hy. rewrite (Hsets x y Hx Hy), <- linked_sim_edge.
    apply linked_ext. intros a b. unfold met. split; [tauto | ].
    intros Hs. split; [assumption | ]. left.
    destruct Hs as [Hab Hs]. apply similar_valid in Hs as [_ Hb].
    apply valid_lt in Hb. simpl. lia.
Qed.

End CompareLoop.

(** * The components *)

Section Comps.
Import Main.
Implicit Types (comps : Comps) (k v : nat).

Lemma comps_get_None comps k : comps_get comps k = None <-> k ∉ map fst comps.
Proof.
  induction comps as [ | [k' l] comps IH]; simpl.
  - split; [intros _; apply not_elem_of_nil | reflexivity].
  - rewrite not_elem_of_cons. destruct (Nat.eqb_spec k' k) as [-> | Hne].
    + split; [discriminate | tauto].
    + rewrite IH. intuition congruence.
Qed.

Lemma comps_get_elem comps k l :
  NoDup (map fst comps) -> ((k, l) ∈ comps <-> comps_get comps k = Some l).
Proof.
  induction comps as [ | [k' l'] comps IH]; simpl; intros Hnd.
  - rewrite elem_of_nil. split; [tauto | discriminate].
  - apply NoDup_cons in Hnd as [Hk' Hnd]. rewrite elem_of_cons.
    destruct (Nat.eqb_spec k' k) as [-> | Hne].
    + split.
      * intros [[= ->] | Hin]; [reflexivity | ].
        elim Hk'. apply list_elem_of_fmap. now exists (k, l).
      * intros [= ->]. now left.
    + rewrite <- (IH Hnd). split; [intros [[= -> ->] | ?]; [congruence | assumption] | auto].
Qed.

Lemma setdefault_append_get comps k v k' :
  comps_get (setdefault_append comps k v) k' =
  if k' =? k then Some (default [] (comps_get comps k) ++ [v]) else comps_get comps k'.
Proof.
  induction comps as [ | [k0 l0] comps IH]; simpl.
  - destruct (Nat.eqb_spec k k'), (Nat.eqb_spec k' k); congruence.
  - destruct (Nat.eqb_spec k0 k) as [-> | Hne]; simpl.
    + destruct (Nat.eqb_spec k k'), (Nat.eqb_spec k' k); congruence.
    + rewrite IH. destruct (Nat.eqb_spec k0 k'), (Nat.eqb_spec k' k); congruence.
Qed.

Lemma setdefault_append_keys comps k v :
  map fst (setdefault_append comps k v) =
  match comps_get comps k with
  | Some _ => map fst comps
  | None => map fst comps ++ [k]
  end.
Proof.
  induction comps as [ | [k0 l0] comps IH]; simpl; [reflexivity | ].
  destruct (Nat.eqb_spec k0 k) as [-> | Hne]; simpl; [reflexivity | ].
  rewrite IH. now destruct (comps_get comps k).
Qed.

Lemma setdefault_append_NoDup comps k v :
  NoDup (map fst comps) -> NoDup (map fst (setdefault_append comps k v)).
Proof.
  intros Hnd. rewrite setdefault_append_keys.
  destruct (comps_get comps k) eqn:Hget; [assumption | ].
  apply NoDup_app. split_and!; [assumption | | apply NoDup_singleton].
  intros x Hx Hx'. apply list_elem_of_singleton in Hx'. subst x.
  now apply comps_get_None in Hget.
Qed.

End Comps.

Section CollectLoop.
Import Hamming Main.
Variables (n fuel : nat) (hs : list Z) (d0 : DSU.t).
Hypothesis Hlen : length hs = n.
Hypothesis Hfuel : n <= fuel.
Hypothesis Hok0 : DSU_ok n d0.

Lemma entry_inv_skip K k o : ~ valid hs K -> entry_inv hs d0 K k o -> entry_inv hs d0 (S K) k o.
Proof.
  intros Hnv. destruct o as [l | ]; simpl.
  - intros (Hne & Hnd & Hmem). split_and!; auto.
    intros idx. rewrite Hmem. split; [intuition lia | ].
    intros (Hlt & Hv & Hr). split_and!; auto.
    destruct (decide (idx = K)) as [-> | ?]; [tauto | lia].
  - intros Hnone idx Hlt Hv.
    destruct (decide (idx = K)) as [-> | ?]; [tauto | apply Hnone; [lia | assumption]].
Qed.

Lemma collect_step_ok K st :
  K < n -> collect_inv n hs d0 K st ->
  exists st', collect_step fuel hs st K = Done st' /\ collect_inv n hs d0 (S K) st'.
Proof.
  intros HK (Hok & Hroots & Hnd & Hent).
  destruct (lookup_lt_is_Some_2 hs K) as [h Hh]; [lia | ].
  unfold collect_step. rewrite (getitem_Done _ _ _ Hh). simpl.
  destruct (Z.ltb_spec h 0) as [Hneg | Hpos].
  - exists st. split; [reflexivity | ]. split_and!; auto.
    intros k. apply entry_inv_skip; [ | apply Hent].
    intros (h' & Hh' & ?). rewrite Hh in Hh'. injection Hh' as <-. lia.
  - assert (HvK : valid hs K) by (exists h; auto).
    destruct (find_ok n fuel (fst st) K Hok HK Hfuel) as (d' & rt & Hf & Hrt & Hok' & Heq).
    rewrite Hf. simpl. eexists. split; [reflexivity | ].
    apply Hroots in Hrt.
    split_and!; simpl.
    + assumption.
    + intros y rt'. rewrite Heq. apply Hroots.
    + now apply setdefault_append_NoDup.
    + intros k. rewrite setdefault_append_get.
      specialize (Hent k).
      destruct (Nat.eqb_spec k rt) as [-> | Hne].
      * destruct (comps_get (snd st) rt) as [l | ]; simpl in *.
        -- destruct Hent as (Hnil & Hndl & Hmem). split_and!.
           ++ intros Happ. now apply app_eq_nil in Happ as [_ ?].
           ++ apply NoDup_app. split_and!; [assumption | | apply NoDup_singleton].
              intros x Hx Hx'. apply list_elem_of_singleton in Hx'. subst x.
              apply Hmem in Hx. lia.
           ++ intros idx. rewrite elem_of_app, list_elem_of_singleton, Hmem.
              split; [intros [? | ->]; [intuition lia | auto] | ].
              intros (Hlt & Hv & Hr).
              destruct (decide (idx = K)) as [-> | ?]; [now right | left].
              split_and!; auto. lia.
        -- split_and!; [discriminate | apply NoDup_singleton | ].
           intros idx. rewrite list_elem_of_singleton.
           split; [intros ->; auto | ].
           intros (Hlt & Hv & Hr).
           destruct (decide (idx = K)) as [-> | ?]; [reflexivity | ].
           elim (Hent idx); [lia | assumption ..].
      * destruct (comps_get (snd st) k) as [l | ]; simpl in *.
        -- destruct Hent as (Hnil & Hndl & Hmem). split_and!; auto.
           intros idx. rewrite Hmem. split; [intuition lia | ].
           intros (Hlt & Hv & Hr). split_and!; auto.
           destruct (decide (idx = K)) as [-> | ?]; [ | lia].
           elim Hne. eapply root_of_unique; eauto.
        -- intros idx Hlt Hv Hr.
           destruct (decide (idx = K)) as [-> | ?].
           ++ elim Hne. eapply root_of_unique; eauto.
           ++ apply (Hent idx); [lia | assumption ..].
Qed.

(** The collection loop returns, with each set of valid items under the
    key of its root. *)
Lemma collect_spec :
  exists d' comps,
    collect fuel hs n d0 = Done (d', comps) /\
    NoDup (map fst comps) /\
    forall k, entry_inv hs d0 n k (comps_get comps k).
Proof.
  unfold collect, range.
  destruct (foldM_seq_inv (collect_step fuel hs) (collect_inv n hs d0) (n - 0) 0 (d0, []))
    as ([d' comps] & Hst & _ & _ & Hnd & Hent).
  - split_and!; simpl; [exact Hok0 | intros; reflexivity | constructor | ].
    intros k idx Hidx. lia.
  - intros i s0 Hi. apply collect_step_ok. lia.
  - exists d', comps. split_and!; auto.
    intros k. specialize (Hent k). now replace (0 + (n - 0)) with n in Hent by lia.
Qed.

End CollectLoop.

(** * Sorting *)

Section SortedBy.
Context {A : Type} (lt : A -> A -> bool).

Lemma insert_sorted_perm x l : insert_sorted lt x l ≡ₚ x :: l.
Proof.
  induction l as [ | y l IH]; simpl; [reflexivity | ].
  destruct (lt y x); [ | reflexivity].
  rewrite IH. apply Permutation_swap.
Qed.

(** Sorting only rearranges. *)
Lemma sorted_by_perm l : sorted_by lt l ≡ₚ l.
Proof.
  induction l as [ | x l IH]; simpl; [reflexivity | ].
  unfold sorted_by in *. simpl. rewrite insert_sorted_perm. now constructor.
Qed.

Hypothesis lt_asym : forall x y, lt x y = true -> lt y x = false.
Hypothesis le_trans : forall x y z, lt y x = false -> lt z y = false -> lt z x = false.

Lemma insert_sorted_sorted x l :
  StronglySorted (fun a b => lt b a = false) l ->
  StronglySorted (fun a b => lt b a = false) (insert_sorted lt x l).
Proof.
  induction 1 as [ | y l Hs IH Hall]; simpl; [repeat constructor | ].
  destruct (lt y x) eqn:Hyx.
  - constructor; [assumption | ].
    rewrite insert_sorted_perm. constructor; [now apply lt_asym | assumption].
  - constructor; [now constructor | ].
    constructor; [assumption | ].
    eapply Forall_impl; [exact Hall | ]. intros z Hz. simpl in Hz. eauto.
Qed.

(** With an order, no later element of the result is smaller than an
    earlier one. *)
Lemma sorted_by_sorted l : StronglySorted (fun a b => lt b a = false) (sorted_by lt l).
Proof.
  induction l as [ | x l IH]; [constructor | ].
  unfold sorted_by in *. simpl. now apply insert_sorted_sorted.
Qed.

End SortedBy.

(** Python's order on strings, as [String.compare] has it. *)
Section StringOrder.

Lemma ascii_compare_refl a : Ascii.compare a a = Eq.
Proof. unfold Ascii.compare. apply N.compare_refl. Qed.

Lemma string_compare_le_trans x : forall y z,
  String.compare x y <> Gt -> String.compare y z <> Gt -> String.compare x z <> Gt.
Proof.
  induction x as [ | a x IH]; intros y z Hxy Hyz.
  - destruct z; simpl; discriminate.
  - destruct y as [ | b y]; [now elim Hxy | ].
    destruct z as [ | c z]; [now elim Hyz | ].
    simpl in *. unfold Ascii.compare in *.
    destruct (N.compare_spec (N_of_ascii a) (N_of_ascii b)) as [Hab | Hab | Hab];
      try congruence;
      destruct (N.compare_spec (N_of_ascii b) (N_of_ascii c)) as [Hbc | Hbc | Hbc];
      try congruence;
      destruct (N.compare_spec (N_of_ascii a) (N_of_ascii c)) as [Hac | Hac | Hac];
      try congruence; try lia; eauto.
Qed.

Lemma string_ltb_asym x y : String.ltb x y = true -> String.ltb y x = false.
Proof.
  unfold String.ltb. rewrite (String.compare_antisym y x).
  destruct (String.compare x y); simpl; congruence.
Qed.

Lemma string_le_trans x y z :
  String.ltb y x = false -> String.ltb z y = false -> String.ltb z x = false.
Proof.
  unfold String.ltb. intros Hyx Hzy.
  pose proof (string_compare_le_trans x y z) as Ht.
  rewrite (String.compare_antisym x y), (String.compare_antisym y z),
          (String.compare_antisym x z) in Ht.
  destruct (String.compare y x), (String.compare z y), (String.compare z x);
    simpl in *; try congruence; elim Ht; congruence.
Qed.

End StringOrder.

(** * Loops that build a list *)

Section MapM.
Context {A B : Type} (f : A -> outcome B).

Lemma mapM_Done (l : list A) (k : list B) :
  mapM f l = Done k <-> Forall2 (fun x y => f x = Done y) l k.
Proof.
  revert k. induction l as [ | x l IH]; intros k; simpl.
  - split; [intros [= <-]; constructor | inversion 1; reflexivity].
  - split.
    + destruct (f x) as [y | | ] eqn:Hx; simpl; try discriminate.
      destruct (mapM f l) as [k' | | ] eqn:Hl; simpl; try discriminate.
      intros [= <-]. constructor; [assumption | now apply IH].
    + inversion 1 as [ | ? y ? k' Hx Hl]; subst. rewrite Hx. simpl.
      apply IH in Hl. rewrite Hl. reflexivity.
Qed.

Lemma mapM_total (l : list A) :
  (forall x, x ∈ l -> exists y, f x = Done y) -> exists k, mapM f l = Done k.
Proof.
  induction l as [ | x l IH]; intros Hall; simpl.
  - now exists [].
  - destruct (Hall x) as [y Hy]; [now left | ].
    destruct IH as [k Hk]; [intros z Hz; apply Hall; now right | ].
    exists (y :: k). rewrite Hy. simpl. rewrite Hk. reflexivity.
Qed.

End MapM.

(** * From the components to the groups *)

Section Clustering.
Import Hamming Main.

Variables (thr : Z) (hs : list Z).

Lemma comp_members comps k l :
  components thr hs comps -> (k, l) ∈ comps ->
  l <> [] /\ NoDup l /\
  (forall i, i ∈ l -> valid hs i) /\
  (forall i j, i ∈ l -> valid hs j -> (j ∈ l <-> linked (similar thr hs) i j)).
Proof.
  intros (Hnd & d0 & Hok & Hsets & Hent) Hin.
  apply comps_get_elem in Hin; [ | assumption].
  specialize (Hent k). rewrite Hin in Hent. destruct Hent as (Hnil & Hndl & Hmem).
  split_and!; auto.
  - intros i Hi. now apply Hmem in Hi.
  - intros i j Hi Hj. apply Hmem in Hi as (Hilt & Hvi & Hri).
    pose proof (valid_lt _ _ Hj) as Hjlt.
    rewrite Hmem, <- (Hsets i j Hilt Hjlt). split.
    + intros (_ & _ & Hrj). exists k. auto.
    + intros (rt & Hri' & Hrj). split_and!; auto.
      now rewrite (root_of_unique _ _ _ _ Hri Hri').
Qed.

Lemma comp_exists comps i j :
  components thr hs comps -> valid hs i -> valid hs j ->
  linked (similar thr hs) i j ->
  exists k l, (k, l) ∈ comps /\ i ∈ l /\ j ∈ l.
Proof.
  intros (Hnd & d0 & Hok & Hsets & Hent) Hvi Hvj Hl.
  pose proof (valid_lt _ _ Hvi) as Hilt. pose proof (valid_lt _ _ Hvj) as Hjlt.
  apply (Hsets i j Hilt Hjlt) in Hl as (rt & Hri & Hrj).
  specialize (Hent rt). destruct (comps_get comps rt) as [l | ] eqn:Hget; simpl in Hent.
  - exists rt, l. destruct Hent as (_ & _ & Hmem).
    split_and!; [now apply comps_get_elem | apply Hmem; auto ..].
  - elim (Hent i Hilt Hvi Hri).
Qed.

Lemma comp_unique comps k l k' l' i i' :
  components thr hs comps -> (k, l) ∈ comps -> (k', l') ∈ comps ->
  i ∈ l -> i' ∈ l' -> linked (similar thr hs) i i' -> k = k' /\ l = l'.
Proof.
  intros (Hnd & d0 & Hok & Hsets & Hent) Hin Hin' Hi Hi' Hl.
  apply comps_get_elem in Hin, Hin'; try assumption.
  pose proof (Hent k) as Hk. pose proof (Hent k') as Hk'.
  rewrite Hin in Hk. rewrite Hin' in Hk'.
  destruct Hk as (_ & _ & Hmem), Hk' as (_ & _ & Hmem').
  apply Hmem in Hi as (Hilt & _ & Hri). apply Hmem' in Hi' as (Hilt' & _ & Hri').
  apply (Hsets i i' Hilt Hilt') in Hl as (rt & Hr & Hr').
  assert (k = k').
  { rewrite (root_of_unique _ _ _ _ Hri Hr). eapply root_of_unique; eauto. }
  subst k'. split; [reflexivity | congruence].
Qed.

Lemma big_iff (l : list nat) : Is_true (1 <? length l) <-> 2 <= length l.
Proof. rewrite Is_true_true, Nat.ltb_lt. lia. Qed.

Lemma groups_of_elem comps g :
  g ∈ groups_of comps <->
  exists k l, (k, l) ∈ comps /\ 2 <= length l /\ g = sorted_by Nat.ltb l.
Proof.
  unfold groups_of. rewrite list_elem_of_fmap. split.
  - intros (l & -> & Hl). apply list_elem_of_filter in Hl as [Hbig Hl].
    apply list_elem_of_fmap in Hl as ([k l'] & -> & Hin).
    exists k, l'. split_and!; auto. now apply big_iff.
  - intros (k & l & Hin & Hbig & ->). exists l. split; [reflexivity | ].
    apply list_elem_of_filter. split; [now apply big_iff | ].
    apply list_elem_of_fmap. now exists (k, l).
Qed.

(** The groups of line 166, in any order, are a grouping. *)
Lemma groups_of_grouping comps gs :
  components thr hs comps -> gs ≡ₚ groups_of comps -> grouping thr hs gs.
Proof.
  intros Hc Hperm. split.
  - intros g Hg. rewrite Hperm in Hg.
    apply groups_of_elem in Hg as (k & l & Hin & Hbig & ->).
    destruct (comp_members comps k l Hc Hin) as (_ & Hnd & Hval & Hcl).
    pose proof (sorted_by_perm Nat.ltb l) as Hp.
    split_and!.
    + now rewrite Hp.
    + now rewrite Hp.
    + intros i. rewrite Hp. apply Hval.
    + intros i j. rewrite !Hp. apply Hcl.
  - intros i j Hvi Hvj Hne Hl.
    destruct (comp_exists comps i j Hc Hvi Hvj Hl) as (k & l & Hin & Hi & Hj).
    destruct (comp_members comps k l Hc Hin) as (_ & Hnd & _ & _).
    exists (sorted_by Nat.ltb l).
    split_and!; [ | now rewrite sorted_by_perm ..].
    rewrite Hperm.
    apply groups_of_elem. exists k, l. split_and!; auto.
    destruct l as [ | a [ | b l]]; simpl; try lia.
    + inversion Hi.
    + apply list_elem_of_singleton in Hi, Hj. congruence.
Qed.

End Clustering.

Section Report.
Import Hamming Main.

Lemma paths_total (fs : list Path) (g : list nat) :
  (forall i, i ∈ g -> i < length fs) ->
  exists paths, mapM (getitem fs) g = Done paths /\
    Forall2 (fun i q => fs !! i = Some q) g paths.
Proof.
  intros Hlt. destruct (mapM_total (getitem fs) g) as [paths Hp].
  - intros i Hi. destruct (lookup_lt_is_Some_2 fs i (Hlt i Hi)) as [q Hq].
    exists q. now apply getitem_Done.
  - exists paths. split; [assumption | ].
    apply mapM_Done in Hp. eapply Forall2_impl; [exact Hp | ].
    intros i q. unfold getitem. destruct (fs !! i); congruence.
Qed.

(** Sorting the groups for the report only rearranges them. *)
Lemma sort_groups_spec (fs : list Path) (gs : list (list nat)) :
  (forall g i, g ∈ gs -> i ∈ g -> i < length fs) ->
  exists gs', sort_groups fs gs = Done gs' /\ gs' ≡ₚ gs.
Proof.
  intros Hlt. unfold sort_groups.
  destruct (mapM_total (fun g => k ← key_of fs g; Done (k, g)) gs) as [keyed Hk].
  - intros g Hg. unfold key_of.
    destruct (paths_total fs g) as (paths & -> & _); [intros i Hi; eapply Hlt; eauto | ].
    simpl. eauto.
  - rewrite Hk. simpl. eexists. split; [reflexivity | ].
    rewrite sorted_by_perm.
    apply mapM_Done in Hk.
    assert (Heq : map snd keyed = gs); [ | now rewrite Heq].
    induction Hk as [ | g kg gs keyed Hg _ IH]; [reflexivity | ].
    simpl. f_equal; [ | apply IH; intros; eapply Hlt; eauto; now right].
    destruct (key_of fs g); simpl in Hg; try discriminate.
    now injection Hg as <-.
Qed.

Lemma resolve_spec (fs : list Path) (g : list nat) :
  g <> [] -> (forall i, i ∈ g -> i < length fs) ->
  exists R, resolve fs g = Done R /\ resolved_for fs g R.
Proof.
  intros Hne Hlt. unfold resolve.
  destruct (paths_total fs g Hlt) as (paths & -> & Hpaths). simpl.
  destruct (sorted_by String.ltb paths) as [ | q rest] eqn:Hs.
  - pose proof (sorted_by_perm String.ltb paths) as Hp. rewrite Hs in Hp.
    apply Permutation_nil_l in Hp. subst paths.
    inversion Hpaths. congruence.
  - simpl. eexists. split; [reflexivity | ].
    split; [reflexivity | ]. exists paths. split; [assumption | ].
    simpl. now rewrite Hs.
Qed.

Lemma resolve_all (fs : list Path) (gs : list (list nat)) :
  (forall g, g ∈ gs -> g <> [] /\ forall i, i ∈ g -> i < length fs) ->
  exists rs, mapM (resolve fs) gs = Done rs /\ Forall2 (resolved_for fs) gs rs.
Proof.
  induction gs as [ | g gs IH]; intros Hall; simpl.
  - exists []. split; [reflexivity | constructor].
  - destruct (Hall g) as [Hne Hlt]; [now left | ].
    destruct (resolve_spec fs g Hne Hlt) as (R & -> & HR). simpl.
    destruct IH as (rs & -> & Hrs); [intros g' Hg'; apply Hall; now right | ].
    simpl. exists (R :: rs). split; [reflexivity | now constructor].
Qed.

(** The kept path is one of the group's, the others are exactly the
    deletion candidates, and no path of the group is smaller than the
    kept one. *)
Lemma resolved_keep (fs : list Path) g R :
  resolved_for fs g R ->
  exists paths,
    Forall2 (fun i q => fs !! i = Some q) g paths /\
    keep R :: dupes R ≡ₚ paths /\
    forall q, q ∈ paths -> String.ltb q (keep R) = false.
Proof.
  intros (_ & paths & Hpaths & Hs). exists paths.
  pose proof (sorted_by_perm String.ltb paths) as Hp. rewrite <- Hs in Hp.
  split_and!; auto.
  intros q Hq. rewrite <- Hp in Hq.
  pose proof (sorted_by_sorted String.ltb string_ltb_asym string_le_trans paths) as Hsorted.
  rewrite <- Hs in Hsorted. apply StronglySorted_inv in Hsorted as [_ Hall].
  apply elem_of_cons in Hq as [-> | Hq].
  - unfold String.ltb.
    destruct (String.compare (keep R) (keep R)) eqn:Hc; try reflexivity.
    pose proof (String.compare_antisym (keep R) (keep R)) as Ha.
    rewrite Hc in Ha. discriminate.
  - rewrite Forall_forall in Hall. now apply Hall.
Qed.

(** Lines 141-199 on hash and file lists of the same length, with fuel
    for every index: the run returns with exit code 0; [hamming] has been
    called on valid items only; the groups are, in some order, those of
    the components; and each group is resolved. *)
Lemma cluster_spec fuel thr (fs : list Path) hst :
  length (hashes hst) = length fs -> length fs <= fuel ->
  exists run rep comps,
    cluster fuel thr fs hst = Done run /\
    exit_code run = 0%Z /\
    hash_calls run = hashed hst /\
    Forall (fun ab => valid (hashes hst) (fst ab) /\ valid (hashes hst) (snd ab))
           (hamming_calls run) /\
    report run = Some rep /\
    thr_used rep = thr /\ files rep = fs /\
    file_hashes rep = hashes hst /\ file_failures rep = failures hst /\
    components thr (hashes hst) comps /\
    groups rep ≡ₚ groups_of comps /\
    Forall2 (resolved_for fs) (groups rep) (resolved rep).
Proof.
  intros Hlen Hfuel. unfold cluster.
  destruct (compare_all_spec (length fs) fuel thr (hashes hst) Hlen Hfuel)
    as (st & -> & Hok & Hsets & Hcmp). simpl.
  destruct (collect_spec (length fs) fuel (hashes hst) (dsu st) Hlen Hfuel Hok)
    as (d' & comps & -> & Hnd & Hent). simpl.
  assert (Hc : components thr (hashes hst) comps).
  { split; [assumption | ]. exists (dsu st). rewrite Hlen. auto. }
  pose proof (groups_of_grouping thr (hashes hst) comps (groups_of comps) Hc
                (reflexivity _)) as [Hg _].
  assert (Hidx : forall g i, g ∈ groups_of comps -> i ∈ g -> i < length fs).
  { intros g i Hin Hi. destruct (Hg g Hin) as (_ & _ & Hv & _).
    rewrite <- Hlen. apply valid_lt. auto. }
  destruct (sort_groups_spec fs (groups_of comps) Hidx) as (gs & -> & Hperm). simpl.
  assert (Hres : exists rs, mapM (resolve fs) gs = Done rs /\
                            Forall2 (resolved_for fs) gs rs).
  { apply resolve_all. intros g Hin. rewrite Hperm in Hin. split.
    - destruct (Hg g Hin) as (Hlen2 & _). intros ->. simpl in Hlen2. lia.
    - intros i Hi. eapply Hidx; eauto. }
  destruct Hres as (rs & -> & Hrs). simpl.
  eexists _, _, comps. split; [reflexivity | ]. simpl.
  split_and!; auto.
Qed.

End Report.

(** * The run as a whole *)

Section Run.
Import AHash Hamming Main.
Local Open Scope Z_scope.

(** [main] returns when the fuel covers the number of files: either the
    run is rejected, or it is the clustering of the sorted files and
    their hash entries. *)
Lemma main_spec fuel w args :
  (length (image_paths w) <= fuel)%nat ->
  let fs := sorted_by String.ltb (image_paths w) in
  let hs := map (hash_entry (backend w)) fs in
  exists run, main fuel w args = Done run /\
    ((exit_code run = 2 /\ hash_calls run = [] /\ hamming_calls run = [] /\
      report run = None) \/
     (exists rep comps,
        exit_code run = 0 /\ hash_calls run = fs /\
        Forall (fun ab => valid hs (fst ab) /\ valid hs (snd ab)) (hamming_calls run) /\
        report run = Some rep /\
        thr_used rep = effective_threshold args /\ files rep = fs /\
        file_hashes rep = hs /\
        file_failures rep = omap (failure_entry (backend w)) fs /\
        components (effective_threshold args) hs comps /\
        groups rep ≡ₚ groups_of comps /\
        Forall2 (resolved_for fs) (groups rep) (resolved rep))).
Proof.
  intros Hfuel fs hs. unfold main. fold fs.
  destruct (root_exists w); simpl;
    [ | eexists; split; [reflexivity | left; apply rejected_run]].
  destruct ((effective_threshold args <? 0) || (64 <? effective_threshold args));
    [eexists; split; [reflexivity | left; apply rejected_run] | ].
  rewrite hash_all_eq.
  destruct (cluster_spec fuel (effective_threshold args) fs
              {| hashes := hs; failures := omap (failure_entry (backend w)) fs;
                 hashed := fs |})
    as (run & rep & comps & Hrun & Hspec).
  - simpl. unfold hs. now rewrite length_map.
  - unfold fs. now rewrite sorted_by_perm.
  - exists run. split; [exact Hrun | right]. exists rep, comps. simpl in Hspec. tauto.
Qed.

Lemma hash_entry_valid be (fs : list Path) i :
  valid (map (hash_entry be) fs) i <->
  exists path h, fs !! i = Some path /\ ahash be path = Ok h.
Proof.
  unfold valid. rewrite list_lookup_fmap. split.
  - intros (h & Hh & Hpos). destruct (fs !! i) as [path | ]; [ | discriminate].
    simpl in Hh. injection Hh as Hh. exists path. unfold hash_entry in Hh.
    destruct (ahash be path) as [h' | e]; [eauto | lia].
  - intros (path & h & -> & Hh). exists h. simpl. unfold hash_entry. rewrite Hh.
    split; [reflexivity | eapply ahash_nonneg; eauto].
Qed.

(** C3. For every world, command line and fuel covering the number of
    files, [main] returns, and for every file whose fingerprint
    extraction failed: [hamming] was called on no pair with its index;
    and when there is a report, its index is in no group, and in every
    resolved group its path is neither the kept path nor one of the
    deletion candidates. *)
Theorem failed_items_excluded fuel w args :
  (length (image_paths w) <= fuel)%nat ->
  exists run, main fuel w args = Done run /\
    forall i path e,
      (sorted_by String.ltb (image_paths w)) !! i = Some path ->
      ahash (backend w) path = Raise e ->
      (forall a b, (a, b) ∈ hamming_calls run -> a <> i /\ b <> i) /\
      (forall rep, report run = Some rep ->
         (forall g, g ∈ groups rep -> i ∉ g) /\
         (forall R, R ∈ resolved rep ->
            (i ∉ members R) /\ keep R <> path /\ (path ∉ dupes R))).
Proof.
  intros Hfuel.
  destruct (main_spec fuel w args Hfuel) as (run & Hrun & Hcases).
  exists run. split; [assumption | ].
  set (fs := sorted_by String.ltb (image_paths w)) in *.
  set (hs := map (hash_entry (backend w)) fs) in *.
  intros i path e Hi He.
  assert (Hnv : ~ valid hs i).
  { intros Hv. apply hash_entry_valid in Hv as (q & h & Hq & Hh). congruence. }
  assert (Hpath : forall j, valid hs j -> fs !! j <> Some path).
  { intros j Hv Hj. apply hash_entry_valid in Hv as (q & h & Hq & Hh). congruence. }
  destruct Hcases as [(_ & _ & Hcalls & Hrep) | (rep & comps & _ & _ & Hcalls & Hrep & _ &
    _ & _ & _ & Hcomps & Hperm & Hres)].
  - rewrite Hcalls, Hrep. split; [intros a b Hin; inversion Hin | discriminate].
  - pose proof (groups_of_grouping _ _ _ _ Hcomps Hperm) as [Hg _].
    split.
    + intros a b Hin. rewrite Forall_forall in Hcalls.
      destruct (Hcalls _ Hin) as [Ha Hb]. simpl in *. split; congruence.
    + intros rep' Hrep'. assert (rep' = rep) by congruence. subst rep'.
      split.
      * intros g Hin Hig. destruct (Hg g Hin) as (_ & _ & Hv & _). auto.
      * intros R HR.
        apply list_elem_of_lookup in HR as [pos HR].
        destruct (Forall2_lookup_r _ _ _ _ _ Hres HR) as (g & Hgpos & Hfor).
        apply list_elem_of_lookup_2 in Hgpos.
        destruct (Hg g Hgpos) as (_ & _ & Hv & _).
        pose proof Hfor as [Hmem _].
        destruct (resolved_keep fs g R Hfor) as (paths & Hpaths & Hp & _).
        assert (Hnot : path ∉ paths).
        { intros Hin. apply list_elem_of_lookup in Hin as [pos' Hin].
          destruct (Forall2_lookup_r _ _ _ _ _ Hpaths Hin) as (j & Hj & Hfj).
          apply (Hpath j); [ | assumption].
          apply Hv. eapply list_elem_of_lookup_2; eauto. }
        rewrite <- Hp in Hnot. apply not_elem_of_cons in Hnot as [Hk Hd].
        rewrite Hmem. split_and!; auto.
Qed.

End Run.

Section Resolution.
Import AHash Hamming Main.
Local Open Scope Z_scope.

Lemma failed_items_excluded_witness :
  exists run, main 3 demo_world default_args = Done run /\
    forall i path e,
      (sorted_by String.ltb (image_paths demo_world)) !! i = Some path ->
      ahash (backend demo_world) path = Raise e ->
      (forall a b, (a, b) ∈ hamming_calls run -> a <> i /\ b <> i) /\
      (forall rep, report run = Some rep ->
         (forall g, g ∈ groups rep -> i ∉ g) /\
         (forall R, R ∈ resolved rep ->
            (i ∉ members R) /\ keep R <> path /\ (path ∉ dupes R))).
Proof.
  apply (failed_items_excluded 3 demo_world default_args). simpl. lia.
Defined.

(** C4. For every list of files and hash entries of the same length,
    every threshold and fuel covering the number of files, the run
    returns with a report in which the resolved groups are the groups,
    member for member, and for every resolved group: it has at least two
    members, none twice, all valid; it is a whole component, that is,
    a valid item is a member exactly when it is linked to a member in
    the similarity graph; the kept path together with the deletion
    candidates are exactly the paths of the members; and no path of a
    member is smaller than the kept path in the order of [str]. And two
    distinct valid items that are linked are members of one resolved
    group: every component of two items or more becomes a group. *)
Theorem groups_resolved fuel thr (fs : list Path) hst :
  length (hashes hst) = length fs -> (length fs <= fuel)%nat ->
  exists run rep,
    cluster fuel thr fs hst = Done run /\ report run = Some rep /\
    map members (resolved rep) = groups rep /\
    (forall R, R ∈ resolved rep ->
       (2 <= length (members R))%nat /\ NoDup (members R) /\
       (forall i, i ∈ members R -> valid (hashes hst) i) /\
       (forall i j, i ∈ members R -> valid (hashes hst) j ->
          (j ∈ members R <-> linked (similar thr (hashes hst)) i j)) /\
       exists paths,
         Forall2 (fun i q => fs !! i = Some q) (members R) paths /\
         keep R :: dupes R ≡ₚ paths /\
         forall q, q ∈ paths -> String.ltb q (keep R) = false) /\
    (forall i j, valid (hashes hst) i -> valid (hashes hst) j -> i <> j ->
       linked (similar thr (hashes hst)) i j ->
       exists R, R ∈ resolved rep /\ i ∈ members R /\ j ∈ members R).
Proof.
  intros Hlen Hfuel.
  destruct (cluster_spec fuel thr fs hst Hlen Hfuel)
    as (run & rep & comps & Hrun & _ & _ & _ & Hrep & _ & _ & _ & _ & Hcomps & Hperm & Hres).
  pose proof (groups_of_grouping _ _ _ _ Hcomps Hperm) as [Hg Hex].
  exists run, rep. split_and!; auto.
  - clear -Hres. induction Hres as [ | g R gs rs [Hm _] _ IH]; [reflexivity | ].
    simpl. now rewrite Hm, IH.
  - intros R HR.
    apply list_elem_of_lookup in HR as [pos HR].
    destruct (Forall2_lookup_r _ _ _ _ _ Hres HR) as (g & Hgpos & Hfor).
    apply list_elem_of_lookup_2 in Hgpos.
    pose proof Hfor as [Hmem _]. rewrite Hmem.
    destruct (Hg g Hgpos) as (Hlen2 & Hnd & Hv & Hcl).
    split_and!; auto.
    eapply resolved_keep; eauto.
  - intros i j Hvi Hvj Hne Hl.
    destruct (Hex i j Hvi Hvj Hne Hl) as (g & Hgin & Hi & Hj).
    apply list_elem_of_lookup in Hgin as [pos Hgpos].
    destruct (Forall2_lookup_l _ _ _ _ _ Hres Hgpos) as (R & HR & [Hmem _]).
    exists R. rewrite Hmem. split_and!; auto.
    eapply list_elem_of_lookup_2; eauto.
Qed.

Lemma groups_resolved_witness :
  exists run rep,
    cluster 3 0 demo_files demo_hashes = Done run /\ report run = Some rep /\
    map members (resolved rep) = groups rep /\
    (forall R, R ∈ resolved rep ->
       (2 <= length (members R))%nat /\ NoDup (members R) /\
       (forall i, i ∈ members R -> valid (hashes demo_hashes) i) /\
       (forall i j, i ∈ members R -> valid (hashes demo_hashes) j ->
          (j ∈ members R <-> linked (similar 0 (hashes demo_hashes)) i j)) /\
       exists paths,
         Forall2 (fun i q => demo_files !! i = Some q) (members R) paths /\
         keep R :: dupes R ≡ₚ paths /\
         forall q, q ∈ paths -> String.ltb q (keep R) = false) /\
    (forall i j, valid (hashes demo_hashes) i -> valid (hashes demo_hashes) j -> i <> j ->
       linked (similar 0 (hashes demo_hashes)) i j ->
       exists R, R ∈ resolved rep /\ i ∈ members R /\ j ∈ members R).
Proof.
  apply (groups_resolved 3 0 demo_files demo_hashes); [reflexivity | simpl; lia].
Defined.

End Resolution.

Section Thresholds.
Import AHash Hamming Main.
Local Open Scope Z_scope.

Lemma similar_mono T T' hs i j : T <= T' -> similar T hs i j -> similar T' hs i j.
Proof.
  intros HT (hi & hj & Hi & Hj & ? & ? & Hd). exists hi, hj. split_and!; auto. lia.
Qed.

(** Two members of a list of distinct items with two items or more. *)
Lemma two_members (g : list nat) :
  (2 <= length g)%nat -> NoDup g -> exists i j, i ∈ g /\ j ∈ g /\ i <> j.
Proof.
  destruct g as [ | i [ | j g]]; simpl; try lia. intros _ Hnd.
  exists i, j. split_and!; [now left | right; now left | ].
  apply NoDup_cons in Hnd as [Hi _]. intros ->. apply Hi. now left.
Qed.

(** C2. For every list of files and hash entries of the same length,
    fuel covering the number of files, and thresholds [T <= T']: both
    runs return with a report, and each group at threshold [T] is
    included in some group at threshold [T']. *)
Theorem threshold_monotonic fuel T T' (fs : list Path) hst :
  length (hashes hst) = length fs -> (length fs <= fuel)%nat -> T <= T' ->
  exists run rep run' rep',
    cluster fuel T fs hst = Done run /\ report run = Some rep /\
    cluster fuel T' fs hst = Done run' /\ report run' = Some rep' /\
    forall g, g ∈ groups rep ->
      exists g', g' ∈ groups rep' /\ forall i, i ∈ g -> i ∈ g'.
Proof.
  intros Hlen Hfuel HT.
  destruct (cluster_spec fuel T fs hst Hlen Hfuel)
    as (run & rep & comps & Hrun & _ & _ & _ & Hrep & _ & _ & _ & _ & Hc & Hperm & _).
  destruct (cluster_spec fuel T' fs hst Hlen Hfuel)
    as (run' & rep' & comps' & Hrun' & _ & _ & _ & Hrep' & _ & _ & _ & _ & Hc' & Hperm' & _).
  pose proof (groups_of_grouping _ _ _ _ Hc Hperm) as [Hg _].
  pose proof (groups_of_grouping _ _ _ _ Hc' Hperm') as [Hg' Hex'].
  exists run, rep, run', rep'. split_and!; auto.
  intros g Hin. destruct (Hg g Hin) as (Hlen2 & Hnd & Hv & Hcl).
  destruct (two_members g Hlen2 Hnd) as (i0 & i1 & Hi0 & Hi1 & Hne).
  assert (Hup : forall i, i ∈ g -> linked (similar T' (hashes hst)) i0 i).
  { intros i Hi. apply (linked_mono (similar T (hashes hst))).
    - intros a b. now apply similar_mono.
    - apply Hcl; auto. }
  destruct (Hex' i0 i1 (Hv i0 Hi0) (Hv i1 Hi1) Hne (Hup i1 Hi1)) as (g' & Hin' & Hi0' & _).
  exists g'. split; [assumption | ].
  intros i Hi. destruct (Hg' g' Hin') as (_ & _ & _ & Hcl').
  apply (Hcl' i0 i); auto.
Qed.

Lemma threshold_monotonic_witness :
  exists run rep run' rep',
    cluster 3 0 demo_files demo_hashes = Done run /\ report run = Some rep /\
    cluster 3 64 demo_files demo_hashes = Done run' /\ report run' = Some rep' /\
    forall g, g ∈ groups rep ->
      exists g', g' ∈ groups rep' /\ forall i, i ∈ g -> i ∈ g'.
Proof.
  apply (threshold_monotonic 3 0 64 demo_files demo_hashes);
    [reflexivity | simpl; lia | lia].
Defined.

(** With every entry under one key, there is one entry. *)
Lemma comps_single (comps : Comps) k l :
  NoDup (map fst comps) -> (k, l) ∈ comps ->
  (forall k' l', (k', l') ∈ comps -> k' = k /\ l' = l) -> comps = [(k, l)].
Proof.
  intros Hnd Hin Hall.
  destruct comps as [ | [k1 l1] [ | [k2 l2] comps]].
  - inversion Hin.
  - destruct (Hall k1 l1) as [-> ->]; [now left | reflexivity].
  - destruct (Hall k1 l1) as [-> ->]; [now left | ].
    destruct (Hall k2 l2) as [-> ->]; [right; now left | ].
    simpl in Hnd. apply NoDup_cons in Hnd as [Hk _]. elim Hk. now left.
Qed.

(** At threshold 0 the links are the equalities of fingerprints. *)
Lemma linked_zero hs i j :
  valid hs i -> valid hs j -> (linked (similar 0 hs) i j <-> hs !! i = hs !! j).
Proof.
  intros Hvi Hvj. split.
  - clear. induction 1 as [x | a b Hab | x y _ IH | x y z _ IH1 _ IH2];
      try congruence.
    destruct Hab as (hi & hj & Hi & Hj & _ & _ & Hd).
    pose proof (hamming_nonneg hi hj).
    assert (hamming hi hj = 0) as Hz by lia.
    apply (proj1 (hamming_zero_iff hi hj)) in Hz. congruence.
  - intros Heq. destruct Hvi as (hi & Hi & Hpos).
    apply linked_edge. exists hi, hi. rewrite hamming_self.
    split_and!; auto; try lia. congruence.
Qed.

(** At threshold 64 any two valid 64-bit fingerprints are similar. *)
Lemma similar_64 hs i j :
  (forall k h, hs !! k = Some h -> 0 <= h -> fingerprint64 h) ->
  valid hs i -> valid hs j -> similar 64 hs i j.
Proof.
  intros Hfp (hi & Hi & Hpi) (hj & Hj & Hpj). exists hi, hj.
  split_and!; auto. apply hamming_le_64; eauto.
Qed.

(** C8. For every list of files and hash entries of the same length
    whose valid entries are 64-bit fingerprints, and fuel covering the
    number of files: at threshold 64, when there are two distinct valid
    items, the run leaves exactly one group, and its members are exactly
    the valid items; at threshold 0, two distinct valid items are in a
    group together if and only if their fingerprints are the same. *)
Theorem threshold_extremes fuel (fs : list Path) hst :
  length (hashes hst) = length fs -> (length fs <= fuel)%nat ->
  (forall k h, hashes hst !! k = Some h -> 0 <= h -> fingerprint64 h) ->
  (exists run rep,
     cluster fuel 64 fs hst = Done run /\ report run = Some rep /\
     forall i j, valid (hashes hst) i -> valid (hashes hst) j -> i <> j ->
       exists g, groups rep = [g] /\ forall k, k ∈ g <-> valid (hashes hst) k) /\
  (exists run rep,
     cluster fuel 0 fs hst = Done run /\ report run = Some rep /\
     forall i j, valid (hashes hst) i -> valid (hashes hst) j -> i <> j ->
       ((exists g, g ∈ groups rep /\ i ∈ g /\ j ∈ g) <->
        hashes hst !! i = hashes hst !! j)).
Proof.
  intros Hlen Hfuel Hfp. split.
  - destruct (cluster_spec fuel 64 fs hst Hlen Hfuel)
      as (run & rep & comps & Hrun & _ & _ & _ & Hrep & _ & _ & _ & _ & Hc & Hperm & _).
    exists run, rep. split_and!; auto.
    intros i j Hvi Hvj Hne.
    assert (Hall : forall a b, valid (hashes hst) a -> valid (hashes hst) b ->
                     linked (similar 64 (hashes hst)) a b)
      by (intros; apply linked_edge, similar_64; auto).
    destruct (comp_exists 64 _ comps i j Hc Hvi Hvj (Hall i j Hvi Hvj))
      as (k & l & Hin & Hi & Hj).
    destruct (comp_members 64 _ comps k l Hc Hin) as (_ & Hnd & Hv & Hcl).
    assert (Hone : comps = [(k, l)]).
    { apply comps_single; [apply Hc | assumption | ].
      intros k' l' Hin'.
      destruct (comp_members 64 _ comps k' l' Hc Hin') as (Hnil & _ & Hv' & _).
      destruct l' as [ | i' l']; [congruence | ].
      assert (Hi' : i' ∈ i' :: l') by now left.
      destruct (comp_unique 64 _ comps k l k' (i' :: l') i i' Hc Hin Hin' Hi Hi') as [-> ->];
        auto. }
    assert (Hbig : (2 <= length l)%nat).
    { destruct l as [ | a [ | b l]]; simpl; try lia.
      - inversion Hi.
      - apply list_elem_of_singleton in Hi, Hj. congruence. }
    exists (sorted_by Nat.ltb l). split.
    + subst comps. unfold groups_of in Hperm. simpl in Hperm.
      rewrite filter_cons in Hperm.
      destruct (decide (Is_true (1 <? length l)%nat)) as [_ | Hsmall].
      * now apply Permutation_singleton_r in Hperm.
      * elim Hsmall. now apply big_iff.
    + intros m. rewrite sorted_by_perm. split; [apply Hv | ].
      intros Hvm. apply (Hcl i m); auto.
  - destruct (cluster_spec fuel 0 fs hst Hlen Hfuel)
      as (run & rep & comps & Hrun & _ & _ & _ & Hrep & _ & _ & _ & _ & Hc & Hperm & _).
    pose proof (groups_of_grouping _ _ _ _ Hc Hperm) as [Hg Hex].
    exists run, rep. split_and!; auto.
    intros i j Hvi Hvj Hne. rewrite <- (linked_zero _ i j Hvi Hvj). split.
    + intros (g & Hin & Hi & Hj). destruct (Hg g Hin) as (_ & _ & _ & Hcl).
      apply (Hcl i j); auto.
    + intros Hl. apply Hex; auto.
Qed.

Lemma threshold_extremes_witness :
  (exists run rep,
     cluster 3 64 demo_files demo_hashes = Done run /\ report run = Some rep /\
     forall i j, valid (hashes demo_hashes) i -> valid (hashes demo_hashes) j -> i <> j ->
       exists g, groups rep = [g] /\ forall k, k ∈ g <-> valid (hashes demo_hashes) k) /\
  (exists run rep,
     cluster 3 0 demo_files demo_hashes = Done run /\ report run = Some rep /\
     forall i j, valid (hashes demo_hashes) i -> valid (hashes demo_hashes) j -> i <> j ->
       ((exists g, g ∈ groups rep /\ i ∈ g /\ j ∈ g) <->
        hashes demo_hashes !! i = hashes demo_hashes !! j)).
Proof.
  apply (threshold_extremes 3 demo_files demo_hashes); [reflexivity | simpl; lia | ].
  intros k h Hk _. unfold fingerprint64.
  destruct k as [ | [ | [ | k]]]; simpl in Hk; try discriminate;
    injection Hk as <-; lia.
Defined.

End Thresholds.

(** * The scenarios of the specification *)

Section Scenarios.
Import Main.
Local Open Scope Z_scope.

(** Two identical fingerprints and a distant one at threshold 0. *)
Example scenario_identical :
  groups_at 0 demo_files [0; 0; 2 ^ 64 - 1] =
  Some [ {| members := [0; 1]%nat; keep := "a.jpg"; dupes := ["b.jpg"] |} ]%string.
Proof. vm_compute. reflexivity. Qed.

(** Distances 4, 4 and 8 at threshold 5: the three merge through the
    middle one. *)
Example scenario_chaining :
  groups_at 5 demo_files [0; 15; 255] =
  Some [ {| members := [0; 1; 2]%nat; keep := "a.jpg";
            dupes := ["b.jpg"; "c.jpg"] |} ]%string.
Proof. vm_compute. reflexivity. Qed.

(** No item, and items that all failed: no group, and no fuel needed. *)
Example scenario_empty : groups_at 10 [] [] = Some [].
Proof. reflexivity. Qed.

Example scenario_all_failed :
  cluster 0 10 demo_files {| hashes := [-1; -1; -1]; failures := []; hashed := [] |}
  = Done {| exit_code := 0; stderr := []; hash_calls := []; hamming_calls := [];
            report := Some {| thr_used := 10; files := demo_files;
                              file_hashes := [-1; -1; -1]; file_failures := [];
                              pairs_found := 0; groups := []; resolved := [];
                              kept_total := 0; delete_total := 0 |} |}.
Proof. reflexivity. Qed.

(** The whole run on the sample world: the file that does not decode is
    hashed, compared with nothing and grouped with nothing. *)
Example scenario_run :
  match main 3 demo_world default_args with
  | Done run =>
    exit_code run = 0 /\
    hash_calls run = ["a.jpg"; "b.jpg"; "bad.jpg"]%string /\
    hamming_calls run = [(0, 1)]%nat /\
    option_map groups (report run) = Some [[0; 1]%nat] /\
    option_map file_hashes (report run) = Some [2 ^ 63; 2 ^ 63; -1]
  | _ => False
  end.
Proof. vm_compute. repeat split. Qed.

End Scenarios.

(** * More on the Hamming distance *)

Section HammingMetric.
Import Hamming.
Local Open Scope Z_scope.

Lemma npop_double n : npop (N.double n) = npop n.
Proof. now destruct n. Qed.

Lemma npop_succ_double n : npop (N.succ_double n) = 1 + npop n.
Proof. now destruct n. Qed.

Lemma popcount_lxor p : forall q, npop (Pos.lxor p q) <= popcount p + popcount q.
Proof.
  induction p as [p IH | p IH | ]; intros [q | q | ];
    cbn [popcount];
    try change (Pos.lxor p~1 q~1) with (N.double (Pos.lxor p q));
    try change (Pos.lxor p~1 q~0) with (N.succ_double (Pos.lxor p q));
    try change (Pos.lxor p~0 q~1) with (N.succ_double (Pos.lxor p q));
    try change (Pos.lxor p~0 q~0) with (N.double (Pos.lxor p q));
    rewrite ?npop_double, ?npop_succ_double; simpl;
    try specialize (IH q); try pose proof (popcount_pos p); try pose proof (popcount_pos q);
    lia.
Qed.

Lemma bit_count_lxor x y :
  0 <= x -> 0 <= y -> bit_count (Z.lxor x y) <= bit_count x + bit_count y.
Proof.
  intros Hx Hy. destruct x as [ | p | p], y as [ | q | q]; try lia; simpl; try lia.
  change (Z.lxor (Z.pos p) (Z.pos q)) with (Z.of_N (Pos.lxor p q)).
  pose proof (popcount_lxor p q) as H. revert H.
  destruct (Pos.lxor p q); simpl; lia.
Qed.

(** X1. On non-negative integers [hamming] is a metric: the distance is
    0 exactly between equal values, and the distance from [a] to [c] is
    at most the distance from [a] to [b] plus that from [b] to [c]. *)
Theorem hamming_metric a b c :
  0 <= a -> 0 <= b -> 0 <= c ->
  (hamming a b = 0 <-> a = b) /\ hamming a c <= hamming a b + hamming b c.
Proof.
  intros Ha Hb Hc. split; [apply hamming_zero_iff | ].
  unfold hamming.
  replace (Z.lxor a c) with (Z.lxor (Z.lxor a b) (Z.lxor b c)).
  - apply bit_count_lxor; apply Z.lxor_nonneg; lia.
  - rewrite Z.lxor_assoc, <- (Z.lxor_assoc b b c), Z.lxor_nilpotent, Z.lxor_0_l.
    reflexivity.
Qed.

Lemma hamming_metric_witness :
  (hamming 0 15 = 0 <-> 0 = 15) /\ hamming 0 255 <= hamming 0 15 + hamming 15 255.
Proof. apply (hamming_metric 0 15 255); lia. Defined.

Lemma bit_count_div2 x : 0 <= x -> bit_count x = Z.b2z (Z.odd x) + bit_count (Z.div2 x).
Proof. intros Hx. destruct x as [ | [p | p | ] | p]; simpl; lia. Qed.

Lemma filter_fmap_length {A B} (f : A -> B) (P : B -> Prop) `{!forall y, Decision (P y)}
  (l : list A) :
  length (filter P (f <$> l)) = length (filter (fun x => P (f x)) l).
Proof.
  induction l as [ | a l IH]; [reflexivity | ].
  rewrite fmap_cons, !filter_cons. destruct (decide (P (f a))); simpl; now rewrite IH.
Qed.

(** The ones of [x] below [2 ^ n], counted one bit at a time. *)
Lemma bit_count_testbits (n : nat) : forall x,
  0 <= x < 2 ^ Z.of_nat n ->
  bit_count x = Z.of_nat (length (filter (fun k => Z.testbit x (Z.of_nat k) = true) (seq 0 n))).
Proof.
  induction n as [ | n IH]; intros x Hx.
  - simpl in Hx. assert (x = 0) by lia. subst. reflexivity.
  - rewrite bit_count_div2 by lia.
    rewrite (IH (Z.div2 x)).
    + change (seq 0 (S n)) with (0%nat :: seq 1 n).
      rewrite filter_cons, <- fmap_S_seq.
      rewrite <- Z.bit0_odd. change (Z.of_nat 0) with 0.
      assert (Hshift :
        length (filter (fun k => Z.testbit x (Z.of_nat k) = true) (S <$> seq 0 n))
        = length (filter (fun k => Z.testbit (Z.div2 x) (Z.of_nat k) = true) (seq 0 n))).
      { rewrite filter_fmap_length. f_equal. apply list_filter_iff. intros k.
        rewrite Z.div2_spec, Z.shiftr_spec by lia.
        now replace (Z.of_nat k + 1) with (Z.of_nat (S k)) by lia. }
      destruct (decide (Z.testbit x 0 = true)) as [Hb | Hb].
      * rewrite Hb. simpl length. rewrite Hshift. simpl Z.b2z. lia.
      * apply not_true_is_false in Hb. rewrite Hb, Hshift. simpl Z.b2z. lia.
    + rewrite Z.div2_div. rewrite Nat2Z.inj_succ, Z.pow_succ_r in Hx by lia.
      split; [apply Z.div_pos; lia | apply Z.div_lt_upper_bound; lia].
Qed.

(** X2. The Hamming distance of two 64-bit fingerprints is the number of
    bit positions, among the 64, at which they differ. *)
Theorem hamming_counts_differing_bits a b :
  fingerprint64 a -> fingerprint64 b -> hamming a b = differing_bits a b.
Proof.
  intros Ha Hb. unfold hamming, differing_bits.
  rewrite (bit_count_testbits 64) by (apply lxor_bound; [lia | assumption ..]).
  do 2 f_equal. apply list_filter_iff. intros k.
  rewrite Z.lxor_spec.
  destruct (Z.testbit a (Z.of_nat k)), (Z.testbit b (Z.of_nat k)); simpl;
    split; congruence.
Qed.

Lemma hamming_counts_differing_bits_witness : hamming 0 15 = differing_bits 0 15.
Proof. apply (hamming_counts_differing_bits 0 15); unfold fingerprint64; lia. Defined.

End HammingMetric.

(** * More on the average hash *)

Section PackFacts.
Import AHash.
Local Open Scope Z_scope.

















End PackFacts.

(** * More on the disjoint sets *)

Section DSUFacts.

(** [find] with the ranks it leaves alone. *)
Lemma find_ok_rank n fuel d x :
  DSU_ok n d -> x < n -> n <= fuel ->
  exists d' rt,
    DSU.find fuel d x = Done (d', rt) /\
    root_of (DSU.p d) x rt /\
    DSU_ok n d' /\
    (forall y rt', root_of (DSU.p d') y rt' <-> root_of (DSU.p d) y rt') /\
    DSU.r d' = DSU.r d.
Proof.
  intros (Hp & Hr & Hrk) Hx Hfuel.
  destruct (find_spec (rank_of d) fuel d x) as (d' & rt & Hf & Hroot & Hr' & Hlen & Hrk' & Heq).
  - assumption.
  - lia.
  - rewrite Hp. pose proof (above_lt (rank_of d) n x Hx). lia.
  - exists d', rt. split_and!; auto.
    unfold DSU_ok. rewrite (rank_of_ext d d' Hr'), Hr', Hlen. auto.
Qed.

Lemma roots_same p p' :
  (forall y rt, root_of p' y rt <-> root_of p y rt) ->
  forall k, p' !! k = Some k <-> p !! k = Some k.
Proof.
  intros Heq k. split; intros Hk.
  - eapply root_of_is_root. apply Heq. now constructor.
  - eapply root_of_is_root. apply Heq. now constructor.
Qed.

Lemma find_at_root fuel d rt :
  DSU.p d !! rt = Some rt -> DSU.find (S fuel) d rt = Done (d, rt).
Proof.
  intros Hrt. simpl. rewrite (getitem_Done _ _ _ Hrt). simpl.
  now rewrite Nat.eqb_refl.
Qed.

(** X6. On a well-formed structure, with fuel for every index, [find]
    is idempotent and stable: once [find(x)] has returned a root, [find]
    of that root returns it again and changes nothing, and a second
    [find(x)] returns the same root. *)
Theorem find_idempotent n fuel d x :
  DSU_ok n d -> x < n -> n <= fuel ->
  exists d' rt,
    DSU.find fuel d x = Done (d', rt) /\
    DSU.find fuel d' rt = Done (d', rt) /\
    exists d'', DSU.find fuel d' x = Done (d'', rt).
Proof.
  intros Hok Hx Hfuel.
  destruct (find_ok n fuel d x Hok Hx Hfuel) as (d' & rt & Hf & Hroot & Hok' & Heq).
  exists d', rt. split_and!; auto.
  - destruct fuel as [ | fuel]; [lia | ]. apply find_at_root.
    apply (roots_same _ _ Heq). eapply root_of_is_root; eauto.
  - destruct (find_ok n fuel d' x Hok' Hx Hfuel) as (d'' & rt' & Hf' & Hroot' & _).
    exists d''. rewrite Hf'. do 2 f_equal.
    apply Heq in Hroot'. eapply root_of_unique; eauto.
Qed.

Lemma find_idempotent_witness :
  exists d' rt,
    DSU.find 3 (DSU.init 3) 2 = Done (d', rt) /\
    DSU.find 3 d' rt = Done (d', rt) /\
    exists d'', DSU.find 3 d' 2 = Done (d'', rt).
Proof. apply (find_idempotent 3 3 (DSU.init 3) 2); [apply init_ok | lia | lia]. Defined.

(** X7. On a well-formed structure, with fuel for every index, the path
    compression of [find] changes no rank, no length, no root and no
    set: two items are in the same set after the call if and only if
    they were before it. *)
Theorem find_keeps_sets n fuel d x :
  DSU_ok n d -> x < n -> n <= fuel ->
  exists d' rt,
    DSU.find fuel d x = Done (d', rt) /\
    DSU.r d' = DSU.r d /\
    length (DSU.p d') = length (DSU.p d) /\
    (forall k, DSU.p d' !! k = Some k <-> DSU.p d !! k = Some k) /\
    (forall y z, same_set (DSU.p d') y z <-> same_set (DSU.p d) y z).
Proof.
  intros Hok Hx Hfuel.
  destruct (find_ok_rank n fuel d x Hok Hx Hfuel)
    as (d' & rt & Hf & _ & (Hlen' & _) & Heq & Hr).
  exists d', rt. split_and!; auto.
  - destruct Hok as [Hlen _]. congruence.
  - now apply roots_same.
  - now apply same_set_ext.
Qed.

Lemma find_keeps_sets_witness :
  exists d' rt,
    DSU.find 3 {| DSU.p := [0; 0; 1]; DSU.r := [2; 1; 0] |} 2 = Done (d', rt) /\
    DSU.r d' = [2; 1; 0] /\
    length (DSU.p d') = 3 /\
    (forall k, DSU.p d' !! k = Some k <-> [0; 0; 1] !! k = Some k) /\
    (forall y z, same_set (DSU.p d') y z <-> same_set [0; 0; 1] y z).
Proof.
  apply (find_keeps_sets 3 3 {| DSU.p := [0; 0; 1]; DSU.r := [2; 1; 0] |} 2); try lia.
  split_and!; try reflexivity.
  intros x y Hxy. simpl.
  destruct x as [ | [ | [ | x]]]; simpl in Hxy; try discriminate;
    injection Hxy as <-; unfold rank_of; simpl; lia.
Defined.

(** X8. A read out of range is an error and never a result: on a
    well-formed structure over [n] items, [find] of an index that is not
    below [n], and [union] with such an index on either side, end in
    [IndexError]. *)
Theorem index_out_of_range n fuel d a b :
  DSU_ok n d -> n <= fuel -> 0 < fuel -> n <= b ->
  DSU.find fuel d b = IndexError /\
  DSU.union fuel d b a = IndexError /\
  (a < n -> DSU.union fuel d a b = IndexError).
Proof.
  intros Hok Hfuel Hpos Hb.
  assert (Hfind : forall d0, DSU_ok n d0 -> DSU.find fuel d0 b = IndexError).
  { intros d0 (Hlen & _). destruct fuel as [ | fuel]; [lia | ]. simpl.
    unfold getitem. rewrite lookup_ge_None_2 by lia. reflexivity. }
  split_and!.
  - now apply Hfind.
  - unfold DSU.union. now rewrite Hfind.
  - intros Ha. unfold DSU.union.
    destruct (find_ok n fuel d a Hok Ha Hfuel) as (d1 & ra & -> & _ & Hok1 & _).
    simpl. now rewrite Hfind.
Qed.

Lemma index_out_of_range_witness :
  DSU.find 3 (DSU.init 3) 3 = IndexError /\
  DSU.union 3 (DSU.init 3) 3 0 = IndexError /\
  (0 < 3 -> DSU.union 3 (DSU.init 3) 0 3 = IndexError).
Proof. apply (index_out_of_range 3 3 (DSU.init 3) 0 3); [apply init_ok | lia ..]. Defined.

(** X9. On a well-formed structure, with fuel for every index,
    [union] is commutative and idempotent on the sets: [union(a, b)] and
    [union(b, a)] leave the same sets, with [a] and [b] together, and a
    second [union(a, b)] changes no set. *)
Theorem union_commutes n fuel d a b :
  DSU_ok n d -> a < n -> b < n -> n <= fuel ->
  exists d1 d2 d3,
    DSU.union fuel d a b = Done d1 /\
    DSU.union fuel d b a = Done d2 /\
    DSU.union fuel d1 a b = Done d3 /\
    same_set (DSU.p d1) a b /\
    forall x y,
      (same_set (DSU.p d1) x y <-> same_set (DSU.p d2) x y) /\
      (same_set (DSU.p d3) x y <-> same_set (DSU.p d1) x y).
Proof.
  intros Hok Ha Hb Hfuel.
  destruct (union_spec n fuel d a b Hok Ha Hb Hfuel) as (d1 & Hu1 & Hok1 & Hj1).
  destruct (union_spec n fuel d b a Hok Hb Ha Hfuel) as (d2 & Hu2 & _ & Hj2).
  destruct (union_spec n fuel d1 a b Hok1 Ha Hb Hfuel) as (d3 & Hu3 & _ & Hj3).
  destruct (find_ok n fuel d a Hok Ha Hfuel) as (_ & ra & _ & Hra & _).
  destruct (find_ok n fuel d b Hok Hb Hfuel) as (_ & rb & _ & Hrb & _).
  assert (Hab : same_set (DSU.p d1) a b).
  { apply Hj1. right. left. split; eapply same_set_refl; eauto. }
  exists d1, d2, d3. split_and!; auto.
  intros x y. split.
  - rewrite Hj1, Hj2. unfold joined. tauto.
  - rewrite Hj3. unfold joined. split; [ | tauto].
    intros [H | [[H1 H2] | [H1 H2]]]; [assumption | | ].
    + eapply same_set_trans; [exact H1 | ]. eapply same_set_trans; [exact Hab | exact H2].
    + eapply same_set_trans; [exact H1 | ].
      eapply same_set_trans; [apply same_set_sym; exact Hab | exact H2].
Qed.

Lemma union_commutes_witness :
  exists d1 d2 d3,
    DSU.union 3 (DSU.init 3) 0 2 = Done d1 /\
    DSU.union 3 (DSU.init 3) 2 0 = Done d2 /\
    DSU.union 3 d1 0 2 = Done d3 /\
    same_set (DSU.p d1) 0 2 /\
    forall x y,
      (same_set (DSU.p d1) x y <-> same_set (DSU.p d2) x y) /\
      (same_set (DSU.p d3) x y <-> same_set (DSU.p d1) x y).
Proof. apply (union_commutes 3 3 (DSU.init 3) 0 2); [apply init_ok | lia ..]. Defined.

End DSUFacts.

(** ** Union by rank *)

Section RankBound.

(** What [union] does, case by case: nothing more than the two [find]
    calls when the roots are the same, and otherwise the link of the
    root [lo] under the root [hi], whose rank is not the smaller one and
    goes up by one when the two ranks are the same. *)
Lemma union_shape n fuel d a b :
  DSU_ok n d -> a < n -> b < n -> n <= fuel ->
  exists d2 ra rb,
    DSU_ok n d2 /\
    (forall y rt, root_of (DSU.p d2) y rt <-> root_of (DSU.p d) y rt) /\
    DSU.r d2 = DSU.r d /\
    root_of (DSU.p d) a ra /\ root_of (DSU.p d) b rb /\
    ((ra = rb /\ DSU.union fuel d a b = Done d2) \/
     (ra <> rb /\ exists hi lo khi klo,
        ((hi = ra /\ lo = rb) \/ (hi = rb /\ lo = ra)) /\
        DSU.r d2 !! hi = Some khi /\ DSU.r d2 !! lo = Some klo /\ klo <= khi /\
        DSU.union fuel d a b =
        Done {| DSU.p := <[lo:=hi]> (DSU.p d2);
                DSU.r := if khi =? klo then <[hi:=khi + 1]> (DSU.r d2) else DSU.r d2 |})).
Proof.
  intros Hok Ha Hb Hfuel.
  destruct (find_ok_rank n fuel d a Hok Ha Hfuel) as (d1 & ra & Hf1 & Hra & Hok1 & Heq1 & Hr1).
  destruct (find_ok_rank n fuel d1 b Hok1 Hb Hfuel) as (d2 & rb & Hf2 & Hrb & Hok2 & Heq2 & Hr2).
  assert (Heq : forall y rt, root_of (DSU.p d2) y rt <-> root_of (DSU.p d) y rt)
    by (intros; rewrite Heq2; apply Heq1).
  apply Heq1 in Hrb.
  exists d2, ra, rb. split_and!; auto; [congruence | ].
  unfold DSU.union. rewrite Hf1. simpl. rewrite Hf2. simpl.
  destruct (Nat.eqb_spec ra rb) as [-> | Hne]; [left; auto | right].
  split; [assumption | ].
  pose proof Hok2 as (Hp2 & Hlr2 & _).
  assert (Hralt : ra < n).
  { rewrite <- Hp2. eapply root_of_lt. apply Heq. exact Hra. }
  assert (Hrblt : rb < n).
  { rewrite <- Hp2. eapply root_of_lt. apply Heq. exact Hrb. }
  destruct (lookup_lt_is_Some_2 (DSU.r d2) ra) as [rka Hka]; [lia | ].
  destruct (lookup_lt_is_Some_2 (DSU.r d2) rb) as [rkb Hkb]; [lia | ].
  rewrite (getitem_Done _ _ _ Hka). simpl.
  rewrite (getitem_Done _ _ _ Hkb). simpl.
  destruct (Nat.ltb_spec rka rkb) as [Hlt | Hge].
  - exists rb, ra, rkb, rka. split_and!; auto; [lia | ].
    rewrite setitem_Done by lia. simpl.
    rewrite (getitem_Done _ _ _ Hkb). simpl.
    rewrite (getitem_Done _ _ _ Hka). simpl.
    destruct (Nat.eqb_spec rkb rka) as [? | _]; [lia | reflexivity].
  - exists ra, rb, rka, rkb. split_and!; auto.
    rewrite setitem_Done by lia. simpl.
    rewrite (getitem_Done _ _ _ Hka). simpl.
    rewrite (getitem_Done _ _ _ Hkb). simpl.
    destruct (Nat.eqb_spec rka rkb) as [Heqk | Hnek]; [ | reflexivity].
    rewrite setitem_Done by lia. reflexivity.
Qed.

Lemma sized_ext d d' :
  (forall y rt, root_of (DSU.p d') y rt <-> root_of (DSU.p d) y rt) ->
  DSU.r d' = DSU.r d -> sized d -> sized d'.
Proof.
  intros Heq Hr Hs k Hk. apply (roots_same _ _ Heq) in Hk.
  destruct (Hs k Hk) as (l & Hnd & Hmem & Hsize).
  exists l. split_and!; auto.
  - intros x Hx. apply Heq. auto.
  - now rewrite (rank_of_ext d d' Hr).
Qed.

Lemma sized_init n : sized (DSU.init n).
Proof.
  intros k Hk. exists [k]. split_and!.
  - apply NoDup_singleton.
  - intros x Hx. apply list_elem_of_singleton in Hx. subst. now constructor.
  - unfold rank_of, DSU.init. simpl in *. apply lookup_seq in Hk as [_ Hk].
    rewrite lookup_replicate_2 by assumption. simpl. lia.
Qed.

Lemma sized_link d hi lo khi klo :
  sized d ->
  DSU.p d !! hi = Some hi -> DSU.p d !! lo = Some lo -> hi <> lo ->
  DSU.r d !! hi = Some khi -> DSU.r d !! lo = Some klo -> klo <= khi ->
  sized {| DSU.p := <[lo:=hi]> (DSU.p d);
           DSU.r := if khi =? klo then <[hi:=khi + 1]> (DSU.r d) else DSU.r d |}.
Proof.
  intros Hs Hhi Hlo Hne Hkhi Hklo Hle k Hk. simpl in Hk.
  assert (Hklo' : k <> lo).
  { intros ->. rewrite (link_lookup_rb _ _ _ Hlo) in Hk. congruence. }
  rewrite (link_lookup_ne (DSU.p d) hi lo k Hklo') in Hk.
  destruct (Hs k Hk) as (l & Hnd & Hmem & Hsize).
  destruct (decide (k = hi)) as [-> | Hkhi'].
  - destruct (Hs lo Hlo) as (l' & Hnd' & Hmem' & Hsize').
    exists (l ++ l'). split_and!.
    + apply NoDup_app. split_and!; auto.
      intros x Hx Hx'. apply Hne. eapply root_of_unique; eauto.
    + intros x Hx. simpl. apply elem_of_app in Hx as [Hx | Hx].
      * apply (link_kept (DSU.p d) hi lo Hlo x hi); auto.
      * apply (link_moved (DSU.p d) hi lo Hhi Hlo Hne x lo); auto.
    + rewrite length_app. unfold rank_of in *. simpl.
      rewrite Hkhi in Hsize. rewrite Hklo in Hsize'. simpl in *.
      destruct (Nat.eqb_spec khi klo) as [-> | Hneq].
      * rewrite list_lookup_insert_eq by (eapply lookup_lt_Some; eauto). simpl.
        rewrite Nat.add_1_r, Nat.pow_succ_r'. lia.
      * rewrite Hkhi. simpl. lia.
  - exists l. split_and!; auto.
    + intros x Hx. simpl. apply (link_kept (DSU.p d) hi lo Hlo x k); auto.
    + unfold rank_of in *. simpl.
      destruct (khi =? klo); [ | assumption].
      now rewrite list_lookup_insert_ne by congruence.
Qed.

(** [union] keeps the structure well formed and its sets large. *)
Lemma union_sized n fuel d a b :
  DSU_ok n d -> sized d -> a < n -> b < n -> n <= fuel ->
  exists d', DSU.union fuel d a b = Done d' /\ DSU_ok n d' /\ sized d'.
Proof.
  intros Hok Hs Ha Hb Hfuel.
  destruct (union_spec n fuel d a b Hok Ha Hb Hfuel) as (d' & Hu & Hok' & _).
  exists d'. split_and!; auto.
  destruct (union_shape n fuel d a b Hok Ha Hb Hfuel)
    as (d2 & ra & rb & Hok2 & Heq & Hr & Hra & Hrb & Hcase).
  pose proof (sized_ext d d2 Heq Hr Hs) as Hs2.
  apply Heq in Hra, Hrb.
  pose proof (root_of_is_root _ _ _ Hra) as Hpra.
  pose proof (root_of_is_root _ _ _ Hrb) as Hprb.
  destruct Hcase as [[_ Hu'] | (Hne & hi & lo & khi & klo & Hsel & Hkhi & Hklo & Hle & Hu')];
    rewrite Hu in Hu'; injection Hu' as ->; [assumption | ].
  destruct Hsel as [[-> ->] | [-> ->]]; apply sized_link; auto.
Qed.

Lemma ranked_root h p x rt : ranked h p -> root_of p x rt -> h x <= h rt.
Proof.
  intros Hr. induction 1 as [x Hx | x y rt Hx Hne _ IH]; [lia | ].
  destruct (Hr x y Hx) as [_ Hh]. specialize (Hh Hne). lia.
Qed.

(** X10. After any sequence of [union] calls on a fresh structure over
    [n] items, with indices below [n] and fuel for every index, every
    stored rank [r] satisfies [2 ^ r <= n]: no rank exceeds the binary
    logarithm of the number of items. *)
Theorem rank_bound n fuel us :
  n <= fuel -> Forall (valid_pair n) us ->
  exists d,
    unions fuel (DSU.init n) us = Done d /\
    forall x, x < n -> 2 ^ rank_of d x <= n /\ rank_of d x <= Nat.log2 n.
Proof.
  intros Hfuel Hus.
  assert (Hgen : forall d0, DSU_ok n d0 -> sized d0 ->
            exists d, unions fuel d0 us = Done d /\ DSU_ok n d /\ sized d).
  { induction us as [ | [a b] us IH]; intros d0 Hok Hs.
    - exists d0. auto.
    - apply Forall_cons in Hus as [[Ha Hb] Hus]. simpl in Ha, Hb.
      destruct (union_sized n fuel d0 a b Hok Hs Ha Hb Hfuel) as (d1 & Hu & Hok1 & Hs1).
      destruct (IH Hus d1 Hok1 Hs1) as (d & Hd & Hokd & Hsd).
      exists d. unfold unions in *. simpl. rewrite Hu. simpl. auto. }
  destruct (Hgen (DSU.init n) (init_ok n) (sized_init n)) as (d & Hd & Hok & Hs).
  exists d. split; [assumption | ]. intros x Hx.
  destruct (find_ok n fuel d x Hok Hx Hfuel) as (_ & rt & _ & Hroot & _).
  pose proof Hok as (Hlen & _ & Hrk).
  pose proof (ranked_root _ _ _ _ Hrk Hroot) as Hle.
  destruct (Hs rt (root_of_is_root _ _ _ Hroot)) as (l & Hnd & Hmem & Hsize).
  assert (Hl : length l <= n).
  { assert (Hsub : length l <= length (seq 0 n)); [ | now rewrite length_seq in Hsub].
    apply submseteq_length, NoDup_submseteq; [assumption | ].
    intros y Hy. apply elem_of_seq. specialize (Hmem y Hy).
    apply root_of_lt in Hmem as [Hy' _]. lia. }
  assert (Hpow : 2 ^ rank_of d x <= n).
  { transitivity (2 ^ rank_of d rt); [apply Nat.pow_le_mono_r; lia | lia]. }
  split; [assumption | ]. apply Nat.log2_le_pow2; [lia | assumption].
Qed.

Lemma rank_bound_witness :
  exists d,
    unions 4 (DSU.init 4) [(0, 1); (2, 3); (0, 2)] = Done d /\
    forall x, x < 4 -> 2 ^ rank_of d x <= 4 /\ rank_of d x <= Nat.log2 4.
Proof.
  apply (rank_bound 4 4 [(0, 1); (2, 3); (0, 2)]); [lia | ].
  repeat constructor; simpl; lia.
Defined.

End RankBound.

(** * More on the run *)

(** A loop over [range(a, a + k)] that has run to its end has kept every
    invariant that each of its turns keeps. *)
Lemma foldM_seq_post {St} (body : St -> nat -> outcome St) (I : nat -> St -> Prop) :
  forall k a s s',
    foldM body s (seq a k) = Done s' ->
    I a s ->
    (forall i s0 s1, a <= i < a + k -> I i s0 -> body s0 i = Done s1 -> I (S i) s1) ->
    I (a + k) s'.
Proof.
  induction k as [ | k IH]; intros a s s' Hrun Ha Hstep; simpl in Hrun.
  - injection Hrun as <-. now rewrite Nat.add_0_r.
  - destruct (body s a) as [s1 | | ] eqn:Hb; simpl in Hrun; try discriminate.
    replace (a + S k) with (S a + k) by lia.
    apply (IH (S a) s1 s' Hrun).
    + apply (Hstep a s s1); [lia | assumption ..].
    + intros i s0 s2 Hi. apply Hstep. lia.
Qed.

Section Trace.
Import Hamming Main.
Variables (n fuel : nat) (thr : Z) (hs : list Z).
Hypothesis Hlen : length hs = n.

Lemma trace_inv_ext i j i' j' st :
  (forall a b, a < b -> b < n -> valid hs a -> valid hs b ->
     ((a < i \/ (a = i /\ b < j)) <-> (a < i' \/ (a = i' /\ b < j')))) ->
  trace_inv n thr hs i j st -> trace_inv n thr hs i' j' st.
Proof.
  intros Hext (Hnd & Hmem & Hpairs). split_and!; auto.
  intros a b. rewrite Hmem. split; intros (H1 & H2 & H3 & H4 & H5); split_and!; auto;
    eapply Hext; eauto.
Qed.

Lemma compare_inner_trace i hi st j st' :
  hs !! i = Some hi -> (0 <= hi)%Z -> i < j -> j < n ->
  compare_inner fuel thr hs i hi st j = Done st' ->
  trace_inv n thr hs i j st -> trace_inv n thr hs i (S j) st'.
Proof.
  intros Hi Hhi Hij Hj Hrun Hinv.
  destruct (lookup_lt_is_Some_2 hs j) as [hj Hhj]; [lia | ].
  unfold compare_inner in Hrun. rewrite (getitem_Done _ _ _ Hhj) in Hrun. simpl in Hrun.
  assert (Hvi : valid hs i) by (exists hi; auto).
  destruct (Z.ltb_spec hj 0) as [Hneg | Hpos].
  - injection Hrun as <-. eapply trace_inv_ext; [ | exact Hinv].
    intros a b Hab Hb Hva (h & Hh & Hh0). split; [intuition lia | ].
    intros [Ha | [-> Hb']]; [now left | right]. split; [reflexivity | ].
    destruct (decide (b = j)) as [-> | ?]; [ | lia].
    rewrite Hhj in Hh. injection Hh as <-. lia.
  - assert (Hvj : valid hs j) by (exists hj; auto).
    destruct Hinv as (Hnd & Hmem & Hpairs).
    assert (Hfresh : (i, j) ∉ compared st).
    { intros Hin. apply Hmem in Hin. lia. }
    assert (Hclose : close thr hs (i, j) = (hamming hi hj <=? thr)%Z).
    { unfold close. simpl. now rewrite Hi, Hhj. }
    assert (Hgoal : forall st1,
      compared st1 = compared st ++ [(i, j)] ->
      pairs st1 = (pairs st + (if (hamming hi hj <=? thr)%Z then 1 else 0))%Z ->
      trace_inv n thr hs i (S j) st1).
    { intros st1 Hc Hp. split_and!.
      - rewrite Hc. apply NoDup_app. split_and!; [assumption | | apply NoDup_singleton].
        intros x Hx Hx'. apply list_elem_of_singleton in Hx'. now subst.
      - intros a b. rewrite Hc, elem_of_app, list_elem_of_singleton, Hmem. split.
        + intros [H | [= -> ->]]; [intuition lia | ]. split_and!; auto; lia.
        + intros (H1 & H2 & H3 & H4 & [H5 | [-> H5]]); [left; split_and!; auto | ].
          destruct (decide (b = j)) as [-> | ?]; [now right | left].
          split_and!; auto. right. split; [reflexivity | lia].
      - rewrite Hp, Hc, filter_app, length_app, Hpairs, filter_cons, filter_nil.
        destruct (decide (Is_true (close thr hs (i, j)))) as [Hc1 | Hc1];
          rewrite Hclose in Hc1.
        + apply Is_true_true in Hc1. rewrite Hc1. simpl. lia.
        + apply Is_true_false in Hc1. rewrite Hc1. simpl. lia. }
    destruct (hamming hi hj <=? thr)%Z.
    + destruct (DSU.union fuel (dsu st) i j) as [d' | | ]; simpl in Hrun; try discriminate.
      injection Hrun as <-. now apply Hgoal.
    + injection Hrun as <-. apply Hgoal; simpl; [reflexivity | lia].
Qed.

Lemma compare_outer_trace st i st' :
  i < n -> compare_outer fuel thr hs n st i = Done st' ->
  trace_inv n thr hs i 0 st -> trace_inv n thr hs (S i) 0 st'.
Proof.
  intros Hi Hrun Hinv.
  destruct (lookup_lt_is_Some_2 hs i) as [hi Hhi]; [lia | ].
  unfold compare_outer in Hrun. rewrite (getitem_Done _ _ _ Hhi) in Hrun. simpl in Hrun.
  destruct (Z.ltb_spec hi 0) as [Hneg | Hpos].
  - injection Hrun as <-. eapply trace_inv_ext; [ | exact Hinv].
    intros a b Hab Hb (h & Hh & Hh0) Hvb. split; [intuition lia | ].
    intros [Ha | [? ?]]; [left | lia].
    destruct (decide (a = i)) as [-> | ?]; [ | lia].
    rewrite Hhi in Hh. injection Hh as <-. lia.
  - unfold range in Hrun.
    pose proof (foldM_seq_post (compare_inner fuel thr hs i hi)
                  (fun j st => trace_inv n thr hs i j st)
                  (n - (i + 1)) (i + 1) st st' Hrun) as Hpost.
    eapply trace_inv_ext; [ | apply Hpost].
    + intros a b Hab Hb _ _. replace (i + 1 + (n - (i + 1))) with n by lia. lia.
    + eapply trace_inv_ext; [ | exact Hinv]. intros a b Hab _ _ _. lia.
    + intros j s0 s1 Hj Hs0 Hb. eapply compare_inner_trace; eauto; lia.
Qed.

(** When the comparison loop has run to its end, every pair of valid
    items is recorded once, smaller index first, and [pairs] counts the
    recorded pairs that passed the test. *)
Lemma compare_all_trace st :
  compare_all fuel thr hs n = Done st -> trace_inv n thr hs n 0 st.
Proof.
  intros Hrun. unfold compare_all, range in Hrun.
  pose proof (foldM_seq_post (compare_outer fuel thr hs n)
                (fun i st => trace_inv n thr hs i 0 st) (n - 0) 0 _ st Hrun) as Hpost.
  replace (0 + (n - 0)) with n in Hpost by lia. apply Hpost.
  - split_and!; simpl; [constructor | | reflexivity].
    intros a b. rewrite elem_of_nil. lia.
  - intros i s0 s1 Hi Hs0 Hb. eapply compare_outer_trace; eauto. lia.
Qed.

End Trace.

Section ClusterFacts.
Import AHash Hamming Main.
Local Open Scope Z_scope.

(** Lines 141-199 step by step, on hash and file lists of the same
    length and with fuel for every index. *)
Lemma cluster_run fuel thr (fs : list Path) hst :
  length (hashes hst) = length fs -> (length fs <= fuel)%nat ->
  exists st d' comps gs rs,
    compare_all fuel thr (hashes hst) (length fs) = Done st /\
    collect fuel (hashes hst) (length fs) (dsu st) = Done (d', comps) /\
    components thr (hashes hst) comps /\
    sort_groups fs (groups_of comps) = Done gs /\ gs ≡ₚ groups_of comps /\
    mapM (resolve fs) gs = Done rs /\ Forall2 (resolved_for fs) gs rs /\
    cluster fuel thr fs hst =
    Done {| exit_code := 0; stderr := [];
            hash_calls := hashed hst; hamming_calls := compared st;
            report := Some {| thr_used := thr; files := fs;
                              file_hashes := hashes hst;
                              file_failures := failures hst;
                              pairs_found := pairs st;
                              groups := gs; resolved := rs;
                              kept_total := Z.of_nat (length rs);
                              delete_total :=
                                fold_left (fun acc g => acc + Z.of_nat (length (dupes g)))
                                          rs 0 |} |}.
Proof.
  intros Hlen Hfuel. unfold cluster.
  destruct (compare_all_spec (length fs) fuel thr (hashes hst) Hlen Hfuel)
    as (st & Hst & Hok & Hsets & Hcmp).
  destruct (collect_spec (length fs) fuel (hashes hst) (dsu st) Hlen Hfuel Hok)
    as (d' & comps & Hcol & Hnd & Hent).
  assert (Hc : components thr (hashes hst) comps).
  { split; [assumption | ]. exists (dsu st). rewrite Hlen. auto. }
  pose proof (groups_of_grouping thr (hashes hst) comps (groups_of comps) Hc
                (reflexivity _)) as [Hg _].
  assert (Hidx : forall g i, g ∈ groups_of comps -> i ∈ g -> (i < length fs)%nat).
  { intros g i Hin Hi. destruct (Hg g Hin) as (_ & _ & Hv & _).
    rewrite <- Hlen. apply valid_lt. auto. }
  destruct (sort_groups_spec fs (groups_of comps) Hidx) as (gs & Hgs & Hperm).
  destruct (resolve_all fs gs) as (rs & Hrs & Hres).
  { intros g Hin. rewrite Hperm in Hin. split.
    - destruct (Hg g Hin) as (Hlen2 & _). intros ->. simpl in Hlen2. lia.
    - intros i Hi. eapply Hidx; eauto. }
  exists st, d', comps, gs, rs. split_and!; auto.
  rewrite Hst. simpl. rewrite Hcol. simpl. rewrite Hgs. simpl. rewrite Hrs. reflexivity.
Qed.

Lemma close_similar thr hs a b :
  valid hs a -> valid hs b -> (close thr hs (a, b) = true <-> similar thr hs a b).
Proof.
  intros (x & Hx & Hx0) (y & Hy & Hy0). unfold close, similar. simpl.
  rewrite Hx, Hy, Z.leb_le. split.
  - intros Hd. exists x, y. auto 6.
  - intros (x' & y' & Hx' & Hy' & _ & _ & Hd). congruence.
Qed.

(** X11. For every list of files and hash entries of the same length,
    every threshold and fuel covering the number of files, the run
    returns and has called [hamming] exactly once on every pair of
    distinct valid items, smaller index first, and on nothing else. *)
Theorem every_pair_compared_once fuel thr (fs : list Path) hst :
  length (hashes hst) = length fs -> (length fs <= fuel)%nat ->
  exists run,
    cluster fuel thr fs hst = Done run /\
    NoDup (hamming_calls run) /\
    forall a b, (a, b) ∈ hamming_calls run <->
      (a < b)%nat /\ valid (hashes hst) a /\ valid (hashes hst) b.
Proof.
  intros Hlen Hfuel.
  destruct (cluster_run fuel thr fs hst Hlen Hfuel)
    as (st & d' & comps & gs & rs & Hst & _ & _ & _ & _ & _ & _ & Hrun).
  pose proof (compare_all_trace (length fs) fuel thr (hashes hst) Hlen st Hst)
    as (Hnd & Hmem & _).
  eexists. split; [exact Hrun | ]. simpl. split; [assumption | ].
  intros a b. rewrite Hmem. split; [tauto | ].
  intros (Hab & Ha & Hb). pose proof (valid_lt _ _ Hb). split_and!; auto; lia.
Qed.

Lemma every_pair_compared_once_witness :
  exists run,
    cluster 3 0 demo_files demo_hashes = Done run /\
    NoDup (hamming_calls run) /\
    forall a b, (a, b) ∈ hamming_calls run <->
      (a < b)%nat /\ valid (hashes demo_hashes) a /\ valid (hashes demo_hashes) b.
Proof.
  apply (every_pair_compared_once 3 0 demo_files demo_hashes); [reflexivity | simpl; lia].
Defined.

(** X12. For every list of files and hash entries of the same length, every
    threshold and fuel covering the number of files, [pairs] in
    the report of lines 141-199 is the number
    of compared pairs whose distance is within the threshold, and it is
    0 exactly when the run finds no group. *)
Theorem pairs_found_counts fuel thr (fs : list Path) hst :
  length (hashes hst) = length fs -> (length fs <= fuel)%nat ->
  exists run rep,
    cluster fuel thr fs hst = Done run /\ report run = Some rep /\
    pairs_found rep =
      Z.of_nat (length (filter (fun ab => close thr (hashes hst) ab) (hamming_calls run))) /\
    (pairs_found rep = 0 <-> groups rep = []).
Proof.
  intros Hlen Hfuel.
  destruct (cluster_run fuel thr fs hst Hlen Hfuel)
    as (st & d' & comps & gs & rs & Hst & _ & Hc & _ & Hperm & _ & _ & Hrun).
  pose proof (compare_all_trace (length fs) fuel thr (hashes hst) Hlen st Hst)
    as (Hnd & Hmem & Hpairs).
  pose proof (groups_of_grouping _ _ _ _ Hc Hperm) as [Hg Hex].
  rewrite Hrun. eexists _, _. split; [reflexivity | ].
  split; [reflexivity | ]. simpl.
  split; [assumption | ].
  rewrite Hpairs. split.
  - intros Hz.
    assert (Hnone : forall a b, ~ sim_edge thr (hashes hst) a b).
    { intros a b [Hab Hs]. pose proof (similar_valid _ _ _ _ Hs) as [Ha Hb].
      assert (Hin : (a, b) ∈ filter (fun ab => close thr (hashes hst) ab) (compared st)).
      { apply list_elem_of_filter. split.
        - apply Is_true_true. now apply close_similar.
        - apply Hmem. pose proof (valid_lt _ _ Hb). split_and!; auto; lia. }
      destruct (filter _ (compared st)); [inversion Hin | simpl in Hz; lia]. }
    destruct gs as [ | g gs]; [reflexivity | exfalso].
    destruct (Hg g ltac:(now left)) as (Hlen2 & Hndg & Hv & Hcl).
    destruct (two_members g Hlen2 Hndg) as (i0 & i1 & Hi0 & Hi1 & Hne).
    apply Hne. apply (linked_empty i0 i1).
    apply (linked_mono (sim_edge thr (hashes hst))); [intros a b H; exact (Hnone a b H) | ].
    apply linked_sim_edge. apply Hcl; auto.
  - intros ->.
    destruct (filter _ (compared st)) as [ | [a b] l] eqn:Hf; [reflexivity | exfalso].
    assert (Hin : (a, b) ∈ filter (fun ab => close thr (hashes hst) ab) (compared st))
      by (rewrite Hf; now left).
    apply list_elem_of_filter in Hin as [Hcl Hin].
    apply Hmem in Hin as (Hab & _ & Ha & Hb & _).
    apply Is_true_true, close_similar in Hcl; auto.
    destruct (Hex a b Ha Hb ltac:(lia) (linked_edge _ _ _ Hcl)) as (g & Hgin & _).
    inversion Hgin.
Qed.

Lemma pairs_found_counts_witness :
  exists run rep,
    cluster 3 0 demo_files demo_hashes = Done run /\ report run = Some rep /\
    pairs_found rep =
      Z.of_nat (length (filter (fun ab => close 0 (hashes demo_hashes) ab)
                               (hamming_calls run))) /\
    (pairs_found rep = 0 <-> groups rep = []).
Proof.
  apply (pairs_found_counts 3 0 demo_files demo_hashes); [reflexivity | simpl; lia].
Defined.

End ClusterFacts.

Section Disjoint.
Import AHash Hamming Main.
Local Open Scope Z_scope.

Lemma concat_perm {A} (ls ls' : list (list A)) : ls ≡ₚ ls' -> concat ls ≡ₚ concat ls'.
Proof.
  induction 1 as [ | l ls ls' _ IH | l1 l2 ls | ls1 ls2 ls3 _ IH1 _ IH2]; simpl.
  - reflexivity.
  - now rewrite IH.
  - rewrite !app_assoc. f_equiv. apply Permutation_app_comm.
  - now rewrite IH1.
Qed.

Lemma concat_fmap_perm {A} (f : list A -> list A) (ls : list (list A)) :
  (forall l, f l ≡ₚ l) -> concat (map f ls) ≡ₚ concat ls.
Proof.
  intros Hf. induction ls as [ | l ls IH]; simpl; [reflexivity | ].
  now rewrite Hf, IH.
Qed.

Lemma elem_of_concat {A} (x : A) (ls : list (list A)) :
  x ∈ concat ls <-> exists l, x ∈ l /\ l ∈ ls.
Proof.
  induction ls as [ | l ls IH]; simpl.
  - split; [intros H; inversion H | intros (l & _ & H); inversion H].
  - rewrite elem_of_app, IH. split.
    + intros [H | (l' & H & H')]; [exists l; split; [auto | now left] | ].
      exists l'. split; [auto | now right].
    + intros (l' & H & H'). apply elem_of_cons in H' as [-> | H']; [now left | ].
      right. now exists l'.
Qed.

Lemma concat_filter_NoDup {A} (P : list A -> Prop) `{!forall l, Decision (P l)}
  (ls : list (list A)) :
  NoDup (concat ls) -> NoDup (concat (filter P ls)).
Proof.
  induction ls as [ | l ls IH]; simpl; [auto | ].
  intros Hnd. apply NoDup_app in Hnd as (Hl & Hdis & Hrest).
  rewrite filter_cons. destruct (decide (P l)); [ | auto].
  simpl. apply NoDup_app. split_and!; auto.
  intros x Hx Hx'. apply (Hdis x Hx).
  apply elem_of_concat in Hx' as (l' & Hxl' & Hl').
  apply elem_of_concat. exists l'. split; [assumption | ].
  now apply list_elem_of_filter in Hl' as [_ ?].
Qed.

(** No item is under two keys of [comps]. *)
Lemma comps_concat_NoDup thr hs comps :
  components thr hs comps -> NoDup (concat (map snd comps)).
Proof.
  intros Hc.
  assert (Hgen : forall cs, (forall kl, kl ∈ cs -> kl ∈ comps) -> NoDup (map fst cs) ->
                   NoDup (concat (map snd cs))).
  { induction cs as [ | [k l] cs IH]; intros Hsub Hnd; simpl; [constructor | ].
    simpl in Hnd. apply NoDup_cons in Hnd as [Hk Hnd].
    assert (Hkl : (k, l) ∈ comps) by (apply Hsub; now left).
    destruct (comp_members thr hs comps k l Hc Hkl) as (_ & Hndl & _ & Hcl).
    apply NoDup_app.
    split_and!; [assumption | | apply IH; auto; intros; apply Hsub; now right].
    intros x Hx Hx'.
    apply elem_of_concat in Hx' as (l' & Hxl' & Hl').
    apply list_elem_of_fmap in Hl' as ([k' l''] & -> & Hin'). simpl in Hxl'.
    assert (Hkl' : (k', l'') ∈ comps) by (apply Hsub; now right).
    destruct (comp_unique thr hs comps k l k' l'' x x Hc Hkl Hkl' Hx Hxl'
                (linked_refl _ _)) as [-> _].
    apply Hk. apply list_elem_of_fmap. now exists (k', l''). }
  apply Hgen; [auto | apply Hc].
Qed.

Lemma nat_sorted_strict (l : list nat) :
  NoDup l -> StronglySorted (fun a b => Nat.ltb b a = false) l ->
  StronglySorted (fun a b => a < b)%nat l.
Proof.
  induction 2 as [ | a l Hs IH Hall]; [constructor | ].
  apply NoDup_cons in H as [Ha Hnd].
  constructor; [auto | ].
  rewrite Forall_forall in *. intros b Hb. specialize (Hall b Hb).
  apply Nat.ltb_ge in Hall.
  assert (a <> b) by (intros ->; contradiction). lia.
Qed.

(** X13. For every list of files and hash entries of the same length, every
    threshold and fuel covering the number of files, no item is
    in two groups of the report or twice in
    a group, and every group lists its members by increasing index. *)
Theorem groups_disjoint_sorted fuel thr (fs : list Path) hst :
  length (hashes hst) = length fs -> (length fs <= fuel)%nat ->
  exists run rep,
    cluster fuel thr fs hst = Done run /\ report run = Some rep /\
    NoDup (concat (groups rep)) /\
    forall g, g ∈ groups rep -> StronglySorted (fun a b => a < b)%nat g.
Proof.
  intros Hlen Hfuel.
  destruct (cluster_spec fuel thr fs hst Hlen Hfuel)
    as (run & rep & comps & Hrun & _ & _ & _ & Hrep & _ & _ & _ & _ & Hc & Hperm & _).
  exists run, rep. split_and!; auto.
  - rewrite (concat_perm _ _ Hperm). unfold groups_of.
    rewrite (concat_fmap_perm _ _ (sorted_by_perm Nat.ltb)).
    apply concat_filter_NoDup. eapply comps_concat_NoDup; eauto.
  - intros g Hg. rewrite Hperm in Hg.
    apply groups_of_elem in Hg as (k & l & Hin & _ & ->).
    destruct (comp_members thr _ comps k l Hc Hin) as (_ & Hnd & _).
    apply nat_sorted_strict; [now rewrite sorted_by_perm | ].
    apply sorted_by_sorted.
    + intros x y Hxy. apply Nat.ltb_lt in Hxy. apply Nat.ltb_ge. lia.
    + intros x y z Hyx Hzy. apply Nat.ltb_ge in Hyx, Hzy. apply Nat.ltb_ge. lia.
Qed.

Lemma groups_disjoint_sorted_witness :
  exists run rep,
    cluster 3 0 demo_files demo_hashes = Done run /\ report run = Some rep /\
    NoDup (concat (groups rep)) /\
    forall g, g ∈ groups rep -> StronglySorted (fun a b => a < b)%nat g.
Proof.
  apply (groups_disjoint_sorted 3 0 demo_files demo_hashes); [reflexivity | simpl; lia].
Defined.

Lemma resolved_dupes_length (fs : list Path) g R :
  resolved_for fs g R -> S (length (dupes R)) = length g.
Proof.
  intros (_ & paths & Hpaths & Hs).
  apply Forall2_length in Hpaths. rewrite Hpaths.
  pose proof (sorted_by_perm String.ltb paths) as Hp. rewrite <- Hs in Hp.
  apply Permutation_length in Hp. simpl in Hp. exact Hp.
Qed.

Lemma delete_total_sum (fs : list Path) gs rs : Forall2 (resolved_for fs) gs rs ->
  forall acc,
    fold_left (fun acc g => acc + Z.of_nat (length (dupes g))) rs acc
    = acc + Z.of_nat (length (concat gs)) - Z.of_nat (length rs).
Proof.
  induction 1 as [ | g R gs rs HR _ IH]; intros acc; simpl; [lia | ].
  rewrite IH, length_app. apply resolved_dupes_length in HR. lia.
Qed.

(** X14. For every list of files and hash entries of the same length, every
    threshold and fuel covering the number of files, the
    report counts one kept file per
    group, and the kept files and the proposed deletions together are as
    many as the members of the groups; every group proposes at least one
    deletion. *)
Theorem totals_add_up fuel thr (fs : list Path) hst :
  length (hashes hst) = length fs -> (length fs <= fuel)%nat ->
  exists run rep,
    cluster fuel thr fs hst = Done run /\ report run = Some rep /\
    kept_total rep = Z.of_nat (length (groups rep)) /\
    kept_total rep + delete_total rep = Z.of_nat (length (concat (groups rep))) /\
    kept_total rep <= delete_total rep.
Proof.
  intros Hlen Hfuel.
  destruct (cluster_run fuel thr fs hst Hlen Hfuel)
    as (st & d' & comps & gs & rs & _ & _ & Hc & _ & Hperm & _ & Hres & Hrun).
  pose proof (groups_of_grouping _ _ _ _ Hc Hperm) as [Hg _].
  rewrite Hrun. eexists _, _. split; [reflexivity | ]. split; [reflexivity | ]. simpl.
  rewrite (delete_total_sum fs gs rs Hres).
  pose proof (Forall2_length _ _ _ Hres) as Hl.
  split_and!; try lia.
  assert (Hbig : (2 * length gs <= length (concat gs))%nat).
  { clear -Hg. induction gs as [ | g gs IH]; simpl; [lia | ].
    rewrite length_app. destruct (Hg g ltac:(now left)) as [Hlen2 _].
    assert ((2 * length gs <= length (concat gs))%nat)
      by (apply IH; intros; apply Hg; now right).
    lia. }
  lia.
Qed.

Lemma totals_add_up_witness :
  exists run rep,
    cluster 3 0 demo_files demo_hashes = Done run /\ report run = Some rep /\
    kept_total rep = Z.of_nat (length (groups rep)) /\
    kept_total rep + delete_total rep = Z.of_nat (length (concat (groups rep))) /\
    kept_total rep <= delete_total rep.
Proof.
  apply (totals_add_up 3 0 demo_files demo_hashes); [reflexivity | simpl; lia].
Defined.

(** X15. When the root exists and the threshold is within 0 and 64, with
    fuel covering the number of files, [main] calls [ahash] once on each
    discovered file, in ascending order of [str(path)], whether or not
    the call raises; the report lists the files in that order with one
    hash entry each. *)
Theorem every_file_hashed_once fuel w args :
  root_exists w = true -> 0 <= effective_threshold args <= 64 ->
  (length (image_paths w) <= fuel)%nat ->
  exists run rep,
    main fuel w args = Done run /\ report run = Some rep /\
    hash_calls run ≡ₚ image_paths w /\
    StronglySorted (fun a b => String.ltb b a = false) (hash_calls run) /\
    files rep = hash_calls run /\
    length (file_hashes rep) = length (files rep).
Proof.
  intros Hroot Hthr Hfuel.
  rewrite (main_in_range fuel w args Hroot Hthr), hash_all_eq.
  set (fs := sorted_by String.ltb (image_paths w)).
  destruct (cluster_spec fuel (effective_threshold args) fs
              {| hashes := map (hash_entry (backend w)) fs;
                 failures := omap (failure_entry (backend w)) fs; hashed := fs |})
    as (run & rep & comps & Hrun & _ & Hcalls & _ & Hrep & _ & Hfiles & Hhashes & _).
  - simpl. now rewrite length_map.
  - unfold fs. now rewrite sorted_by_perm.
  - simpl in *. exists run, rep. rewrite Hcalls, Hfiles, Hhashes.
    split_and!; auto.
    + apply sorted_by_perm.
    + apply sorted_by_sorted; [apply string_ltb_asym | apply string_le_trans].
    + now rewrite length_map.
Qed.

Lemma every_file_hashed_once_witness :
  exists run rep,
    main 3 demo_world default_args = Done run /\ report run = Some rep /\
    hash_calls run ≡ₚ image_paths demo_world /\
    StronglySorted (fun a b => String.ltb b a = false) (hash_calls run) /\
    files rep = hash_calls run /\
    length (file_hashes rep) = length (files rep).
Proof.
  apply (every_file_hashed_once 3 demo_world default_args);
    [reflexivity | vm_compute; split; discriminate | simpl; lia].
Defined.

(** X16. [mode_to_threshold] yields 5, 10 or 16 for every string, so
    without an explicit threshold a run whose root exists is never
    rejected: it goes on to hash and cluster the sorted files with one of
    these three thresholds. *)
Theorem no_override_never_rejected fuel w args :
  threshold args = None -> root_exists w = true ->
  (forall m, mode_to_threshold m = 5 \/ mode_to_threshold m = 10 \/ mode_to_threshold m = 16) /\
  (effective_threshold args = 5 \/ effective_threshold args = 10 \/
   effective_threshold args = 16) /\
  main fuel w args =
  cluster fuel (effective_threshold args) (sorted_by String.ltb (image_paths w))
          (hash_all (backend w) (sorted_by String.ltb (image_paths w))).
Proof.
  intros Hnone Hroot.
  assert (Hm : forall m, mode_to_threshold m = 5 \/ mode_to_threshold m = 10 \/
                         mode_to_threshold m = 16).
  { intros m. unfold mode_to_threshold.
    destruct (_ || _); [auto | ]. destruct (_ || _); auto. }
  assert (He : effective_threshold args = mode_to_threshold (mode args))
    by (unfold effective_threshold; now rewrite Hnone).
  split_and!; [exact Hm | rewrite He; apply Hm | ].
  apply main_in_range; [assumption | ]. rewrite He.
  destruct (Hm (mode args)) as [-> | [-> | ->]]; lia.
Qed.

Lemma no_override_never_rejected_witness :
  (forall m, mode_to_threshold m = 5 \/ mode_to_threshold m = 10 \/ mode_to_threshold m = 16) /\
  (effective_threshold default_args = 5 \/ effective_threshold default_args = 10 \/
   effective_threshold default_args = 16) /\
  main 3 demo_world default_args =
  cluster 3 (effective_threshold default_args)
          (sorted_by String.ltb (image_paths demo_world))
          (hash_all (backend demo_world) (sorted_by String.ltb (image_paths demo_world))).
Proof. apply (no_override_never_rejected 3 demo_world default_args); reflexivity. Defined.

End Disjoint.

(** * The removal of files *)

Section RemoveAll.

Local Open Scope Z_scope.

Lemma remove_Ok f d f' :
  FS.remove f d = Ok f' <->
  removable f d /\ f' = {| FS.present := FS.present f ∖ {[d]}; FS.denied := FS.denied f |}.
Proof.
  unfold FS.remove, removable.
  destruct (decide (d ∈ FS.present f)) as [Hin | Hnot].
  - destruct (FS.denied f d) as [e | ]; split.
    + discriminate.
    + intros [[_ ?] _]. discriminate.
    + intros [= <-]. auto.
    + intros [_ ->]. reflexivity.
  - split; [discriminate | ]. intros [[? _] _]. contradiction.
Qed.

Lemma remove_Raise f d e : FS.remove f d = Raise e -> ~ removable f d.
Proof.
  unfold FS.remove, removable. intros H [Hin Hd].
  destruct (decide (d ∈ FS.present f)); [ | contradiction].
  rewrite Hd in H. discriminate.
Qed.

Lemma remove_all_app f l1 l2 :
  remove_all f (l1 ++ l2) =
  (let '(f1, k1, ls1) := remove_all f l1 in
   let '(f2, k2, ls2) := remove_all f1 l2 in (f2, k1 + k2, ls1 ++ ls2)).
Proof.
  revert f. induction l1 as [ | d l1 IH]; intros f; simpl.
  - destruct (remove_all f l2) as [[f2 k2] ls2]. reflexivity.
  - destruct (FS.remove f d) as [f' | e].
    + rewrite IH. destruct (remove_all f' l1) as [[f1 k1] ls1].
      destruct (remove_all f1 l2) as [[f2 k2] ls2]. f_equal. f_equal. lia.
    + rewrite IH. destruct (remove_all f l1) as [[f1 k1] ls1].
      destruct (remove_all f1 l2) as [[f2 k2] ls2]. reflexivity.
Qed.

(** What is left after the removal of a list of paths: the files that
    were there, less the removable ones of the list. The count is the
    number of files gone, and the lines name them. *)
Lemma remove_all_spec ds : forall f f' k ls,
  remove_all f ds = (f', k, ls) ->
  FS.denied f' = FS.denied f /\
  (forall x, x ∈ FS.present f' <-> x ∈ FS.present f /\ ~ (x ∈ ds /\ FS.denied f x = None)) /\
  k = Z.of_nat (size (FS.present f)) - Z.of_nat (size (FS.present f')) /\
  (forall d, DelLine d ∈ ls <-> d ∈ ds /\ removable f d) /\
  (forall e, e ∈ ls -> exists d, d ∈ ds /\ (e = DelLine d \/ exists err, e = FailLine d err)).
Proof.
  induction ds as [ | d ds IH]; intros f f' k ls; simpl.
  - intros [= <- <- <-]. split_and!; auto.
    + intros x. split; [ | tauto]. intros Hx. split; [assumption | ].
      intros [H _]. inversion H.
    + lia.
    + intros d. split; [intros H; inversion H | intros [H _]; inversion H].
    + intros e H. inversion H.
  - destruct (FS.remove f d) as [f1 | err] eqn:Hrm.
    + apply remove_Ok in Hrm as [[Hin Hden] ->].
      destruct (remove_all _ ds) as [[f2 k2] ls2] eqn:Hrest.
      intros [= <- <- <-].
      destruct (IH _ _ _ _ Hrest) as (Hd & Hp & Hk & Hl & Hall). simpl in *.
      split_and!; auto.
      * intros x. rewrite Hp, elem_of_difference, elem_of_singleton, elem_of_cons.
        split.
        -- intros [[Hx Hne] Hnot]. split; [assumption | ]. intros [[-> | Hx'] Hdx]; tauto.
        -- intros [Hx Hnot]. split_and!; [assumption | | ].
           ++ intros ->. apply Hnot. auto.
           ++ intros [Hx' Hdx]. apply Hnot. auto.
      * rewrite Hk. rewrite (size_difference (FS.present f) {[d]}), size_singleton.
        -- assert (size (FS.present f) <> 0%nat).
           { apply size_non_empty_iff. intros Hempty. rewrite Hempty in Hin.
             now apply not_elem_of_empty in Hin. }
           lia.
        -- now apply singleton_subseteq_l.
      * intros d'. rewrite elem_of_cons, Hl, elem_of_cons. unfold removable. simpl.
        rewrite elem_of_difference, elem_of_singleton. split.
        -- intros [[= ->] | (Hd' & (Hin' & Hne) & Hden')]; auto.
        -- intros ([-> | Hd'] & Hin' & Hden'); [now left | ].
           destruct (decide (d' = d)) as [-> | Hne]; [now left | right; auto].
      * intros e. rewrite elem_of_cons. intros [-> | He].
        -- exists d. split; [now left | now left].
        -- destruct (Hall e He) as (d' & Hd' & He'). exists d'. split; [now right | assumption].
    + pose proof (remove_Raise _ _ _ Hrm) as Hnr.
      destruct (remove_all f ds) as [[f2 k2] ls2] eqn:Hrest.
      intros [= <- <- <-].
      destruct (IH _ _ _ _ Hrest) as (Hd & Hp & Hk & Hl & Hall).
      split_and!; auto.
      * intros x. rewrite Hp, elem_of_cons. split.
        -- intros [Hx Hnot]. split; [assumption | ].
           intros [[-> | Hx'] Hdx]; [apply Hnr; split; assumption | tauto].
        -- intros [Hx Hnot]. split; [assumption | ]. tauto.
      * intros d'. rewrite elem_of_cons, Hl, elem_of_cons. split.
        -- intros [[=] | [Hd' Hr]]; auto.
        -- intros [[-> | Hd'] Hr]; [contradiction | auto].
      * intros e. rewrite elem_of_cons. intros [-> | He].
        -- exists d. split; [now left | right; eauto].
        -- destruct (Hall e He) as (d' & Hd' & He'). exists d'. split; [now right | assumption].
Qed.

(** The files named on [DEL] lines are the files gone. *)
Lemma remove_all_lines ds f f' k ls :
  remove_all f ds = (f', k, ls) ->
  forall d, DelLine d ∈ ls <-> d ∈ FS.present f /\ d ∉ FS.present f'.
Proof.
  intros Hrun d.
  destruct (remove_all_spec ds f f' k ls Hrun) as (_ & Hp & _ & Hl & _).
  rewrite Hl, Hp. unfold removable. split.
  - intros (Hd & Hin & Hden). split; [assumption | ]. intros [_ Hnot]. apply Hnot. auto.
  - intros [Hin Hnot]. destruct (decide (d ∈ ds)) as [Hd | Hd].
    + destruct (FS.denied f d) eqn:Hden; [ | auto].
      exfalso. apply Hnot. split; [assumption | ]. intros [_ ?]. discriminate.
    + exfalso. apply Hnot. split; [assumption | ]. tauto.
Qed.

End RemoveAll.

Section RemovalFacts.

Import Main Removal.
Local Open Scope Z_scope.

Lemma remove_dupes_eq ds : forall st,
  fold_left remove_dupe ds st =
  let '(f, k, ls) := remove_all (fsys st) ds in
  {| fsys := f; removed := removed st + k; lines := lines st ++ ls |}.
Proof.
  induction ds as [ | d ds IH]; intros st; simpl.
  - destruct st as [f r ls]. simpl. f_equal; [lia | now rewrite app_nil_r].
  - rewrite IH. unfold remove_dupe.
    destruct (FS.remove (fsys st) d) as [f' | e]; simpl.
    + destruct (remove_all f' ds) as [[f2 k2] ls2].
      f_equal; [lia | now rewrite <- app_assoc].
    + destruct (remove_all (fsys st) ds) as [[f2 k2] ls2].
      f_equal. now rewrite <- app_assoc.
Qed.

(** One group of the removal loop, in terms of the resolution the review
    made of it. *)
Lemma remove_group_resolve (fs : list Path) st gi g R :
  resolve fs g = Done R ->
  remove_group fs st (gi, g) =
  Done (let '(f, k, ls) := remove_all (fsys st) (dupes R) in
        {| fsys := f; removed := removed st + k;
           lines := lines st ++ [GroupLine gi (length g); KeepLine (keep R)] ++ ls |}).
Proof.
  unfold resolve, remove_group. intros H.
  destruct (mapM (getitem fs) g) as [paths | | ] eqn:Hp; simpl in *; try discriminate.
  destruct (getitem (sorted_by String.ltb paths) 0) as [q | | ] eqn:Hq; simpl in *;
    try discriminate.
  injection H as <-. simpl.
  rewrite remove_dupes_eq. simpl.
  apply mapM_Done, Forall2_length in Hp. rewrite <- Hp.
  destruct (remove_all (fsys st) _) as [[f k] ls]. f_equal. f_equal.
  now rewrite <- app_assoc.
Qed.

Lemma remove_groups_spec (fs : list Path) gs rs :
  Forall2 (fun g R => resolve fs g = Done R) gs rs ->
  forall a st, exists st',
    foldM (remove_group fs) st (combine (seq a (length gs)) gs) = Done st' /\
    fsys st' = (remove_all (fsys st) (concat (map dupes rs))).1.1 /\
    removed st' = removed st + (remove_all (fsys st) (concat (map dupes rs))).1.2 /\
    (forall d, DelLine d ∈ lines st' <->
       DelLine d ∈ lines st \/
       DelLine d ∈ (remove_all (fsys st) (concat (map dupes rs))).2) /\
    (forall R, R ∈ rs -> KeepLine (keep R) ∈ lines st') /\
    (forall e, e ∈ lines st -> e ∈ lines st').
Proof.
  induction 1 as [ | g R gs rs HR _ IH]; intros a st;
    cbn [length seq combine foldM map concat].
  - exists st. simpl. split_and!; auto; try lia.
    + intros d. split; [auto | ]. intros [? | H]; [assumption | inversion H].
    + intros R H. inversion H.
  - rewrite (remove_group_resolve fs st a g R HR), remove_all_app.
    cbn [mbind outcome_bind].
    destruct (remove_all (fsys st) (dupes R)) as [[f1 k1] ls1] eqn:H1.
    match goal with |- context [foldM _ ?s _] => set (st1 := s) end.
    destruct (IH (S a) st1) as (st' & Hrun & Hf & Hk & Hl & Hkeep & Hmono).
    subst st1. simpl in *.
    destruct (remove_all f1 (concat (map dupes rs))) as [[f2 k2] ls2] eqn:H2.
    simpl in *. exists st'. split_and!; auto; try lia.
    + intros d. rewrite Hl, !elem_of_app, !elem_of_cons. split.
      * intros [[? | [[=] | [[=] | ?]]] | ?]; auto.
      * intros [? | [? | ?]]; auto.
    + intros R'. rewrite elem_of_cons. intros [-> | HR']; [ | auto].
      apply Hmono. rewrite !elem_of_app, !elem_of_cons. auto.
    + intros e He. apply Hmono. rewrite elem_of_app. auto.
Qed.

Lemma lookup_NoDup {A} (fs : list A) (idxs : list nat) (paths : list A) :
  NoDup fs -> NoDup idxs -> Forall2 (fun i q => fs !! i = Some q) idxs paths ->
  NoDup paths.
Proof.
  intros Hfs Hnd H. induction H as [ | i q idxs paths Hi H IH]; [constructor | ].
  apply NoDup_cons in Hnd as [Hnot Hnd]. apply NoDup_cons. split; [ | auto].
  intros Hq. apply Hnot.
  apply list_elem_of_lookup in Hq as [n Hn].
  destruct (Forall2_lookup_r _ _ _ _ _ H Hn) as (j & Hj & Hfj).
  rewrite (NoDup_lookup fs i j q Hfs Hi Hfj).
  apply list_elem_of_lookup. eauto.
Qed.

Lemma resolved_paths (fs : list Path) gs rs :
  Forall2 (resolved_for fs) gs rs ->
  exists paths,
    Forall2 (fun i q => fs !! i = Some q) (concat gs) paths /\
    concat (map (fun R => keep R :: dupes R) rs) ≡ₚ paths.
Proof.
  induction 1 as [ | g R gs rs (_ & ps & Hps & Hs) _ (paths & Hpaths & Hperm)]; simpl.
  - exists []. split; constructor.
  - exists (ps ++ paths). split; [now apply Forall2_app | ].
    change (keep R :: dupes R ++ concat (map (fun R => keep R :: dupes R) rs))
      with ((keep R :: dupes R) ++ concat (map (fun R => keep R :: dupes R) rs)).
    rewrite Hs, sorted_by_perm, Hperm. reflexivity.
Qed.

Lemma NoDup_concat_unique {A} (ls : list (list A)) l l' x :
  NoDup (concat ls) -> l ∈ ls -> l' ∈ ls -> x ∈ l -> x ∈ l' -> l = l'.
Proof.
  induction ls as [ | a ls IH]; simpl; intros Hnd Hl Hl' Hx Hx'; [inversion Hl | ].
  apply NoDup_app in Hnd as (_ & Hdis & Hnd).
  apply elem_of_cons in Hl as [-> | Hl], Hl' as [-> | Hl']; auto.
  - exfalso. apply (Hdis x Hx). apply elem_of_concat. eauto.
  - exfalso. apply (Hdis x Hx'). apply elem_of_concat. eauto.
Qed.

Lemma NoDup_concat_each {A} (ls : list (list A)) l :
  NoDup (concat ls) -> l ∈ ls -> NoDup l.
Proof.
  induction ls as [ | a ls IH]; simpl; intros Hnd Hl; [inversion Hl | ].
  apply NoDup_app in Hnd as (Ha & _ & Hnd).
  apply elem_of_cons in Hl as [-> | Hl]; auto.
Qed.

(** With distinct files and disjoint groups, the path a group keeps is
    no deletion candidate of any group. *)
Lemma keep_no_dupe (fs : list Path) gs rs R R' :
  NoDup fs -> NoDup (concat gs) -> Forall2 (resolved_for fs) gs rs ->
  R ∈ rs -> R' ∈ rs -> keep R ∉ dupes R'.
Proof.
  intros Hfs Hgs Hres HR HR' Hin.
  destruct (resolved_paths fs gs rs Hres) as (paths & Hpaths & Hperm).
  pose proof (lookup_NoDup fs _ _ Hfs Hgs Hpaths) as Hnd.
  rewrite <- Hperm in Hnd.
  set (L := map (fun R => keep R :: dupes R) rs) in *.
  assert (HL : keep R :: dupes R ∈ L) by (apply list_elem_of_fmap; eauto).
  assert (HL' : keep R' :: dupes R' ∈ L) by (apply list_elem_of_fmap; eauto).
  assert (Heq : keep R :: dupes R = keep R' :: dupes R').
  { apply (NoDup_concat_unique L _ _ (keep R) Hnd HL HL'); [now left | now right]. }
  injection Heq as Hk Hd.
  pose proof (NoDup_concat_each L _ Hnd HL') as Hnd'.
  apply NoDup_cons in Hnd' as [Hnot _]. apply Hnot. now rewrite <- Hk.
Qed.

Lemma groups_concat_NoDup thr hs comps gs :
  components thr hs comps -> gs ≡ₚ groups_of comps -> NoDup (concat gs).
Proof.
  intros Hc Hperm. rewrite (concat_perm _ _ Hperm). unfold groups_of.
  rewrite (concat_fmap_perm _ _ (sorted_by_perm Nat.ltb)).
  apply concat_filter_NoDup. eapply comps_concat_NoDup; eauto.
Qed.

(** A run of [main] to its end on a root that exists, with a threshold
    within 0 and 64 and fuel for every file. *)
Lemma main_delete_run fuel w args fsys0 :
  root_exists w = true -> 0 <= effective_threshold args <= 64 ->
  (length (image_paths w) <= fuel)%nat ->
  exists run rep st,
    main fuel w args = Done run /\ report run = Some rep /\
    main_delete fuel w args fsys0 = Done (run, st) /\
    files rep = sorted_by String.ltb (image_paths w) /\
    Forall2 (resolved_for (files rep)) (groups rep) (resolved rep) /\
    NoDup (concat (groups rep)) /\
    (delete args && yes args = false ->
     st = {| fsys := fsys0; removed := 0; lines := [] |}) /\
    (delete args && yes args = true ->
     fsys st = (remove_all fsys0 (concat (map dupes (resolved rep)))).1.1 /\
     removed st = (remove_all fsys0 (concat (map dupes (resolved rep)))).1.2 /\
     (forall d, DelLine d ∈ lines st <->
        DelLine d ∈ (remove_all fsys0 (concat (map dupes (resolved rep)))).2) /\
     (forall R, R ∈ resolved rep -> KeepLine (keep R) ∈ lines st)).
Proof.
  intros Hroot Hthr Hfuel. unfold main_delete.
  rewrite (main_in_range fuel w args Hroot Hthr), hash_all_eq.
  set (fs := sorted_by String.ltb (image_paths w)).
  destruct (cluster_run fuel (effective_threshold args) fs
              {| hashes := map (hash_entry (backend w)) fs;
                 failures := omap (failure_entry (backend w)) fs; hashed := fs |})
    as (cst & d' & comps & gs & rs & _ & _ & Hc & _ & Hperm & Hmap & Hres & Hrun).
  { simpl. now rewrite length_map. }
  { unfold fs. now rewrite sorted_by_perm. }
  rewrite Hrun. simpl.
  apply mapM_Done in Hmap.
  destruct (remove_groups_spec fs gs rs Hmap 1%nat {| fsys := fsys0; removed := 0; lines := [] |})
    as (st' & Hfold & Hf & Hk & Hl & Hkeep & _).
  simpl in *.
  eexists _, _.
  exists (if delete args && yes args then st' else {| fsys := fsys0; removed := 0; lines := [] |}).
  split; [reflexivity | ]. split; [reflexivity | ]. simpl.
  split_and!; auto.
  - unfold enumerate1. rewrite Hfold.
    destruct (delete args), (yes args); reflexivity.
  - eapply groups_concat_NoDup; eauto.
  - intros ->. reflexivity.
  - intros ->. split_and!; auto.
    intros d. rewrite Hl. split; [ | auto]. intros [H | H]; [inversion H | assumption].
Qed.

End RemovalFacts.

Section Deletion.

Import Main Removal.
Local Open Scope Z_scope.

Lemma elem_of_all_dupes (rs : list Resolved) x :
  x ∈ concat (map dupes rs) <-> exists R, R ∈ rs /\ x ∈ dupes R.
Proof.
  rewrite elem_of_concat. split.
  - intros (l & Hx & Hl). apply list_elem_of_fmap in Hl as (R & -> & HR). eauto.
  - intros (R & HR & Hx). exists (dupes R). split; [assumption | ].
    apply list_elem_of_fmap. eauto.
Qed.

(** X17. With [--delete --yes], a root that exists, a threshold within 0
    and 64 and fuel for every file, the run ends, and the files left are
    those that were there less the deletion candidates of the report
    that [os.remove] could remove. [removed] counts the files gone, the
    [DEL] lines of the manifest name exactly them, and every group's kept
    path has its [KEEP] line. *)
Theorem deletion_removes_candidates fuel w args fsys0 :
  root_exists w = true -> 0 <= effective_threshold args <= 64 ->
  (length (image_paths w) <= fuel)%nat ->
  delete args = true -> yes args = true ->
  exists run rep st,
    main_delete fuel w args fsys0 = Done (run, st) /\ report run = Some rep /\
    (forall x, x ∈ FS.present (fsys st) <->
       x ∈ FS.present fsys0 /\
       ~ (FS.denied fsys0 x = None /\ exists R, R ∈ resolved rep /\ x ∈ dupes R)) /\
    removed st =
      Z.of_nat (size (FS.present fsys0)) - Z.of_nat (size (FS.present (fsys st))) /\
    (forall d, DelLine d ∈ lines st <-> d ∈ FS.present fsys0 /\ d ∉ FS.present (fsys st)) /\
    (forall R, R ∈ resolved rep -> KeepLine (keep R) ∈ lines st).
Proof.
  intros Hroot Hthr Hfuel Hdel Hyes.
  destruct (main_delete_run fuel w args fsys0 Hroot Hthr Hfuel)
    as (run & rep & st & _ & Hrep & Hrun & _ & _ & _ & _ & Hyes').
  destruct Hyes' as (Hf & Hk & Hl & Hkeep); [now rewrite Hdel, Hyes | ].
  exists run, rep, st.
  destruct (remove_all fsys0 (concat (map dupes (resolved rep)))) as [[f k] ls] eqn:Hall.
  simpl in *.
  destruct (remove_all_spec _ _ _ _ _ Hall) as (_ & Hp & Hk' & _).
  pose proof (remove_all_lines _ _ _ _ _ Hall) as Hlines.
  rewrite Hf, Hk. split_and!; auto.
  - intros x. rewrite Hp, elem_of_all_dupes. tauto.
  - intros d. now rewrite Hl, Hlines.
Qed.

Lemma deletion_removes_candidates_witness :
  exists run rep st,
    main_delete 3 demo_world delete_args demo_fs = Done (run, st) /\
    report run = Some rep /\
    (forall x, x ∈ FS.present (fsys st) <->
       x ∈ FS.present demo_fs /\
       ~ (FS.denied demo_fs x = None /\ exists R, R ∈ resolved rep /\ x ∈ dupes R)) /\
    removed st =
      Z.of_nat (size (FS.present demo_fs)) - Z.of_nat (size (FS.present (fsys st))) /\
    (forall d, DelLine d ∈ lines st <-> d ∈ FS.present demo_fs /\ d ∉ FS.present (fsys st)) /\
    (forall R, R ∈ resolved rep -> KeepLine (keep R) ∈ lines st).
Proof.
  apply (deletion_removes_candidates 3 demo_world delete_args demo_fs);
    [reflexivity | vm_compute; split; discriminate | simpl; lia | reflexivity | reflexivity].
Defined.

(** X18. When the root exists, the threshold is within 0 and 64, there
    is fuel for every file and the discovered paths are distinct, a run
    never removes the path a group keeps: whatever the flags, every kept path
    that was there before the run is there after it, and no file appears
    that was not there. *)
Theorem kept_files_survive fuel w args fsys0 :
  root_exists w = true -> 0 <= effective_threshold args <= 64 ->
  (length (image_paths w) <= fuel)%nat ->
  NoDup (image_paths w) ->
  exists run rep st,
    main_delete fuel w args fsys0 = Done (run, st) /\ report run = Some rep /\
    (forall x, x ∈ FS.present (fsys st) -> x ∈ FS.present fsys0) /\
    (forall R, R ∈ resolved rep ->
       keep R ∈ FS.present fsys0 -> keep R ∈ FS.present (fsys st)).
Proof.
  intros Hroot Hthr Hfuel Hnd.
  destruct (main_delete_run fuel w args fsys0 Hroot Hthr Hfuel)
    as (run & rep & st & _ & Hrep & Hrun & Hfiles & Hres & Hgs & Hno & Hyes).
  exists run, rep, st. split; [assumption | ]. split; [assumption | ].
  destruct (delete args && yes args) eqn:Hflags.
  - destruct (Hyes eq_refl) as (Hf & _).
    destruct (remove_all fsys0 (concat (map dupes (resolved rep)))) as [[f k] ls] eqn:Hall.
    simpl in Hf.
    destruct (remove_all_spec _ _ _ _ _ Hall) as (_ & Hp & _).
    rewrite Hf. split.
    + intros x Hx. now apply Hp in Hx.
    + intros R HR Hin. apply Hp. split; [assumption | ].
      intros [Hd _]. apply elem_of_all_dupes in Hd as (R' & HR' & Hd).
      revert Hd. apply (keep_no_dupe (files rep) (groups rep) (resolved rep)); auto.
      rewrite Hfiles. now rewrite sorted_by_perm.
  - rewrite (Hno eq_refl). simpl. auto.
Qed.

Lemma kept_files_survive_witness :
  exists run rep st,
    main_delete 3 demo_world delete_args demo_fs = Done (run, st) /\
    report run = Some rep /\
    (forall x, x ∈ FS.present (fsys st) -> x ∈ FS.present demo_fs) /\
    (forall R, R ∈ resolved rep ->
       keep R ∈ FS.present demo_fs -> keep R ∈ FS.present (fsys st)).
Proof.
  apply (kept_files_survive 3 demo_world delete_args demo_fs);
    [reflexivity | vm_compute; split; discriminate | simpl; lia | ].
  apply (bool_decide_unpack (NoDup (image_paths demo_world))). vm_compute. exact I.
Defined.



End Deletion.

(** * The exact-duplicate script *)

Section Chunks.

Import Exact.

(** The loop of [sha256_file] feeds the hash the bytes of the file in
    their order, whatever the size of the chunks. *)
Lemma read_chunks_spec bufsize : forall fuel rest h,
  0 < bufsize -> length rest + bufsize <= fuel * bufsize ->
  read_chunks fuel bufsize rest h = Done (h ++ rest).
Proof.
  induction fuel as [ | fuel IH]; intros rest h Hpos Hfuel; [simpl in Hfuel; lia | ].
  cbn [read_chunks].
  destruct (take bufsize rest) as [ | b chunk] eqn:Htake.
  - destruct rest as [ | b rest]; [now rewrite app_nil_r | ].
    destruct bufsize; [lia | discriminate].
  - rewrite <- Htake, IH; [ | assumption | ].
    + now rewrite <- app_assoc, take_drop.
    + rewrite length_drop.
      assert (Hne : length rest <> 0) by (destruct rest; [destruct bufsize | ]; discriminate).
      simpl in Hfuel. destruct fuel as [ | fuel']; [simpl in *; lia | ].
      destruct (Nat.le_gt_cases bufsize (length rest)); [lia | ].
      simpl. lia.
Qed.

Lemma read_chunks_zero fuel rest h : 0 < fuel -> read_chunks fuel 0 rest h = Done h.
Proof. destruct fuel; [lia | reflexivity]. Qed.

Lemma default_bufsize_pos : 0 < default_bufsize.
Proof. unfold default_bufsize. apply Nat.mul_pos_pos; lia. Qed.

Lemma sha256_file_digest fuel w p :
  (forall content, file_bytes w p = Ok content -> length content < fuel) ->
  sha256_file fuel w p default_bufsize = Done (digest_of w p).
Proof.
  intros Hfuel. unfold sha256_file, digest_of.
  destruct (file_bytes w p) as [content | e]; [ | reflexivity].
  rewrite read_chunks_spec; [reflexivity | apply default_bufsize_pos | ].
  specialize (Hfuel content eq_refl). pose proof default_bufsize_pos.
  generalize dependent default_bufsize. intros b Hb. nia.
Qed.

(** X20. [sha256_file] returns the digest of the whole content of the
    file for every positive chunk size, given fuel for one turn of its
    loop for each chunk and one more for the empty read that ends it.
    With a chunk size of zero the first read is empty and the digest is
    that of no bytes at all. *)
Theorem chunk_size_invisible fuel w path bufsize content :
  file_bytes w path = Ok content -> 0 < fuel ->
  (0 < bufsize -> length content + bufsize <= fuel * bufsize) ->
  sha256_file fuel w path bufsize =
  Done (Ok (hexdigest w (if bufsize =? 0 then [] else content))).
Proof.
  intros Hread Hpos Hfuel. unfold sha256_file. rewrite Hread.
  destruct bufsize as [ | b].
  - now rewrite read_chunks_zero.
  - rewrite read_chunks_spec; [reflexivity | lia | apply Hfuel; lia].
Qed.

Lemma chunk_size_invisible_witness :
  sha256_file 3 demo_exact "a.jpg" 1 =
  Done (Ok (hexdigest demo_exact (if 1 =? 0 then [] else [Byte.x00]))).
Proof.
  apply (chunk_size_invisible 3 demo_exact "a.jpg" 1 [Byte.x00]);
    [reflexivity | lia | simpl; lia].
Defined.

End Chunks.

Section DigestMap.

Import Exact.

Lemma digest_get_None (m : DigestMap) k : digest_get m k = None <-> k ∉ map fst m.
Proof.
  induction m as [ | [k' l] m IH]; simpl.
  - split; [intros _; apply not_elem_of_nil | reflexivity].
  - rewrite not_elem_of_cons. destruct (String.eqb_spec k' k) as [-> | Hne].
    + split; [discriminate | tauto].
    + rewrite IH. intuition congruence.
Qed.

Lemma digest_get_elem (m : DigestMap) k l :
  NoDup (map fst m) -> ((k, l) ∈ m <-> digest_get m k = Some l).
Proof.
  induction m as [ | [k' l'] m IH]; simpl; intros Hnd.
  - rewrite elem_of_nil. split; [tauto | discriminate].
  - apply NoDup_cons in Hnd as [Hk' Hnd]. rewrite elem_of_cons.
    destruct (String.eqb_spec k' k) as [-> | Hne].
    + split.
      * intros [[= ->] | Hin]; [reflexivity | ].
        elim Hk'. apply list_elem_of_fmap. now exists (k, l).
      * intros [= ->]. now left.
    + rewrite <- (IH Hnd). split; [intros [[= -> ->] | ?]; [congruence | assumption] | auto].
Qed.

Lemma digest_append_get (m : DigestMap) k v k' :
  digest_get (setdefault_append m k v) k' =
  if String.eqb k k' then Some (default [] (digest_get m k) ++ [v]) else digest_get m k'.
Proof.
  induction m as [ | [k0 l0] m IH]; simpl.
  - reflexivity.
  - destruct (String.eqb_spec k0 k) as [-> | Hne]; simpl.
    + destruct (String.eqb_spec k k'); reflexivity.
    + rewrite IH. destruct (String.eqb_spec k0 k'), (String.eqb_spec k k'); congruence.
Qed.

Lemma digest_append_keys (m : DigestMap) k v :
  map fst (setdefault_append m k v) =
  match digest_get m k with
  | Some _ => map fst m
  | None => map fst m ++ [k]
  end.
Proof.
  induction m as [ | [k0 l0] m IH]; simpl; [reflexivity | ].
  destruct (String.eqb_spec k0 k) as [-> | Hne]; simpl; [reflexivity | ].
  rewrite IH. now destruct (digest_get m k).
Qed.

Lemma digest_append_NoDup (m : DigestMap) k v :
  NoDup (map fst m) -> NoDup (map fst (setdefault_append m k v)).
Proof.
  intros Hnd. rewrite digest_append_keys.
  destruct (digest_get m k) eqn:Hget; [assumption | ].
  apply NoDup_app. split_and!; [assumption | | apply NoDup_singleton].
  intros x Hx Hx'. apply list_elem_of_singleton in Hx'. subst x.
  now apply digest_get_None in Hget.
Qed.

Lemma has_digest_iff w k p : has_digest w k p = true <-> digest_of w p = Ok k.
Proof.
  unfold has_digest. destruct (digest_of w p) as [d | e].
  - rewrite String.eqb_eq. split; congruence.
  - split; discriminate.
Qed.

Lemma hash_step_eq fuel w st p :
  (forall content, file_bytes w p = Ok content -> length content < fuel) ->
  hash_step fuel w st p =
  Done (match digest_of w p with
        | Ok d => (setdefault_append (fst st) d p, snd st)
        | Raise e => (fst st, snd st ++ ["WARN: failed to hash " ++ p ++ ": " ++ e]%string)
        end).
Proof.
  intros Hfuel. unfold hash_step. rewrite (sha256_file_digest fuel w p Hfuel).
  now destruct (digest_of w p).
Qed.

Lemma hash_loop fuel w (files : list Path) :
  (forall p content, p ∈ files -> file_bytes w p = Ok content -> length content < fuel) ->
  forall seen m errs,
    hashed_inv w seen m ->
    exists m',
      foldM (hash_step fuel w) (m, errs) files = Done (m', errs ++ omap (warning w) files) /\
      hashed_inv w (seen ++ files) m'.
Proof.
  induction files as [ | p files IH]; intros Hfuel seen m errs Hinv.
  - exists m. simpl. now rewrite !app_nil_r.
  - cbn [foldM].
    change (omap (warning w) (p :: files))
      with (match warning w p with
            | Some y => y :: omap (warning w) files
            | None => omap (warning w) files
            end).
    rewrite hash_step_eq; [ | intros c; apply Hfuel; now left].
    cbn [mbind outcome_bind fst snd].
    assert (Hfuel' : forall q content, q ∈ files -> file_bytes w q = Ok content ->
                       length content < fuel) by (intros q c Hq; apply Hfuel; now right).
    unfold warning at 1.
    destruct (digest_of w p) as [d | e] eqn:Hd.
    + destruct (IH Hfuel' (seen ++ [p]) (setdefault_append m d p) errs) as (m' & Hrun & Hinv').
      * destruct Hinv as [Hnd Hget]. split; [now apply digest_append_NoDup | ].
        assert (Hh : forall k, has_digest w k p = String.eqb d k)
          by (intros k; unfold has_digest; now rewrite Hd).
        intros k. rewrite digest_append_get, filter_app, filter_cons, filter_nil, Hh.
        destruct (String.eqb_spec d k) as [-> | Hne].
        -- rewrite decide_True by exact I. rewrite Hget.
           destruct (filter (has_digest w k) seen); reflexivity.
        -- rewrite decide_False by (intros []). rewrite app_nil_r. apply Hget.
      * exists m'. rewrite <- app_assoc in Hinv'. auto.
    + destruct (IH Hfuel' (seen ++ [p]) m
                  (errs ++ ["WARN: failed to hash " ++ p ++ ": " ++ e]%string))
        as (m' & Hrun & Hinv').
      * destruct Hinv as [Hnd Hget]. split; [assumption | ].
        assert (Hh : forall k, has_digest w k p = false)
          by (intros k; unfold has_digest; now rewrite Hd).
        intros k. rewrite filter_app, filter_cons, filter_nil, Hh.
        rewrite decide_False by (intros []). rewrite app_nil_r. apply Hget.
      * exists m'. rewrite <- !app_assoc in *. auto.
Qed.

End DigestMap.

Section Dedupe.

Import Exact.
Local Open Scope Z_scope.

Lemma string_ltb_total x y : x <> y -> String.ltb x y = false -> String.ltb y x = true.
Proof.
  unfold String.ltb. intros Hne. rewrite (String.compare_antisym x y).
  destruct (String.compare y x) eqn:Hc; simpl; try congruence.
  apply String.compare_eq_iff in Hc. congruence.
Qed.

Lemma string_ltb_irrefl x : String.ltb x x = false.
Proof.
  destruct (String.ltb x x) eqn:H; [ | reflexivity].
  now rewrite (string_ltb_asym x x H) in H.
Qed.

(** The first of the sorted paths is the least, the others are the
    paths that have a lesser one. *)
Lemma extras_spec (l : list Path) :
  NoDup l ->
  forall x, x ∈ extras l <-> x ∈ l /\ exists y, y ∈ l /\ String.ltb y x = true.
Proof.
  intros Hnd x. unfold extras.
  pose proof (sorted_by_perm String.ltb l) as Hperm.
  pose proof (sorted_by_sorted String.ltb string_ltb_asym string_le_trans l) as Hsorted.
  destruct (sorted_by String.ltb l) as [ | keep rest]; simpl.
  - apply Permutation_nil_l in Hperm. subst l. split; [intros H | intros [H _]]; inversion H.
  - rewrite <- Hperm in Hnd. apply NoDup_cons in Hnd as [Hnot Hnd].
    apply StronglySorted_inv in Hsorted as [_ Hmin]. rewrite Forall_forall in Hmin.
    rewrite drop_0. split.
    + intros Hx. split; [rewrite <- Hperm; now right | ].
      exists keep. split; [rewrite <- Hperm; now left | ].
      apply string_ltb_total; [intros ->; contradiction | auto].
    + intros (Hx & y & Hy & Hlt). rewrite <- Hperm in Hx, Hy.
      apply elem_of_cons in Hx as [-> | Hx]; [ | assumption]. exfalso.
      apply elem_of_cons in Hy as [-> | Hy].
      * rewrite string_ltb_irrefl in Hlt. discriminate.
      * rewrite (Hmin y Hy) in Hlt. discriminate.
Qed.

Lemma extras_short (l : list Path) : (length l <= 1)%nat -> extras l = [].
Proof.
  intros Hlen. unfold extras.
  pose proof (Permutation_length (sorted_by_perm String.ltb l)) as Hl.
  destruct (sorted_by String.ltb l) as [ | a [ | b rest]]; simpl in *; auto; lia.
Qed.

Lemma remove_dups_eq ds : forall st,
  fold_left remove_dup ds st =
  let '(f, k, ls) := remove_all (fsys st) ds in
  {| fsys := f; removed_count := removed_count st + k;
     groups_with_dupes := groups_with_dupes st; lines := lines st ++ ls |}.
Proof.
  induction ds as [ | d ds IH]; intros st; simpl.
  - destruct st as [f r g ls]. simpl. f_equal; [lia | now rewrite app_nil_r].
  - rewrite IH. unfold remove_dup.
    destruct (FS.remove (fsys st) d) as [f' | e]; simpl.
    + destruct (remove_all f' ds) as [[f2 k2] ls2].
      f_equal; [lia | now rewrite <- app_assoc].
    + destruct (remove_all (fsys st) ds) as [[f2 k2] ls2].
      f_equal. now rewrite <- app_assoc.
Qed.

Lemma dedupe_step_spec st k (l : list Path) :
  exists st',
    dedupe_step st (k, l) = Done st' /\
    fsys st' = (remove_all (fsys st) (extras l)).1.1 /\
    removed_count st' = removed_count st + (remove_all (fsys st) (extras l)).1.2 /\
    groups_with_dupes st' = groups_with_dupes st + (if has_dupes (k, l) then 1 else 0) /\
    (forall d, DelLine d ∈ lines st' <->
       DelLine d ∈ lines st \/ DelLine d ∈ (remove_all (fsys st) (extras l)).2) /\
    (has_dupes (k, l) = true ->
     exists keep, sorted_by String.ltb l = keep :: extras l /\
                  DigestLine k ∈ lines st' /\ KeepLine keep ∈ lines st') /\
    (forall e, e ∈ lines st -> e ∈ lines st').
Proof.
  unfold dedupe_step, has_dupes. cbn [snd].
  destruct (Nat.leb_spec (length l) 1) as [Hshort | Hlong].
  - exists st. rewrite (extras_short l Hshort). simpl.
    destruct (Nat.ltb_spec 1 (length l)); [lia | ].
    split_and!; auto; try lia; try discriminate.
    intros d. split; [auto | ]. intros [? | Hd]; [assumption | inversion Hd].
  - destruct (Nat.ltb_spec 1 (length l)); [ | lia].
    pose proof (Permutation_length (sorted_by_perm String.ltb l)) as Hl.
    unfold extras.
    destruct (sorted_by String.ltb l) as [ | keep rest] eqn:Hs; [simpl in Hl; lia | ].
    change (drop 1 (keep :: rest)) with rest.
    cbn [getitem lookup list_lookup mbind outcome_bind].
    rewrite remove_dups_eq. cbn [fsys removed_count groups_with_dupes lines].
    destruct (remove_all (fsys st) rest) as [[f c] ls].
    eexists. split; [reflexivity | ]. simpl.
    split_and!; auto.
    + intros d. rewrite !elem_of_app, !elem_of_cons, elem_of_nil. split.
      * intros [[? | [? | [? | []]]] | ?]; auto; discriminate.
      * intros [? | ?]; auto.
    + intros _. exists keep. split; [reflexivity | ].
      rewrite !elem_of_app, !elem_of_cons. split; auto 8.
    + intros e He. rewrite !elem_of_app. auto.
Qed.

Lemma dedupe_loop (items : list (string * list Path)) : forall st,
  exists st',
    foldM dedupe_step st items = Done st' /\
    fsys st' = (remove_all (fsys st) (concat (map (fun kl => extras (snd kl)) items))).1.1 /\
    removed_count st' =
      removed_count st +
      (remove_all (fsys st) (concat (map (fun kl => extras (snd kl)) items))).1.2 /\
    groups_with_dupes st' =
      groups_with_dupes st + Z.of_nat (length (filter has_dupes items)) /\
    (forall d, DelLine d ∈ lines st' <->
       DelLine d ∈ lines st \/
       DelLine d ∈ (remove_all (fsys st) (concat (map (fun kl => extras (snd kl)) items))).2) /\
    (forall k l, (k, l) ∈ items -> has_dupes (k, l) = true ->
       exists keep, sorted_by String.ltb l = keep :: extras l /\
                    DigestLine k ∈ lines st' /\ KeepLine keep ∈ lines st') /\
    (forall e, e ∈ lines st -> e ∈ lines st').
Proof.
  induction items as [ | [k l] items IH]; intros st; cbn [foldM map concat].
  - exists st. simpl. split_and!; auto; try lia.
    + intros d. split; [auto | ]. intros [? | H]; [assumption | inversion H].
    + intros k l H. inversion H.
  - destruct (dedupe_step_spec st k l) as (st1 & -> & Hf1 & Hc1 & Hg1 & Hl1 & Hk1 & Hm1).
    cbn [mbind outcome_bind snd].
    destruct (IH st1) as (st' & Hrun & Hf & Hc & Hg & Hl & Hk & Hm).
    assert (Hcount : Z.of_nat (length (filter has_dupes ((k, l) :: items))) =
                     (if has_dupes (k, l) then 1 else 0) +
                     Z.of_nat (length (filter has_dupes items))).
    { rewrite filter_cons. destruct (has_dupes (k, l)).
      - rewrite decide_True by exact I. simpl length. lia.
      - rewrite decide_False by (intros []). lia. }
    exists st'. rewrite remove_all_app, Hcount. clear Hcount.
    destruct (remove_all (fsys st) (extras l)) as [[f1 c1] ls1]. simpl in Hf1, Hc1, Hl1.
    rewrite Hf1 in *.
    destruct (remove_all f1 _) as [[f2 c2] ls2]. simpl in *.
    split_and!; auto; try lia.
    + intros d. rewrite Hl, Hl1, elem_of_app. tauto.
    + intros k' l'. rewrite elem_of_cons. intros [[= -> ->] | Hin] Hd; [ | eauto].
      destruct (Hk1 Hd) as (keep & Hs & HD & HK). exists keep. auto.
Qed.

(** A run of [main] when [images/] exists, in terms of the removal of
    the extras of every entry of [digest_map]. *)
Lemma exact_run fuel w fsys0 :
  images_exists w = true ->
  (forall p content, p ∈ image_files w -> file_bytes w p = Ok content ->
     (length content < fuel)%nat) ->
  exists res,
    main fuel w fsys0 = Done res /\ exit_code res = 0 /\
    stderr res = omap (warning w) (image_files w) /\
    hashed_inv w (image_files w) (digest_map res) /\
    let all := concat (map (fun kl => extras (snd kl)) (sorted_items (digest_map res))) in
    fsys (final res) = (remove_all fsys0 all).1.1 /\
    removed_count (final res) = (remove_all fsys0 all).1.2 /\
    groups_with_dupes (final res) =
      Z.of_nat (length (filter has_dupes (digest_map res))) /\
    (forall d, DelLine d ∈ lines (final res) <-> DelLine d ∈ (remove_all fsys0 all).2) /\
    (forall k l, (k, l) ∈ digest_map res -> has_dupes (k, l) = true ->
       exists keep, sorted_by String.ltb l = keep :: extras l /\
                    DigestLine k ∈ lines (final res) /\ KeepLine keep ∈ lines (final res)).
Proof.
  intros Hroot Hfuel. unfold main. rewrite Hroot. cbn [negb].
  destruct (hash_loop fuel w (image_files w) Hfuel [] [] [])
    as (m & Hhash & Hinv).
  { split; [constructor | ]. intros k. reflexivity. }
  match goal with
  | |- context [foldM (hash_step fuel w) ?s ?l] =>
    assert (Hhash' : foldM (hash_step fuel w) s l =
                     Done (m, omap (warning w) (image_files w))) by exact Hhash;
    rewrite Hhash'; clear Hhash'
  end.
  cbn [mbind outcome_bind app].
  match goal with |- context [foldM dedupe_step ?s _] => set (st0 := s) end.
  destruct (dedupe_loop (sorted_items m) st0) as (st & -> & Hf & Hc & Hg & Hl & Hk & _).
  eexists. split; [reflexivity | ]. simpl in *.
  pose proof (sorted_by_perm (fun a b => String.ltb (fst a) (fst b)) m) as Hperm.
  fold (sorted_items m) in Hperm.
  split_and!; auto.
  - rewrite Hg. now rewrite Hperm.
  - intros d. rewrite Hl. split; [ | auto]. intros [H | H]; [inversion H | assumption].
  - intros k l Hin. apply Hk. now rewrite Hperm.
Qed.

(** The extras of all entries: the files that have a digest and share it
    with a file of lesser path. *)
Lemma elem_of_all_extras w (files : list Path) (m items : DigestMap) x :
  NoDup files -> hashed_inv w files m -> items ≡ₚ m ->
  x ∈ concat (map (fun kl => extras (snd kl)) items) <->
  x ∈ files /\
  exists y k, y ∈ files /\ digest_of w y = Ok k /\ digest_of w x = Ok k /\
              String.ltb y x = true.
Proof.
  intros Hnd [Hkeys Hget] Hperm. rewrite elem_of_concat. split.
  - intros (e & Hx & He). apply list_elem_of_fmap in He as ([k l] & -> & Hin).
    rewrite Hperm in Hin. simpl in Hx.
    apply digest_get_elem in Hin; [ | assumption]. rewrite Hget in Hin.
    assert (Hl : l = filter (has_digest w k) files)
      by (destruct (filter (has_digest w k) files); congruence).
    apply extras_spec in Hx; [ | rewrite Hl; now apply NoDup_filter].
    destruct Hx as (Hx & y & Hy & Hlt). rewrite Hl in Hx, Hy.
    apply list_elem_of_filter in Hx as [Hdx Hx], Hy as [Hdy Hy].
    apply Is_true_true, has_digest_iff in Hdx, Hdy.
    split; [assumption | ]. exists y, k. auto.
  - intros (Hx & y & k & Hy & Hdy & Hdx & Hlt).
    set (l := filter (has_digest w k) files).
    assert (Hxl : x ∈ l)
      by (apply list_elem_of_filter; split; [now apply Is_true_true, has_digest_iff | auto]).
    assert (Hyl : y ∈ l)
      by (apply list_elem_of_filter; split; [now apply Is_true_true, has_digest_iff | auto]).
    exists (extras l). split.
    + apply extras_spec; [now apply NoDup_filter | eauto].
    + apply list_elem_of_fmap. exists (k, l). split; [reflexivity | ].
      rewrite Hperm. apply digest_get_elem; [assumption | ].
      rewrite Hget. fold l. destruct l; [inversion Hxl | reflexivity].
Qed.

End Dedupe.

Section ExactFacts.

Import Exact.
Local Open Scope Z_scope.

(** X21. When [images/] exists and there is fuel to read every file,
    [main] ends with exit code 0 and [digest_map] has one entry for each
    digest some file has: under the digest are the files that have it,
    all of them, in the order of the scan. A file that cannot be read is
    under no digest and leaves a warning on standard error, the warnings
    in the order of the scan. *)
Theorem digest_map_groups_files fuel w fsys0 :
  images_exists w = true ->
  (forall p content, p ∈ image_files w -> file_bytes w p = Ok content ->
     (length content < fuel)%nat) ->
  exists res,
    main fuel w fsys0 = Done res /\ exit_code res = 0 /\
    NoDup (map fst (digest_map res)) /\
    (forall k l, (k, l) ∈ digest_map res <->
       l <> [] /\ l = filter (has_digest w k) (image_files w)) /\
    (forall p k, has_digest w k p = true <-> digest_of w p = Ok k) /\
    stderr res = omap (warning w) (image_files w).
Proof.
  intros Hroot Hfuel.
  destruct (exact_run fuel w fsys0 Hroot Hfuel) as (res & Hrun & Hexit & Herr & [Hnd Hget] & _).
  exists res. split_and!; auto.
  - intros k l. rewrite (digest_get_elem _ _ _ Hnd), Hget.
    destruct (filter (has_digest w k) (image_files w)) as [ | p ps]; split.
    + discriminate.
    + intros [? ->]. congruence.
    + intros [= <-]. split; [discriminate | reflexivity].
    + intros [_ ->]. reflexivity.
  - intros p k. apply has_digest_iff.
Qed.

Lemma digest_map_groups_files_witness :
  exists res,
    main 2 demo_exact demo_fs = Done res /\ exit_code res = 0 /\
    NoDup (map fst (digest_map res)) /\
    (forall k l, (k, l) ∈ digest_map res <->
       l <> [] /\ l = filter (has_digest demo_exact k) (image_files demo_exact)) /\
    (forall p k, has_digest demo_exact k p = true <-> digest_of demo_exact p = Ok k) /\
    stderr res = omap (warning demo_exact) (image_files demo_exact).
Proof.
  apply (digest_map_groups_files 2 demo_exact demo_fs); [reflexivity | ].
  intros p content _. cbn [demo_exact file_bytes].
  destruct (String.eqb p "bad.jpg"); [discriminate | ].
  intros [= <-]. cbn [length]. lia.
Defined.

(** X22. When [images/] exists, there is fuel to read every file and the
    scanned paths are distinct, [main] ends and the files left
    are those that were there, less every scanned file that [os.remove]
    could remove and that has the digest of a scanned file of lesser
    path. [removed_count] is the number of files gone, the [DEL] lines
    name exactly them, and [groups_with_dupes] is the number of digests
    with more than one file. *)
Theorem exact_removal_effect fuel w fsys0 :
  images_exists w = true ->
  (forall p content, p ∈ image_files w -> file_bytes w p = Ok content ->
     (length content < fuel)%nat) ->
  NoDup (image_files w) ->
  exists res,
    main fuel w fsys0 = Done res /\
    (forall x, x ∈ FS.present (fsys (final res)) <->
       x ∈ FS.present fsys0 /\
       ~ (FS.denied fsys0 x = None /\ x ∈ image_files w /\
          exists y k, y ∈ image_files w /\ digest_of w y = Ok k /\
                      digest_of w x = Ok k /\ String.ltb y x = true)) /\
    removed_count (final res) =
      Z.of_nat (size (FS.present fsys0)) -
      Z.of_nat (size (FS.present (fsys (final res)))) /\
    (forall d, DelLine d ∈ lines (final res) <->
       d ∈ FS.present fsys0 /\ d ∉ FS.present (fsys (final res))) /\
    groups_with_dupes (final res) =
      Z.of_nat (length (filter has_dupes (digest_map res))).
Proof.
  intros Hroot Hfuel Hnd.
  destruct (exact_run fuel w fsys0 Hroot Hfuel)
    as (res & Hrun & _ & _ & Hinv & Hf & Hc & Hg & Hl & _).
  exists res. split; [assumption | ].
  pose proof (sorted_by_perm (fun a b => String.ltb (fst a) (fst b)) (digest_map res))
    as Hperm.
  fold (sorted_items (digest_map res)) in Hperm.
  pose proof (fun x => elem_of_all_extras w _ _ _ x Hnd Hinv Hperm) as Hall.
  destruct (remove_all fsys0 _) as [[f c] ls] eqn:Hrm. simpl in Hf, Hc, Hl.
  destruct (remove_all_spec _ _ _ _ _ Hrm) as (_ & Hp & Hc' & _).
  pose proof (remove_all_lines _ _ _ _ _ Hrm) as Hlines.
  rewrite Hf, Hc. split_and!; auto.
  - intros x. rewrite Hp, Hall. tauto.
  - intros d. now rewrite Hl, Hlines.
Qed.

Lemma exact_removal_effect_witness :
  exists res,
    main 2 demo_exact demo_fs = Done res /\
    (forall x, x ∈ FS.present (fsys (final res)) <->
       x ∈ FS.present demo_fs /\
       ~ (FS.denied demo_fs x = None /\ x ∈ image_files demo_exact /\
          exists y k, y ∈ image_files demo_exact /\ digest_of demo_exact y = Ok k /\
                      digest_of demo_exact x = Ok k /\ String.ltb y x = true)) /\
    removed_count (final res) =
      Z.of_nat (size (FS.present demo_fs)) -
      Z.of_nat (size (FS.present (fsys (final res)))) /\
    (forall d, DelLine d ∈ lines (final res) <->
       d ∈ FS.present demo_fs /\ d ∉ FS.present (fsys (final res))) /\
    groups_with_dupes (final res) =
      Z.of_nat (length (filter has_dupes (digest_map res))).
Proof.
  apply (exact_removal_effect 2 demo_exact demo_fs); [reflexivity | | ].
  - intros p content _. cbn [demo_exact file_bytes].
    destruct (String.eqb p "bad.jpg"); [discriminate | ].
    intros [= <-]. cbn [length]. lia.
  - apply (bool_decide_unpack (NoDup (image_files demo_exact))). vm_compute. exact I.
Defined.

(** X23. When [images/] exists, there is fuel to read every file and the
    scanned paths are distinct, one file of every digest survives the
    run of [main]:
    among the scanned files with a given digest, the one of least path
    is kept, and if it was there before the run it is there after it. *)
Theorem one_copy_survives fuel w fsys0 :
  images_exists w = true ->
  (forall p content, p ∈ image_files w -> file_bytes w p = Ok content ->
     (length content < fuel)%nat) ->
  NoDup (image_files w) ->
  exists res,
    main fuel w fsys0 = Done res /\
    forall x k, x ∈ image_files w -> digest_of w x = Ok k ->
      exists keep,
        keep ∈ image_files w /\ digest_of w keep = Ok k /\
        (forall z, z ∈ image_files w -> digest_of w z = Ok k ->
           String.ltb z keep = false) /\
        (keep ∈ FS.present fsys0 -> keep ∈ FS.present (fsys (final res))).
Proof.
  intros Hroot Hfuel Hnd.
  destruct (exact_run fuel w fsys0 Hroot Hfuel)
    as (res & Hrun & _ & _ & Hinv & Hf & _).
  exists res. split; [assumption | ].
  pose proof (sorted_by_perm (fun a b => String.ltb (fst a) (fst b)) (digest_map res))
    as Hperm.
  fold (sorted_items (digest_map res)) in Hperm.
  pose proof (fun x => elem_of_all_extras w _ _ _ x Hnd Hinv Hperm) as Hall.
  destruct (remove_all fsys0 _) as [[f c] ls] eqn:Hrm. simpl in Hf.
  destruct (remove_all_spec _ _ _ _ _ Hrm) as (_ & Hp & _).
  intros x k Hx Hdx.
  set (l := filter (has_digest w k) (image_files w)).
  assert (Hmem : forall z, z ∈ l <-> z ∈ image_files w /\ digest_of w z = Ok k).
  { intros z. unfold l. rewrite list_elem_of_filter, Is_true_true, has_digest_iff. tauto. }
  pose proof (sorted_by_perm String.ltb l) as Hpl.
  pose proof (sorted_by_sorted String.ltb string_ltb_asym string_le_trans l) as Hsorted.
  destruct (sorted_by String.ltb l) as [ | keep rest].
  { apply Permutation_nil_l in Hpl. assert (Hxl : x ∈ l) by (apply Hmem; auto).
    rewrite <- Hpl in Hxl. inversion Hxl. }
  apply StronglySorted_inv in Hsorted as [_ Hmin]. rewrite Forall_forall in Hmin.
  assert (Hkeep : keep ∈ l) by (rewrite <- Hpl; now left).
  assert (Hleast : forall z, z ∈ image_files w -> digest_of w z = Ok k ->
                     String.ltb z keep = false).
  { intros z Hz Hdz. assert (Hzl : z ∈ l) by (apply Hmem; auto).
    rewrite <- Hpl in Hzl. apply elem_of_cons in Hzl as [-> | Hzl]; [ | auto].
    apply string_ltb_irrefl. }
  apply Hmem in Hkeep as [Hkf Hkd].
  exists keep. split_and!; auto.
  intros Hin. rewrite Hf. apply Hp. split; [assumption | ].
  intros [Hex _]. apply Hall in Hex as (_ & y & k' & Hy & Hdy & Hdk & Hlt).
  assert (k' = k) by congruence. subst k'.
  rewrite (Hleast y Hy Hdy) in Hlt. discriminate.
Qed.

Lemma one_copy_survives_witness :
  exists res,
    main 2 demo_exact demo_fs = Done res /\
    forall x k, x ∈ image_files demo_exact -> digest_of demo_exact x = Ok k ->
      exists keep,
        keep ∈ image_files demo_exact /\ digest_of demo_exact keep = Ok k /\
        (forall z, z ∈ image_files demo_exact -> digest_of demo_exact z = Ok k ->
           String.ltb z keep = false) /\
        (keep ∈ FS.present demo_fs -> keep ∈ FS.present (fsys (final res))).
Proof.
  apply (one_copy_survives 2 demo_exact demo_fs); [reflexivity | | ].
  - intros p content _. cbn [demo_exact file_bytes].
    destruct (String.eqb p "bad.jpg"); [discriminate | ].
    intros [= <-]. cbn [length]. lia.
  - apply (bool_decide_unpack (NoDup (image_files demo_exact))). vm_compute. exact I.
Defined.

End ExactFacts.

(** * The ImageMagick fallback and the order of the groups *)

Section Fallback.

Import AHash Hamming.
Local Open Scope Z_scope.

(** X24. Without Pillow, [ahash] runs [magick convert] first and [convert]
    second, and hashes the first 64 bytes of the first output that has 64
    bytes or more; what follows them is ignored. When neither command
    gives such an output it raises the [RuntimeError] of
    [ahash_imagemagick]. A hash it returns is a 64-bit fingerprint. *)
Theorem imagemagick_fallback be path c1 c2 :
  have_pillow be = false -> cmd_variants path = [c1; c2] ->
  (head c1 = Some "magick"%string /\ head c2 = Some "convert"%string) /\
  match usable be c1, usable be c2 with
  | Some out, _ => ahash be path = Ok (pack (map byte_value (take 64 out)))
  | None, Some out => ahash be path = Ok (pack (map byte_value (take 64 out)))
  | None, None =>
    exists e, ahash be path =
              Raise ("ImageMagick convert not available or failed: " ++ e)%string
  end /\
  forall h, ahash be path = Ok h -> fingerprint64 h.
Proof.
  intros Hpil Hcmds. split; [ | split].
  - unfold cmd_variants in Hcmds. injection Hcmds as <- <-. split; reflexivity.
  - unfold ahash, ahash_imagemagick, usable. rewrite Hpil, Hcmds. cbn [try_variants].
    destruct (check_output be c1) as [out1 | e1].
    + destruct (length out1 <? 64)%nat; [ | reflexivity].
      destruct (check_output be c2) as [out2 | e2]; [ | eauto].
      destruct (length out2 <? 64)%nat; [eauto | reflexivity].
    + destruct (check_output be c2) as [out2 | e2]; [ | eauto].
      destruct (length out2 <? 64)%nat; [eauto | reflexivity].
  - intros h. unfold ahash, ahash_imagemagick. rewrite Hpil.
    apply try_variants_fingerprint.
Qed.

Lemma imagemagick_fallback_witness :
  (head (["magick"; "convert"; "a.jpg"; "-colorspace"; "RGB"; "-resize"; "8x8!";
          "-colorspace"; "Gray"; "-depth"; "8"; "gray:-"]%string) = Some "magick"%string /\
   head (["convert"; "a.jpg"; "-colorspace"; "RGB"; "-resize"; "8x8!";
          "-colorspace"; "Gray"; "-depth"; "8"; "gray:-"]%string) = Some "convert"%string) /\
  match usable convert_backend
          ["magick"; "convert"; "a.jpg"; "-colorspace"; "RGB"; "-resize"; "8x8!";
           "-colorspace"; "Gray"; "-depth"; "8"; "gray:-"]%string,
        usable convert_backend
          ["convert"; "a.jpg"; "-colorspace"; "RGB"; "-resize"; "8x8!";
           "-colorspace"; "Gray"; "-depth"; "8"; "gray:-"]%string with
  | Some out, _ => ahash convert_backend "a.jpg" = Ok (pack (map byte_value (take 64 out)))
  | None, Some out => ahash convert_backend "a.jpg" = Ok (pack (map byte_value (take 64 out)))
  | None, None =>
    exists e, ahash convert_backend "a.jpg" =
              Raise ("ImageMagick convert not available or failed: " ++ e)%string
  end /\
  forall h, ahash convert_backend "a.jpg" = Ok h -> fingerprint64 h.
Proof.
  apply (imagemagick_fallback convert_backend "a.jpg"); reflexivity.
Defined.

End Fallback.

Section GroupOrder.

Import Main.
Local Open Scope Z_scope.

Lemma string_compare_Gt_trans x y z :
  String.compare y x <> Lt -> String.compare z y = Gt -> String.compare z x = Gt.
Proof.
  intros Hyx Hzy.
  pose proof (string_compare_le_trans x y z) as Ht.
  rewrite (String.compare_antisym x y), (String.compare_antisym y z),
          (String.compare_antisym x z), Hzy in Ht.
  destruct (String.compare z x) eqn:Hzx; [ | | reflexivity].
  - apply String.compare_eq_iff in Hzx. subst z.
    rewrite (String.compare_antisym x y) in Hzy.
    destruct (String.compare y x); simpl in *; congruence.
  - simpl in Ht. elim Ht; [ | discriminate | reflexivity].
    destruct (String.compare y x); simpl; congruence.
Qed.

Lemma names_lt_asym l1 : forall l2, names_lt l1 l2 = true -> names_lt l2 l1 = false.
Proof.
  induction l1 as [ | a l1 IH]; intros [ | b l2]; simpl; try congruence.
  rewrite (String.compare_antisym a b).
  destruct (String.compare b a); simpl; try congruence. apply IH.
Qed.

Lemma names_le_trans l1 : forall l2 l3,
  names_lt l2 l1 = false -> names_lt l3 l2 = false -> names_lt l3 l1 = false.
Proof.
  induction l1 as [ | a l1 IH]; intros l2 l3 H21 H32.
  - destruct l3; reflexivity.
  - destruct l2 as [ | b l2]; [discriminate | ].
    destruct l3 as [ | c l3]; [discriminate | ].
    simpl in *.
    destruct (String.compare b a) eqn:Hba; try discriminate.
    + apply String.compare_eq_iff in Hba. subst b.
      destruct (String.compare c a); try discriminate; [ | reflexivity].
      eapply IH; eauto.
    + destruct (String.compare c b) eqn:Hcb; try discriminate.
      * apply String.compare_eq_iff in Hcb. subst c. now rewrite Hba.
      * rewrite (string_compare_Gt_trans a b c); [reflexivity | | assumption].
        rewrite Hba. discriminate.
Qed.

Lemma key_lt_asym k1 k2 : key_lt k1 k2 = true -> key_lt k2 k1 = false.
Proof.
  unfold key_lt. destruct k1 as [n1 l1], k2 as [n2 l2]. simpl.
  destruct (Nat.ltb_spec n1 n2), (Nat.ltb_spec n2 n1), (Nat.eqb_spec n1 n2),
    (Nat.eqb_spec n2 n1); simpl; try lia; try congruence.
  apply names_lt_asym.
Qed.

Lemma key_le_trans k1 k2 k3 :
  key_lt k2 k1 = false -> key_lt k3 k2 = false -> key_lt k3 k1 = false.
Proof.
  unfold key_lt. destruct k1 as [n1 l1], k2 as [n2 l2], k3 as [n3 l3]. simpl.
  destruct (Nat.ltb_spec n2 n1), (Nat.ltb_spec n3 n2), (Nat.ltb_spec n3 n1),
    (Nat.eqb_spec n2 n1), (Nat.eqb_spec n3 n2), (Nat.eqb_spec n3 n1);
    simpl; try lia; try congruence.
  apply names_le_trans.
Qed.

Lemma key_of_length (fs : list Path) g k : key_of fs g = Done k -> fst k = length g.
Proof.
  unfold key_of. destruct (mapM (getitem fs) g); simpl; try discriminate.
  now intros [= <-].
Qed.

(** The groups [sort_groups] returns are in the order of their keys. *)
Lemma sort_groups_sorted (fs : list Path) gs0 gs :
  sort_groups fs gs0 = Done gs -> StronglySorted (key_le fs) gs.
Proof.
  unfold sort_groups.
  destruct (mapM _ gs0) as [keyed | | ] eqn:Hk; simpl; try discriminate.
  intros [= <-]. apply mapM_Done in Hk.
  assert (Hkeys : Forall (fun kg => key_of fs (snd kg) = Done (fst kg)) keyed).
  { clear -Hk. induction Hk as [ | g kg gs0 keyed H _ IH]; constructor; [ | assumption].
    destruct (key_of fs g) as [k | | ] eqn:Hg; simpl in H; try discriminate.
    injection H as <-. assumption. }
  set (lt := fun a b : group_key * list nat => key_lt (fst a) (fst b)).
  assert (Hsorted : StronglySorted (fun a b => lt b a = false) (sorted_by lt keyed)).
  { apply sorted_by_sorted.
    - intros x y. apply key_lt_asym.
    - intros x y z. apply key_le_trans. }
  assert (Hkeys' : Forall (fun kg => key_of fs (snd kg) = Done (fst kg)) (sorted_by lt keyed)).
  { rewrite Forall_forall in *. intros kg Hin. apply Hkeys.
    now rewrite <- (sorted_by_perm lt keyed). }
  clear Hkeys Hk. induction Hsorted as [ | kg l Hs IH Hall]; simpl; [constructor | ].
  apply Forall_cons in Hkeys' as [Hkg Hkeys'].
  constructor; [auto | ].
  rewrite Forall_forall in Hall, Hkeys'. apply Forall_forall. intros g Hg.
  apply list_elem_of_fmap in Hg as (kg' & -> & Hin).
  exists (fst kg), (fst kg'). split_and!; auto. now apply Hall.
Qed.

(** X25. For every list of files and hash entries of the same length, every
    threshold and fuel covering the number of files, the
    groups of the report are in
    ascending order of the key [(len(g), [str(files[i]) for i in g])]:
    no group stands before one with a lesser key, and so no group stands
    before a smaller one. *)
Theorem groups_in_key_order fuel thr (fs : list Path) hst :
  length (hashes hst) = length fs -> (length fs <= fuel)%nat ->
  exists run rep,
    cluster fuel thr fs hst = Done run /\ report run = Some rep /\
    StronglySorted (key_le fs) (groups rep) /\
    StronglySorted (fun g1 g2 => (length g1 <= length g2)%nat) (groups rep).
Proof.
  intros Hlen Hfuel.
  destruct (cluster_run fuel thr fs hst Hlen Hfuel)
    as (st & d' & comps & gs & rs & _ & _ & _ & Hsort & _ & _ & _ & Hrun).
  rewrite Hrun. eexists _, _. split; [reflexivity | ]. split; [reflexivity | ]. simpl.
  pose proof (sort_groups_sorted fs _ _ Hsort) as Hs.
  split; [assumption | ].
  clear -Hs. induction Hs as [ | g gs _ IH Hall]; constructor; [assumption | ].
  eapply Forall_impl; [exact Hall | ].
  intros g' (k1 & k2 & H1 & H2 & Hlt).
  apply key_of_length in H1, H2. unfold key_lt in Hlt.
  apply orb_false_iff in Hlt as [Hlt _]. apply Nat.ltb_ge in Hlt. lia.
Qed.

Lemma groups_in_key_order_witness :
  exists run rep,
    cluster 3 0 demo_files demo_hashes = Done run /\ report run = Some rep /\
    StronglySorted (key_le demo_files) (groups rep) /\
    StronglySorted (fun g1 g2 => (length g1 <= length g2)%nat) (groups rep).
Proof.
  apply (groups_in_key_order 3 0 demo_files demo_hashes); [reflexivity | simpl; lia].
Defined.

End GroupOrder.
